(** * charconv: integer parsing and floating-point formatting

    A shallow embedding of [src/from_chars.cpp] (the generic integer parser
    [from_chars_impl] and its digit table) and of
    [src/to_chars_float_impl.hpp] (the non-finite, hexadecimal and fixed
    renderers and the dispatcher [to_chars_float_impl]), with the properties
    the specification states about them.

    Conventions.
    - Pointers are addresses in [Z]; [first] and [last] delimit [first, last).
    - A [char] is the integer it holds: [-128..127] where [char] is signed,
      [0..255] where it is unsigned.  Memory stores raw bytes [0..255].
    - A w-bit unsigned integer is a [Z] with the wrap-around written out.
    - Behaviour the C++ standard leaves undefined (a read outside an array,
      signed overflow, an unreachable branch that is reached) is the outcome
      [Undefined]; a loop that has not finished when its fuel is used up is
      [OutOfFuel]. *)

From Stdlib Require Import ZArith List Lia Bool String Ascii QArith Qround.
Import ListNotations.
Local Open Scope Z_scope.

(** ** Outcomes *)

Inductive outcome (A : Type) : Type :=
| Done (a : A)
| Undefined
| OutOfFuel.
Arguments Done {A} a.
Arguments Undefined {A}.
Arguments OutOfFuel {A}.

Definition bind {A B : Type} (m : outcome A) (k : A -> outcome B) : outcome B :=
  match m with
  | Done a => k a
  | Undefined => Undefined
  | OutOfFuel => OutOfFuel
  end.

Notation "x <- m ;; k" := (bind m (fun x => k))
  (at level 61, m at next level, right associativity).
Notation "' p <- m ;; k" := (bind m (fun p => k))
  (at level 61, p pattern, m at next level, right associativity).

Definition of_option {A : Type} (o : option A) : outcome A :=
  match o with
  | Some a => Done a
  | None => Undefined
  end.

(** [std::errc] as the two files use it: [errc()] / [0], [EINVAL], and
    [ERANGE] / [result_out_of_range]. *)
Inductive errc : Type := errc_ok | EINVAL | ERANGE.

Definition b2z (b : bool) : Z := if b then 1 else 0.

(** A character literal and the characters of a string literal, as the
    integers a [char] holds. *)
Definition ch (a : ascii) : Z := Z.of_N (N_of_ascii a).
Definition chars (s : string) : list Z := map ch (list_ascii_of_string s).

(** ** Platform constants *)

Definition size_t_bits : Z := 64.
Definition int_bits : Z := 32.
Definition INT_MAX : Z := 2 ^ (int_bits - 1) - 1.
Definition INT_MIN : Z := - 2 ^ (int_bits - 1).

(** * from_chars.cpp *)

Module FromChars.

(** [static constexpr std::array<unsigned char, 256> uchar_values] *)
Definition uchar_values : list Z :=
  [255; 255; 255; 255; 255; 255; 255; 255; 255; 255; 255; 255; 255; 255; 255; 255;
   255; 255; 255; 255; 255; 255; 255; 255; 255; 255; 255; 255; 255; 255; 255; 255;
   255; 255; 255; 255; 255; 255; 255; 255; 255; 255; 255; 255; 255; 255; 255; 255;
     0;   1;   2;   3;   4;   5;   6;   7;   8;   9; 255; 255; 255; 255; 255; 255;
   255;  10;  11;  12;  13;  14;  15;  16;  17;  18;  19;  20;  21;  22;  23;  24;
    25;  26;  27;  28;  29;  30;  31;  32;  33;  34;  35; 255; 255; 255; 255; 255;
   255;  10;  11;  12;  13;  14;  15;  16;  17;  18;  19;  20;  21;  22;  23;  24;
    25;  26;  27;  28;  29;  30;  31;  32;  33;  34;  35; 255; 255; 255; 255; 255;
   255; 255; 255; 255; 255; 255; 255; 255; 255; 255; 255; 255; 255; 255; 255; 255;
   255; 255; 255; 255; 255; 255; 255; 255; 255; 255; 255; 255; 255; 255; 255; 255;
   255; 255; 255; 255; 255; 255; 255; 255; 255; 255; 255; 255; 255; 255; 255; 255;
   255; 255; 255; 255; 255; 255; 255; 255; 255; 255; 255; 255; 255; 255; 255; 255;
   255; 255; 255; 255; 255; 255; 255; 255; 255; 255; 255; 255; 255; 255; 255; 255;
   255; 255; 255; 255; 255; 255; 255; 255; 255; 255; 255; 255; 255; 255; 255; 255;
   255; 255; 255; 255; 255; 255; 255; 255; 255; 255; 255; 255; 255; 255; 255; 255;
   255; 255; 255; 255; 255; 255; 255; 255; 255; 255; 255; 255; 255; 255; 255; 255].

(** [static_cast<std::size_t>(val)] of a [char]: the value modulo 2^64, so a
    negative [char] becomes an index close to 2^64. *)
Definition to_size_t (val : Z) : Z := val mod 2 ^ size_t_bits.

(** [uchar_values[i]]: [None] when [i] is outside the 256 entries. *)
Definition array_at (a : list Z) (i : Z) : option Z :=
  if (0 <=? i) && (i <? Z.of_nat (List.length a)) then nth_error a (Z.to_nat i)
  else None.

(** [inline unsigned char digit_from_char(char val)] *)
Definition digit_from_char (val : Z) : option Z :=
  array_at uchar_values (to_size_t val).

(** The integer types [from_chars] is declared for. *)
Record Integer : Type := { width : Z; is_signed : bool }.

Definition numeric_max (T : Integer) : Z :=
  if is_signed T then 2 ^ (width T - 1) - 1 else 2 ^ width T - 1.
Definition numeric_min (T : Integer) : Z :=
  if is_signed T then - 2 ^ (width T - 1) else 0.

(** [static_cast<Unsigned_Integer>(x)] and [static_cast<Integer>(x)]. *)
Definition to_unsigned (T : Integer) (x : Z) : Z := x mod 2 ^ width T.
Definition to_signed (T : Integer) (x : Z) : Z :=
  (x + 2 ^ (width T - 1)) mod 2 ^ width T - 2 ^ (width T - 1).
Definition to_Integer (T : Integer) (x : Z) : Z :=
  if is_signed T then to_signed T x else to_unsigned T x.

(** [apply_sign] for a signed [Integer]: [return -val;].  A type narrower
    than [int] is promoted, negated in [int] and converted back; for [int]
    and wider the negation happens in the type itself and overflows at its
    most negative value. *)
Definition apply_sign_signed (T : Integer) (val : Z) : outcome Z :=
  if width T <? int_bits then Done (to_signed T (- val))
  else if val =? numeric_min T then Undefined
  else Done (- val).

(** [apply_sign] for an unsigned [Integer]: [return val;]. *)
Definition apply_sign_unsigned (T : Integer) (val : Z) : outcome Z := Done val.

Definition apply_sign (T : Integer) (val : Z) : outcome Z :=
  if is_signed T then apply_sign_signed T val else apply_sign_unsigned T val.

Record from_chars_result : Type := { ptr : Z; ec : errc }.

Section Parser.

(** Whether plain [char] is a signed type on the platform. *)
Variable char_is_signed : bool.

(** The character array the range points into, as raw bytes. *)
Variable text : list Z.

(** The [char] a raw byte is read as. *)
Definition char_of_byte (b : Z) : Z :=
  if char_is_signed && (128 <=? b) then b - 256 else b.

(** [*p] *)
Definition deref (p : Z) : outcome Z :=
  b <- of_option (array_at text p) ;; Done (char_of_byte b).

Variable T : Integer.
Variable base : Z.

Section Loop.

Variables overflow_value max_digit : Z.

(** The [while (next != last)] loop; [n] is [last - next], the number of
    characters left.  The state is [(next, result, overflowed)]. *)
Fixpoint parse_loop (n : nat) (next result : Z) (overflowed : bool)
  : outcome (Z * Z * bool) :=
  match n with
  | O => Done (next, result, overflowed)
  | S n' =>
      c <- deref next ;;
      current_digit <- of_option (digit_from_char c) ;;
      let next := next + 1 in
      if current_digit >=? base then Done (next, result, overflowed)
      else if (result <? overflow_value)
              || ((result =? overflow_value) && (current_digit <=? max_digit))
      then parse_loop n' next (to_unsigned T (result * base + current_digit)) overflowed
      else parse_loop n' next result true
  end.

End Loop.

(** Lines 70-85, [// Strip sign if the type is signed]: the result is
    [(is_negative, next)]. *)
Definition strip_sign (first last : Z) : outcome (bool * Z) :=
  if is_signed T then
    if negb (first =? last) then
      c <- deref first ;;
      if c =? ch "-" then Done (true, first + 1)
      else if c =? ch "+" then Done (false, first + 1)
      else Done (false, first)
    else Done (false, first)
  else Done (false, first).

(** Lines 87-103: [overflow_value] and [max_digit]. *)
Definition overflow_value (is_negative : bool) : Z :=
  let overflow_value :=
    if is_signed T then
      if is_negative then to_unsigned T (numeric_max T + 1) else numeric_max T
    else numeric_max T in
  overflow_value / to_unsigned T base.
Definition max_digit (is_negative : bool) : Z :=
  let max_digit :=
    if is_signed T then
      if is_negative then to_unsigned T (numeric_max T + 1) else numeric_max T
    else numeric_max T in
  max_digit mod base.

(** Lines 132-148: what is returned once the loop has ended. *)
Definition finish (is_negative : bool) (next result : Z) (overflowed : bool)
  : outcome (from_chars_result * option Z) :=
  if overflowed then Done ({| ptr := next; ec := ERANGE |}, None)
  else
    let value := to_Integer T result in
    value <- (if is_signed T && is_negative then apply_sign T value
              else Done value) ;;
    Done ({| ptr := next; ec := errc_ok |}, Some value).

(** [from_chars_impl(first, last, value, base)].  The second component is
    what is assigned to the out-parameter [value], [None] when it is left
    alone.  [BOOST_CHARCONV_ASSERT_MSG(base >= 2 && base <= 36)] is a
    precondition and appears as a hypothesis of the theorems. *)
Definition from_chars_impl (first last : Z)
  : outcome (from_chars_result * option Z) :=
  let result := 0 in
  if negb (first <=? last) then Done ({| ptr := first; ec := EINVAL |}, None)
  else
    '(is_negative, next) <- strip_sign first last ;;
    if next =? last then Done ({| ptr := first; ec := EINVAL |}, None)
    else
      '(next, result, overflowed) <-
        parse_loop (overflow_value is_negative) (max_digit is_negative)
                   (Z.to_nat (last - next)) next result false ;;
      finish is_negative next result overflowed.

End Parser.

(** The overloads of [boost::charconv::from_chars] (LP64 widths). *)
Definition char_t (char_is_signed : bool) : Integer :=
  {| width := 8; is_signed := char_is_signed |}.
Definition unsigned_char_t : Integer := {| width := 8; is_signed := false |}.
Definition short_t : Integer := {| width := 16; is_signed := true |}.
Definition unsigned_short_t : Integer := {| width := 16; is_signed := false |}.
Definition int_t : Integer := {| width := 32; is_signed := true |}.
Definition unsigned_int_t : Integer := {| width := 32; is_signed := false |}.
Definition long_t : Integer := {| width := 64; is_signed := true |}.
Definition unsigned_long_t : Integer := {| width := 64; is_signed := false |}.
Definition long_long_t : Integer := {| width := 64; is_signed := true |}.
Definition unsigned_long_long_t : Integer := {| width := 64; is_signed := false |}.


End FromChars.


(** * to_chars_float_impl.hpp *)

Module ToChars.

(** [boost::charconv::chars_format] *)
Inductive chars_format : Type := scientific | fixed | hex | general.

Definition chars_format_eqb (a b : chars_format) : bool :=
  match a, b with
  | scientific, scientific | fixed, fixed | hex, hex | general, general => true
  | _, _ => false
  end.

Record to_chars_result : Type := { ptr : Z; ec : errc }.

(** ** Memory

    The bytes a call finds are [init]; every store of the call is recorded
    in [log], newest first.  A load sees the newest store to its address. *)
Record mem : Type := { init : Z -> Z; log : list (Z * Z) }.

Definition store (m : mem) (a b : Z) : mem :=
  {| init := init m; log := (a, b) :: log m |}.

Fixpoint newest (a : Z) (l : list (Z * Z)) : option Z :=
  match l with
  | [] => None
  | (a', b) :: l' => if a' =? a then Some b else newest a l'
  end.

Definition load (m : mem) (a : Z) : Z :=
  match newest a (log m) with
  | Some b => b
  | None => init m a
  end.

(** The addresses the call has stored to. *)
Definition written (m : mem) : list Z := map fst (log m).

(** Store the bytes [bs] at [dst], [dst + 1], ... *)
Fixpoint store_bytes (m : mem) (dst : Z) (bs : list Z) : mem :=
  match bs with
  | [] => m
  | b :: bs' => store_bytes (store m dst b) (dst + 1) bs'
  end.

(** [std::memcpy(dst, literal, n)] *)
Definition memcpy (m : mem) (dst : Z) (literal : list Z) (n : Z) : mem :=
  store_bytes m dst (firstn (Z.to_nat n) literal).

(** [std::memset(dst, c, n)] *)
Definition memset (m : mem) (dst c n : Z) : mem :=
  store_bytes m dst (repeat c (Z.to_nat n)).

(** [std::memmove(dst, src, n)]: the source bytes are read before any byte
    is stored, so the ranges may overlap. *)
Definition memmove (m : mem) (dst src n : Z) : mem :=
  store_bytes m dst (map (fun i => load m (src + Z.of_nat i)) (seq 0 (Z.to_nat n))).

(** ** Loops *)

(** A [while] loop: [step] runs the test and the body and says whether the
    loop goes on. *)
Fixpoint while_loop {S : Type} (fuel : nat) (step : S -> outcome (S * bool)) (s : S)
  : outcome S :=
  match fuel with
  | O => OutOfFuel
  | Datatypes.S fuel' =>
      '(s', again) <- step s ;;
      if again then while_loop fuel' step s' else Done s'
  end.

(** ** Integer conversions *)

Definition to_uint (w x : Z) : Z := x mod 2 ^ w.
Definition to_sint (w x : Z) : Z := (x + 2 ^ (w - 1)) mod 2 ^ w - 2 ^ (w - 1).

(** An [int] computation: undefined when the result does not fit. *)
Definition int_ (x : Z) : outcome Z :=
  if (INT_MIN <=? x) && (x <=? INT_MAX) then Done x else Undefined.

(** [a[i]] for a [char] table. *)
Definition table_at (a : list Z) (i : Z) : outcome Z :=
  if (0 <=? i) && (i <? Z.of_nat (List.length a))
  then of_option (nth_error a (Z.to_nat i))
  else Undefined.

(** ** The floating-point types *)

(** The [Real] a template is instantiated with.  [long_double] is the
    80-bit extended type ([BOOST_CHARCONV_LDBL_BITS == 80]) and [float128]
    is [__float128] ([BOOST_CHARCONV_HAS_FLOAT128]). *)
Inductive Real_type : Type := float | double | long_double | float128.

Definition Real_type_eqb (a b : Real_type) : bool :=
  match a, b with
  | float, float | double, double | long_double, long_double
  | float128, float128 => true
  | _, _ => false
  end.

(** The values of [std::fpclassify]. *)
Inductive fp_class : Type := FP_NAN | FP_INFINITE | FP_ZERO | FP_SUBNORMAL | FP_NORMAL.

(** What the templates use of a floating-point type [Real]: its layout
    constants ([type_layout] of bit_layouts.hpp), its object representation
    and the [<cmath>] functions and operators applied to its values. *)
Class FloatingPoint (Real : Type) : Type := {
  real_type : Real_type;
  (** [type_layout::significand_bits] and [type_layout::exponent_bias] *)
  significand_bits : Z;
  exponent_bias : Z;
  (** the object representation [std::memcpy] copies out of a value *)
  object_bits : Real -> Z;
  signbit : Real -> bool;
  fpclassify : Real -> fp_class;
  issignaling : Real -> bool;
  (** [std::abs], [std::fmod], [/], [<], [>=], [==] *)
  Rabs : Real -> Real;
  Rfmod : Real -> Real -> Real;
  Rdiv : Real -> Real -> Real;
  Rlt : Real -> Real -> bool;
  Rge : Real -> Real -> bool;
  Req : Real -> Real -> bool;
  (** [static_cast<Real>(c)] of an arithmetic constant [c] *)
  Rconst : Q -> Real;
  (** [static_cast<std::uint64_t>(x)] *)
  to_uint64 : Real -> outcome Z
}.

(** [struct { significand; exponent; is_negative }], what [to_decimal]
    returns. *)
Record decimal_fp : Type := {
  significand : Z;
  exponent : Z;
  is_negative : bool
}.

(** The functions of other headers that this one calls.  Each formatting
    function gets the memory and returns it with the bytes it stored. *)
Class Collaborators (Real : Type) : Type := {
  (** buffer_sizing.hpp *)
  get_real_precision : Z -> Z;
  total_buffer_length : Z -> Z -> bool -> Z;
  (** integer_search_trees.hpp *)
  num_digits : Z -> Z;
  (** to_chars_integer_impl.hpp *)
  digit_table : list Z;
  to_chars_integer_impl : mem -> Z -> Z -> Z -> mem * to_chars_result;
  to_chars_int : mem -> Z -> Z -> Z -> mem * to_chars_result;
  (** dragonbox.hpp and floff.hpp *)
  to_decimal : Real -> decimal_fp;
  dragonbox_to_chars : mem -> Real -> Z -> Z -> chars_format -> mem * to_chars_result;
  floff : mem -> Real -> Z -> Z -> Z -> chars_format -> bool -> mem * to_chars_result
}.

(** ** to_chars_nonfinite *)

Section Nonfinite.

Context {Real : Type} `{FloatingPoint Real}.

(** [to_chars_nonfinite(first, last, value, classification)].  The generic
    template reads the sign with [std::signbit(value)], the [__float128]
    specialisation from the [sign] field of the bits; the two bodies are
    otherwise the same. *)
Definition to_chars_nonfinite (m : mem) (first last : Z) (value : Real)
    (classification : fp_class) : outcome (mem * to_chars_result) :=
  let buffer_size := last - first in
  match classification with
  | FP_NAN =>
      let is_signaling := issignaling value in
      let is_negative := signbit value in
      let '(m, first) :=
        if is_negative then (store m first (ch "-"), first + 1) else (m, first) in
      if is_signaling && (buffer_size >=? 9 + b2z is_negative) then
        let m := memcpy m first (chars "nan(snan)") 9 in
        let offset := 9 + b2z is_negative in
        Done (m, {| ptr := first + offset; ec := errc_ok |})
      else if is_negative && (buffer_size >=? 9) then
        let m := memcpy m first (chars "nan(ind)") 8 in
        let offset := 8 in
        Done (m, {| ptr := first + offset; ec := errc_ok |})
      else if negb is_negative && negb is_signaling && (buffer_size >=? 3) then
        let m := memcpy m first (chars "nan") 3 in
        let offset := 3 in
        Done (m, {| ptr := first + offset; ec := errc_ok |})
      else
        Done (m, {| ptr := first; ec := ERANGE |})
  | FP_INFINITE =>
      let sign_bit_value := signbit value in
      if sign_bit_value && (buffer_size >=? 4) then
        let m := memcpy m first (chars "-inf") 4 in
        Done (m, {| ptr := first + 4; ec := errc_ok |})
      else if negb sign_bit_value && (buffer_size >=? 3) then
        let m := memcpy m first (chars "inf") 3 in
        Done (m, {| ptr := first + 3; ec := errc_ok |})
      else
        Done (m, {| ptr := first; ec := ERANGE |})
  | _ => Undefined (* BOOST_UNREACHABLE_RETURN(first) *)
  end.

End Nonfinite.

(** ** to_chars_hex *)

(** [x << n] and [x >> n] on a [w]-bit unsigned integer: undefined for a
    shift count outside [0, w). *)
Definition shl (w x n : Z) : outcome Z :=
  if (0 <=? n) && (n <? w) then Done (to_uint w (Z.shiftl x n)) else Undefined.
Definition shr (w x n : Z) : outcome Z :=
  if (0 <=? n) && (n <? w) then Done (Z.shiftr x n) else Undefined.

(** [constexpr auto hex_precision] *)
Definition hex_precision (R : Real_type) : Z :=
  match R with
  | float => 6
  | double => 13
  | long_double => 15
  | float128 => 28
  end.

(** [CHAR_BIT / 2] *)
Definition nibble_bits : Z := 4.

Definition hex_bits (R : Real_type) : Z := hex_precision R * nibble_bits.

(** The width of [Unsigned_Integer]: [std::uint32_t], [std::uint64_t] or
    [uint128]. *)
Definition Unsigned_Integer_bits (R : Real_type) : Z :=
  match R with
  | float => 32
  | double => 64
  | _ => 128
  end.

(** [extract_exp]: a shift, and for the 80-bit [long double] the mask
    [uint128{0x7FFF, 0}] followed by [.high]. *)
Definition extract_exp (R : Real_type) (uint_value significand_bits : Z) : outcome Z :=
  match R with
  | long_double =>
      let exp_mask := 32767 * 2 ^ 64 in
      let exponent := Z.land uint_value exp_mask in
      Done (Z.shiftr exponent 64)
  | _ =>
      x <- shr (Unsigned_Integer_bits R) uint_value significand_bits ;;
      Done (to_uint 64 x)
  end.

(** The block under [// Round if required], for a [w]-bit
    [Unsigned_Integer]. *)
Definition round_significand (w lost_bits aligned_significand : Z) : outcome Z :=
  let lsb_bit := aligned_significand in
  round_bit <- shl w aligned_significand 1 ;;
  let tail_bit := to_uint w (round_bit - 1) in
  one <- shl w 1 lost_bits ;;
  let round := Z.land (Z.land round_bit (Z.lor tail_bit lsb_bit)) one in
  Done (to_uint w (aligned_significand + round)).

Section Hex.

Context {Real : Type} `{FloatingPoint Real} `{Collaborators Real}.

(** The significand as [to_chars_hex] aligns it, and the unbiased exponent
    before its bounds check: everything from [convert_value] to the end of
    [// Adjust the exponent based on the bias]. *)
Definition align_significand (value : Real) : outcome (Z * Z * Z) :=
  let R := real_type in
  let w := Unsigned_Integer_bits R in
  let uint_value := object_bits value in
  one <- shl w 1 significand_bits ;;
  let denorm_mask := to_uint w (one - 1) in
  let significand := Z.land uint_value denorm_mask in
  exponent <- extract_exp R uint_value significand_bits ;;
  let exponent :=
    match R with
    | float128 => to_uint 64 (exponent + 2)
    | _ => exponent
    end in
  aligned_significand <-
    (if Real_type_eqb R float then shl w significand 1 else Done significand) ;;
  if (exponent =? 0) && negb (significand =? 0) then
    Done (significand, aligned_significand, 1 + exponent_bias)
  else
    one <- shl w 1 (hex_bits R) ;;
    Done (significand, Z.lor aligned_significand one,
          to_sint 64 (exponent + exponent_bias)).

(** [// Bounds check the exponent] *)
Definition wrap_exponent (fuel : nat) (unbiased_exponent : Z) : outcome Z :=
  let reduce :=
    while_loop fuel
      (fun e => if e >? 16383 then Done (e - 32768, true) else Done (e, false))
      unbiased_exponent in
  match real_type with
  | float =>
      Done (if unbiased_exponent >? 127 then unbiased_exponent - 256
            else unbiased_exponent)
  | double =>
      Done (if unbiased_exponent >? 1023 then unbiased_exponent - 2048
            else unbiased_exponent)
  | long_double => e <- reduce ;; Done (e - 3)
  | float128 => reduce
  end.

(** One turn of the [while (true)] loop that prints the fractional part.
    The state is [(m, first, aligned_significand, real_precision,
    remaining_bits)]. *)
Definition hex_fraction_step (precision : Z) (s : mem * Z * Z * Z * Z)
  : outcome (mem * Z * Z * Z * Z * bool) :=
  let '(m, first, aligned_significand, real_precision, remaining_bits) := s in
  let w := Unsigned_Integer_bits real_type in
  let remaining_bits := remaining_bits - nibble_bits in
  x <- shr w aligned_significand remaining_bits ;;
  let current_nibble := to_uint 32 x in
  d <- table_at digit_table current_nibble ;;
  let m := store m first d in
  let first := first + 1 in
  let real_precision := real_precision - 1 in
  if real_precision =? 0 then
    Done (m, first, aligned_significand, real_precision, remaining_bits, false)
  else if remaining_bits =? 0 then
    if negb (precision =? -1) then
      let m := memset m first (ch "0") real_precision in
      Done (m, first + real_precision, aligned_significand, real_precision,
            remaining_bits, false)
    else
      Done (m, first, aligned_significand, real_precision, remaining_bits, false)
  else
    one <- shl w 1 remaining_bits ;;
    Done (m, first, Z.land aligned_significand (to_uint w (one - 1)),
          real_precision, remaining_bits, true).

(** [to_chars_hex(first, last, value, precision)] *)
Definition to_chars_hex (fuel : nat) (m : mem) (first last : Z) (value : Real)
    (precision : Z) : outcome (mem * to_chars_result) :=
  let R := real_type in
  let w := Unsigned_Integer_bits R in
  let buffer_size := last - first in
  let real_precision := get_real_precision precision in
  let real_precision := if negb (precision =? -1) then precision else real_precision in
  if (buffer_size <? real_precision) || (first >? last) then
    Done (m, {| ptr := last; ec := ERANGE |})
  else
    '(significand, aligned_significand, unbiased_exponent) <- align_significand value ;;
    one <- shl w 1 (hex_bits R) ;;
    let hex_mask := to_uint w (one - 1) in
    unbiased_exponent <- wrap_exponent fuel unbiased_exponent ;;
    let abs_unbiased_exponent :=
      if unbiased_exponent <? 0 then to_uint 32 (- unbiased_exponent)
      else to_uint 32 unbiased_exponent in
    let negative := Rlt value (Rconst 0) in
    let total_length := total_buffer_length real_precision abs_unbiased_exponent negative in
    if total_length >? buffer_size then
      Done (m, {| ptr := last; ec := ERANGE |})
    else
      aligned_significand <-
        (if real_precision <? hex_precision R then
           lost_bits <- int_ ((hex_precision R - real_precision) * nibble_bits) ;;
           round_significand w lost_bits aligned_significand
         else Done aligned_significand) ;;
      let '(m, first) :=
        if negative then (store m first (ch "-"), first + 1) else (m, first) in
      x <- (match R with
            | long_double => shr w significand (hex_bits R)
            | _ => shr w aligned_significand (hex_bits R)
            end) ;;
      let leading_nibble := to_uint 32 x in
      d <- table_at digit_table leading_nibble ;;
      let m := store m first d in
      let first := first + 1 in
      let aligned_significand := Z.land aligned_significand hex_mask in
      '(m, first) <-
        (if real_precision >? 0 then
           let m := store m first (ch ".") in
           let first := first + 1 in
           '(m, first, _, _, _) <-
             while_loop fuel (hex_fraction_step precision)
               (m, first, aligned_significand, real_precision, hex_bits R) ;;
           Done (m, first)
         else Done (m, first)) ;;
      first <-
        (if precision =? -1 then
           let first := first - 1 in
           first <- while_loop fuel
                      (fun first =>
                         if load m first =? ch "0" then Done (first - 1, true)
                         else Done (first, false))
                      first ;;
           Done (first + 1)
         else Done first) ;;
      let m := store m first (ch "p") in
      let first := first + 1 in
      let m :=
        if unbiased_exponent <? 0 then store m first (ch "-")
        else store m first (ch "+") in
      let first := first + 1 in
      Done (to_chars_int m first last abs_unbiased_exponent).

End Hex.

(** ** to_chars_fixed_impl *)

(** A [std::size_t] used as a byte count or added to a pointer: the value
    modulo 2^64, undefined beyond [PTRDIFF_MAX], the size of no object. *)
Definition size_ (x : Z) : outcome Z :=
  let n := to_uint size_t_bits x in
  if n <? 2 ^ (size_t_bits - 1) then Done n else Undefined.

Section Fixed.

Context {Real : Type} `{FloatingPoint Real} `{Collaborators Real}.

(** [while (num_dig > precision + 2)]; the state is
    [(significand, exponent, num_dig)]. *)
Definition drop_digit_step (limit : Z) (s : Z * Z * Z) : outcome (Z * Z * Z * bool) :=
  let '(significand, exponent, num_dig) := s in
  if num_dig >? limit then
    exponent <- int_ (exponent + 1) ;;
    num_dig <- int_ (num_dig - 1) ;;
    Done (significand / 10, exponent, num_dig, true)
  else Done (significand, exponent, num_dig, false).

(** [while (value_struct.significand % 10 == 0)], same state. *)
Definition strip_zero_step (s : Z * Z * Z) : outcome (Z * Z * Z * bool) :=
  let '(significand, exponent, num_dig) := s in
  if significand mod 10 =? 0 then
    exponent <- int_ (exponent + 1) ;;
    num_dig <- int_ (num_dig - 1) ;;
    Done (significand / 10, exponent, num_dig, true)
  else Done (significand, exponent, num_dig, false).

(** The block under [if (precision != -1)]: the digits beyond the
    precision are dropped, the last one rounds, and [general] strips the
    trailing zeros. *)
Definition round_to_precision (fuel : nat) (value_struct : decimal_fp)
    (fmt : chars_format) (precision : Z) : outcome (Z * Z * Z) :=
  let num_dig := num_digits (significand value_struct) in
  limit <- int_ (precision + 2) ;;
  '(significand, exponent, num_dig) <-
    while_loop fuel (drop_digit_step limit)
      (significand value_struct, exponent value_struct, num_dig) ;;
  '(significand, exponent, num_dig) <-
    (if num_dig =? limit then
       let trailing_dig := significand mod 10 in
       let significand := significand / 10 in
       exponent <- int_ (exponent + 1) ;;
       num_dig <- int_ (num_dig - 1) ;;
       Done (if trailing_dig >=? 5 then significand + 1 else significand,
             exponent, num_dig)
     else Done (significand, exponent, num_dig)) ;;
  if chars_format_eqb fmt general then
    while_loop fuel strip_zero_step (significand, exponent, num_dig)
  else Done (significand, exponent, num_dig).

(** [while (std::fmod(abs_value, 10) == 0)]; the state is
    [(m, r.ptr, abs_value)]. *)
Definition append_zero_step (s : mem * Z * Real) : outcome (mem * Z * Real * bool) :=
  let '(m, r_ptr, abs_value) := s in
  if Req (Rfmod abs_value (Rconst 10)) (Rconst 0) then
    Done (store m r_ptr (ch "0"), r_ptr + 1, Rdiv abs_value (Rconst 10), true)
  else Done (m, r_ptr, abs_value, false).

(** [while (num_dig < -value_struct.exponent)]; the state is
    [(m, first, num_dig, r.ptr)]. *)
Definition leading_zero_step (exponent : Z) (s : mem * Z * Z * Z)
  : outcome (mem * Z * Z * Z * bool) :=
  let '(m, first, num_dig, r_ptr) := s in
  if num_dig <? - exponent then
    num_dig <- int_ (num_dig + 1) ;;
    Done (store m first (ch "0"), first + 1, num_dig, r_ptr + 1, true)
  else Done (m, first, num_dig, r_ptr, false).

(** [to_chars_fixed_impl(first, last, value, fmt, precision)] *)
Definition to_chars_fixed_impl (fuel : nat) (m : mem) (first last : Z) (value : Real)
    (fmt : chars_format) (precision : Z) : outcome (mem * to_chars_result) :=
  let buffer_size := last - first in
  let real_precision := get_real_precision precision in
  if (buffer_size <? real_precision) || (first >? last) then
    Done (m, {| ptr := last; ec := ERANGE |})
  else
    let abs_value := Rabs value in
    let value_struct := to_decimal value in
    let negative := is_negative value_struct in
    let '(m, first) :=
      if negative then (store m first (ch "-"), first + 1) else (m, first) in
    '(significand, exponent, num_dig) <-
      (if negb (precision =? -1)
       then round_to_precision fuel value_struct fmt precision
       else Done (significand value_struct, exponent value_struct, 0)) ;;
    let total_length :=
      total_buffer_length num_dig exponent (Rlt value (Rconst 0)) in
    if total_length >? buffer_size then
      Done (m, {| ptr := last; ec := ERANGE |})
    else
      let '(m, r) := to_chars_integer_impl m first last significand in
      match ec r with
      | errc_ok =>
          let r_ptr := ptr r in
          if Rge abs_value (Rconst 1) then
            '(m, r_ptr) <-
              (if (exponent <? 0) && (- exponent <? buffer_size) then
                 n <- size_ (- exponent) ;;
                 let m := memmove m (r_ptr + exponent + 1) (r_ptr + exponent) n in
                 let m := memset m (r_ptr + exponent) (ch ".") 1 in
                 Done (m, r_ptr + 1)
               else Done (m, r_ptr)) ;;
            '(m, r_ptr, _) <- while_loop fuel append_zero_step (m, r_ptr, abs_value) ;;
            Done (m, {| ptr := r_ptr; ec := errc_ok |})
          else
            offset_bytes <- size_ (- exponent - num_dig) ;;
            n <- size_ (to_uint size_t_bits (- exponent) - offset_bytes) ;;
            let m := memmove m (first + 2 + b2z negative + offset_bytes)
                             (first + b2z negative) n in
            let m := memcpy m (first + b2z negative) (chars "0.") 2 in
            let first := first + 2 in
            let r_ptr := r_ptr + 2 in
            '(m, _, _, r_ptr) <-
              while_loop fuel (leading_zero_step exponent) (m, first, num_dig, r_ptr) ;;
            Done (m, {| ptr := r_ptr; ec := errc_ok |})
      | _ => Done (m, r)
      end.

End Fixed.

(** ** to_chars_float_impl *)

Section Dispatcher.

Context {Real : Type} `{FloatingPoint Real} `{Collaborators Real}.

(** [constexpr auto max_fractional_value], [min_fractional_value] and
    [max_value]; [Unsigned_Integer] is [std::uint64_t] for [double] and
    [std::uint32_t] otherwise. *)
Definition max_fractional_value : Real :=
  if Real_type_eqb real_type double
  then Rconst (inject_Z (10 ^ 16)) else Rconst (inject_Z (10 ^ 7)).
Definition min_fractional_value : Real := Rconst (1 # 10000).
Definition max_value : Real :=
  if Real_type_eqb real_type double
  then Rconst (inject_Z (2 ^ 64 - 1)) else Rconst (inject_Z (2 ^ 32 - 1)).

(** Lines 640-661: whether [general] is turned into [fixed], and the
    precision [floff] is called with.  The result is
    [(fmt, changed_fmt, floff_precision)]. *)
Definition floff_arguments (abs_value : Real) (fmt : chars_format) (precision : Z)
  : outcome (chars_format * bool * Z) :=
  let changed_fmt := false in
  let '(fmt, changed_fmt) :=
    if chars_format_eqb fmt general && Rge abs_value min_fractional_value
       && Rlt abs_value max_fractional_value
    then (fixed, true) else (fmt, changed_fmt) in
  floff_precision <-
    (if chars_format_eqb fmt scientific || chars_format_eqb fmt general then
       int_ (precision - b2z (Rlt abs_value (Rconst 1)))
     else
       x <- int_ (precision - b2z (Rlt abs_value (Rconst 1))) ;;
       int_ (x + b2z changed_fmt)) ;;
  let floff_precision := if floff_precision <=? 0 then 0 else floff_precision in
  Done (fmt, changed_fmt, floff_precision).

(** From [const int classification = std::fpclassify(value)] to the end:
    the non-finite values, the hexadecimal zero, and [to_chars_hex]. *)
Definition classify_and_hex (fuel : nat) (m : mem) (first last : Z) (value : Real)
    (precision : Z) : outcome (mem * to_chars_result) :=
  let classification := fpclassify value in
  match classification with
  | FP_INFINITE | FP_NAN => Done (dragonbox_to_chars m value first last general)
  | FP_ZERO =>
      let '(m, first) :=
        if signbit value then (store m first (ch "-"), first + 1) else (m, first) in
      let m := memcpy m first (chars "0p+0") 4 in
      Done (m, {| ptr := first + 4; ec := errc_ok |})
  | _ => to_chars_hex fuel m first last value precision
  end.

(** [to_chars_float_impl(first, last, value, fmt, precision)] *)
Definition to_chars_float_impl (fuel : nat) (m : mem) (first last : Z) (value : Real)
    (fmt : chars_format) (precision : Z) : outcome (mem * to_chars_result) :=
  if first >=? last then Done (m, {| ptr := last; ec := ERANGE |})
  else
    let abs_value := Rabs value in
    if precision =? -1 then
      if chars_format_eqb fmt general || chars_format_eqb fmt fixed then
        if Rge abs_value (Rconst 1) && Rlt abs_value max_fractional_value then
          to_chars_fixed_impl fuel m first last value fmt precision
        else if Rge abs_value max_fractional_value && Rlt abs_value max_value then
          let '(m, first) :=
            if Rlt value (Rconst 0) then (store m first (ch "-"), first + 1)
            else (m, first) in
          n <- to_uint64 abs_value ;;
          Done (to_chars_integer_impl m first last n)
        else
          Done (dragonbox_to_chars m value first last fmt)
      else if chars_format_eqb fmt scientific then
        Done (dragonbox_to_chars m value first last fmt)
      else classify_and_hex fuel m first last value precision
    else
      if negb (chars_format_eqb fmt hex) then
        '(fmt, changed_fmt, floff_precision) <- floff_arguments abs_value fmt precision ;;
        Done (floff m value floff_precision first last fmt changed_fmt)
      else classify_and_hex fuel m first last value precision.

End Dispatcher.

End ToChars.

(** * IEEE 754 binary interchange formats

    The instances of [FloatingPoint] for [float] (binary32) and [double]
    (binary64): a value is its bit pattern, and the operations are the
    exact ones of IEEE 754 with round-to-nearest, ties-to-even. *)

Module IEEE.

Import ToChars.

(** [2 ^ k] for any integer [k]. *)
Definition pow2 (k : Z) : Q :=
  if 0 <=? k then inject_Z (2 ^ k) else 1 # Z.to_pos (2 ^ (- k)).

(** What a bit pattern denotes; [Fin neg q] is [(-1)^neg * q], [0 <= q]. *)
Inductive datum : Type :=
| NaN
| Inf (neg : bool)
| Fin (neg : bool) (q : Q).

(** The nearest integer to [q >= 0], ties to even. *)
Definition round_half_even (q : Q) : Z :=
  let n := Qnum q in
  let d := Z.pos (Qden q) in
  let fl := n / d in
  let r := n mod d in
  if 2 * r >? d then fl + 1
  else if 2 * r =? d then (if Z.odd fl then fl + 1 else fl)
  else fl.

Section Format.

(** The widths of the exponent and fraction fields. *)
Variables ebits fbits : Z.

Definition bias : Z := 2 ^ (ebits - 1) - 1.
Definition sign_field (b : Z) : bool := Z.testbit b (ebits + fbits).
Definition exponent_field (b : Z) : Z := (b / 2 ^ fbits) mod 2 ^ ebits.
Definition fraction_field (b : Z) : Z := b mod 2 ^ fbits.

Definition decode (b : Z) : datum :=
  let e := exponent_field b in
  let f := fraction_field b in
  let s := sign_field b in
  if e =? 2 ^ ebits - 1 then (if f =? 0 then Inf s else NaN)
  else if e =? 0 then Fin s (inject_Z f * pow2 (1 - bias - fbits))
  else Fin s (inject_Z (2 ^ fbits + f) * pow2 (e - bias - fbits)).

Definition sign_bit (neg : bool) : Z := if neg then 2 ^ (ebits + fbits) else 0.
Definition infinity (neg : bool) : Z := sign_bit neg + (2 ^ ebits - 1) * 2 ^ fbits.
Definition quiet_nan : Z := (2 ^ ebits - 1) * 2 ^ fbits + 2 ^ (fbits - 1).

(** The exponent [e] with [2 ^ e <= q < 2 ^ (e + 1)], for [0 < q]. *)
Definition binade (q : Q) : Z :=
  let e := Z.log2 (Qnum q) - Z.log2 (Z.pos (Qden q)) in
  if Qle_bool (pow2 e) q then e else e - 1.

(** The bit pattern of the value nearest to [(-1)^neg * q], [0 <= q]. *)
Definition encode (neg : bool) (q : Q) : Z :=
  if Qnum q <=? 0 then sign_bit neg
  else
    let e := Z.max (binade q) (1 - bias) in
    let mant := round_half_even (q / pow2 (e - fbits)) in
    let magnitude := (e + bias - 1) * 2 ^ fbits + mant in
    if magnitude >=? (2 ^ ebits - 1) * 2 ^ fbits then infinity neg
    else sign_bit neg + magnitude.

(** The signed rational of a finite value. *)
Definition signed (neg : bool) (q : Q) : Q := if neg then Qopp q else q.

Definition lt (a b : Z) : bool :=
  match decode a, decode b with
  | NaN, _ | _, NaN => false
  | Inf na, Inf nb => na && negb nb
  | Inf na, Fin _ _ => na
  | Fin _ _, Inf nb => negb nb
  | Fin na qa, Fin nb qb =>
      Qle_bool (signed na qa) (signed nb qb)
      && negb (Qeq_bool (signed na qa) (signed nb qb))
  end.

Definition eq (a b : Z) : bool :=
  match decode a, decode b with
  | NaN, _ | _, NaN => false
  | Inf na, Inf nb => Bool.eqb na nb
  | Inf _, Fin _ _ | Fin _ _, Inf _ => false
  | Fin na qa, Fin nb qb => Qeq_bool (signed na qa) (signed nb qb)
  end.

Definition ge (a b : Z) : bool := lt b a || eq a b.

Definition abs (a : Z) : Z := a mod 2 ^ (ebits + fbits).

(** [std::fmod(a, b)]: [a - trunc(a / b) * b], exact, with the sign of [a]. *)
Definition fmod (a b : Z) : Z :=
  match decode a, decode b with
  | NaN, _ | _, NaN | Inf _, _ => quiet_nan
  | Fin _ _, Inf _ => a
  | Fin na qa, Fin _ qb =>
      if Qeq_bool qb 0 then quiet_nan
      else encode na (qa - inject_Z (Qfloor (qa / qb)) * qb)
  end.

Definition div (a b : Z) : Z :=
  match decode a, decode b with
  | NaN, _ | _, NaN => quiet_nan
  | Inf _, Inf _ => quiet_nan
  | Inf na, Fin nb _ => infinity (xorb na nb)
  | Fin na _, Inf nb => sign_bit (xorb na nb)
  | Fin na qa, Fin nb qb =>
      if Qeq_bool qb 0 then
        (if Qeq_bool qa 0 then quiet_nan else infinity (xorb na nb))
      else encode (xorb na nb) (qa / qb)
  end.

Definition const (q : Q) : Z :=
  if Qle_bool 0 q then encode false q else encode true (Qopp q).

Definition classify (a : Z) : fp_class :=
  let e := exponent_field a in
  let f := fraction_field a in
  if e =? 2 ^ ebits - 1 then (if f =? 0 then FP_INFINITE else FP_NAN)
  else if e =? 0 then (if f =? 0 then FP_ZERO else FP_SUBNORMAL)
  else FP_NORMAL.

(** A NaN whose leading fraction bit is clear. *)
Definition signaling (a : Z) : bool :=
  match classify a with
  | FP_NAN => negb (Z.testbit a (fbits - 1))
  | _ => false
  end.

(** [static_cast<std::uint64_t>(a)]: truncation, undefined when the
    truncated value is not a [std::uint64_t]. *)
Definition truncate_uint64 (a : Z) : outcome Z :=
  match decode a with
  | Fin neg q =>
      let t := Qfloor q in
      if neg && (0 <? t) then Undefined
      else if t <? 2 ^ 64 then Done t else Undefined
  | _ => Undefined
  end.

End Format.

Record float32 : Type := { bits32 : Z }.
Record float64 : Type := { bits64 : Z }.

#[export] Instance float_FloatingPoint : FloatingPoint float32 := {|
  real_type := float;
  significand_bits := 23;
  exponent_bias := -127;
  object_bits := bits32;
  signbit := fun a => sign_field 8 23 (bits32 a);
  fpclassify := fun a => classify 8 23 (bits32 a);
  issignaling := fun a => signaling 8 23 (bits32 a);
  Rabs := fun a => {| bits32 := abs 8 23 (bits32 a) |};
  Rfmod := fun a b => {| bits32 := fmod 8 23 (bits32 a) (bits32 b) |};
  Rdiv := fun a b => {| bits32 := div 8 23 (bits32 a) (bits32 b) |};
  Rlt := fun a b => lt 8 23 (bits32 a) (bits32 b);
  Rge := fun a b => ge 8 23 (bits32 a) (bits32 b);
  Req := fun a b => eq 8 23 (bits32 a) (bits32 b);
  Rconst := fun q => {| bits32 := const 8 23 q |};
  to_uint64 := fun a => truncate_uint64 8 23 (bits32 a)
|}.

#[export] Instance double_FloatingPoint : FloatingPoint float64 := {|
  real_type := double;
  significand_bits := 52;
  exponent_bias := -1023;
  object_bits := bits64;
  signbit := fun a => sign_field 11 52 (bits64 a);
  fpclassify := fun a => classify 11 52 (bits64 a);
  issignaling := fun a => signaling 11 52 (bits64 a);
  Rabs := fun a => {| bits64 := abs 11 52 (bits64 a) |};
  Rfmod := fun a b => {| bits64 := fmod 11 52 (bits64 a) (bits64 b) |};
  Rdiv := fun a b => {| bits64 := div 11 52 (bits64 a) (bits64 b) |};
  Rlt := fun a b => lt 11 52 (bits64 a) (bits64 b);
  Rge := fun a b => ge 11 52 (bits64 a) (bits64 b);
  Req := fun a b => eq 11 52 (bits64 a) (bits64 b);
  Rconst := fun q => {| bits64 := const 11 52 q |};
  to_uint64 := fun a => truncate_uint64 11 52 (bits64 a)
|}.

End IEEE.


(** * Stand-ins for the absent headers

    [Collaborators] for [double], used only to run the embedding on
    concrete inputs: decimal digit counting and printing, a buffer length
    of sign, leading digit, point, precision, exponent mark and exponent
    digits, and digit generators that store nothing. *)

Module Sample.

Import ToChars IEEE.

Fixpoint digits_of (fuel : nat) (n : Z) (acc : list Z) : list Z :=
  match fuel with
  | O => acc
  | S fuel' =>
      let acc := (ch "0" + n mod 10) :: acc in
      if n <? 10 then acc else digits_of fuel' (n / 10) acc
  end.

Definition decimal (n : Z) : list Z := digits_of 40 n [].

Definition count_digits (n : Z) : Z := Z.of_nat (List.length (decimal n)).

Definition print_integer (m : mem) (first last n : Z) : mem * to_chars_result :=
  let ds := decimal n in
  let len := Z.of_nat (List.length ds) in
  if last - first <? len then (m, {| ptr := last; ec := ERANGE |})
  else (store_bytes m first ds, {| ptr := first + len; ec := errc_ok |}).

Fixpoint strip_zeros (fuel : nat) (n e : Z) : Z * Z :=
  match fuel with
  | O => (n, e)
  | S fuel' =>
      if (n =? 0) || negb (n mod 10 =? 0) then (n, e)
      else strip_zeros fuel' (n / 10) (e + 1)
  end.

(** Zero is [0 * 10^0]; any other finite value is cut after its
    seventeenth decimal and loses its trailing zeros. *)
Definition decompose (v : float64) : decimal_fp :=
  match decode 11 52 (bits64 v) with
  | Fin neg q =>
      let '(n, e) := strip_zeros 400 (Qfloor (q * inject_Z (10 ^ 17))) (-17) in
      if n =? 0 then {| significand := 0; exponent := 0; is_negative := neg |}
      else {| significand := n; exponent := e; is_negative := neg |}
  | _ =>
      {| significand := 0; exponent := 0;
         is_negative := sign_field 11 52 (bits64 v) |}
  end.

Definition no_digits (m : mem) (last : Z) : mem * to_chars_result :=
  (m, {| ptr := last; ec := ERANGE |}).

#[export] Instance double_Collaborators : Collaborators float64 := {|
  get_real_precision := fun precision => if precision =? -1 then 17 else precision;
  total_buffer_length := fun real_precision exp signed_value =>
    b2z signed_value + 1 + real_precision + 2 + count_digits (Z.abs exp);
  num_digits := count_digits;
  digit_table := chars "0123456789abcdefghijklmnopqrstuvwxyz";
  to_chars_integer_impl := print_integer;
  to_chars_int := print_integer;
  to_decimal := decompose;
  dragonbox_to_chars := fun m _ _ last _ => no_digits m last;
  floff := fun m _ _ _ last _ _ => no_digits m last
|}.

(** An empty memory: every byte is zero and nothing has been stored. *)
Definition blank : mem := {| init := fun _ => 0; log := [] |}.

(** The bytes at [first], [first + 1], ..., [first + n - 1]. *)
Definition bytes (m : mem) (first : Z) (n : nat) : list Z :=
  map (fun i => load m (first + Z.of_nat i)) (seq 0 n).

(** What a call on a buffer at address 0 returned: the bytes before the
    end it gave, and its error code. *)
Definition output (r : outcome (mem * to_chars_result)) : outcome (list Z * errc) :=
  '(m, r) <- r ;; Done (bytes m 0 (Z.to_nat (ptr r)), ec r).

End Sample.


(** * Statements of the specification *)

Module Claims.

Import FromChars.

(** [from_chars] on exactly the characters of [s]: [first = 0] and
    [last = length s]. *)
Definition parse (char_is_signed : bool) (T : Integer) (s : list Z) (base : Z)
  : outcome (from_chars_result * option Z) :=
  from_chars_impl char_is_signed s T base 0 (Z.of_nat (List.length s)).

(** The value the comment of [digit_from_char] promises for a character
    code in [0, 256): 0-9, A-Z and a-z give 0-35, anything else 255. *)
Definition digit_value (c : Z) : Z :=
  if (ch "0" <=? c) && (c <=? ch "9") then c - ch "0"
  else if (ch "A" <=? c) && (c <=? ch "Z") then c - ch "A" + 10
  else if (ch "a" <=? c) && (c <=? ch "z") then c - ch "a" + 10
  else 255.

(** The digit value of the raw byte [b], when the lookup is defined. *)
Definition digit_of (char_is_signed : bool) (b : Z) : option Z :=
  digit_from_char (char_of_byte char_is_signed b).

(** [b] is a digit of [base]; [b] is a character the table maps to a
    value that is not a digit of [base]. *)
Definition is_digit (char_is_signed : bool) (base b : Z) : bool :=
  match digit_of char_is_signed b with
  | Some d => d <? base
  | None => false
  end.
Definition not_digit (char_is_signed : bool) (base b : Z) : bool :=
  match digit_of char_is_signed b with
  | Some d => base <=? d
  | None => false
  end.

(** The text of [n >= 0] in [base], with lower-case letters. *)
Definition digit_char (d : Z) : Z := if d <? 10 then ch "0" + d else ch "a" + (d - 10).
Fixpoint to_text_aux (fuel : nat) (base n : Z) (acc : list Z) : list Z :=
  match fuel with
  | O => acc
  | S fuel' =>
      let acc := digit_char (n mod base) :: acc in
      if n <? base then acc else to_text_aux fuel' base (n / base) acc
  end.
Definition to_text (base n : Z) : list Z := to_text_aux 130 base n [].

(** An optional sign in front of the digits: none, or for a signed type
    one minus or plus character. *)
Definition sign_prefix (T : Integer) (sg : list Z) : Prop :=
  sg = [] \/ (is_signed T = true /\ (sg = [ch "-"] \/ sg = [ch "+"])).

(** The ten overloads and the bases of the contract. *)
Definition integer_types : list Integer :=
  [char_t true; char_t false; unsigned_char_t; short_t; unsigned_short_t; int_t;
   unsigned_int_t; long_t; unsigned_long_t; long_long_t; unsigned_long_long_t].
Definition bases : list Z := map Z.of_nat (seq 2 35).

(** The parser returned [ok], the end [p] and the value [v]; it returned
    [range-error] with the end [p] and left the value alone. *)
Definition returns_value (r : outcome (from_chars_result * option Z)) (p v : Z) : bool :=
  match r with
  | Done ({| ptr := p'; ec := errc_ok |}, Some v') => (p' =? p) && (v' =? v)
  | _ => false
  end.
Definition returns_range_error (r : outcome (from_chars_result * option Z)) (p : Z) : bool :=
  match r with
  | Done ({| ptr := p'; ec := ERANGE |}, None) => p' =? p
  | _ => false
  end.

(** The precision the specification says the dispatcher hands to the
    explicit-precision generator: one less when [|value| < 1] and the
    notation is scientific or general, unchanged for a requested fixed
    notation, one more when general was turned into fixed, and at least 0. *)
Definition specified_floff_precision {Real : Type} `{ToChars.FloatingPoint Real}
    (value : Real) (fmt : ToChars.chars_format) (precision : Z) : Z :=
  let abs_value := ToChars.Rabs value in
  let below_one := ToChars.Rlt abs_value (ToChars.Rconst 1) in
  let override :=
    ToChars.chars_format_eqb fmt ToChars.general
    && ToChars.Rge abs_value ToChars.min_fractional_value
    && ToChars.Rlt abs_value ToChars.max_fractional_value in
  let leading :=
    match fmt with
    | ToChars.scientific | ToChars.general => b2z below_one
    | _ => 0
    end in
  Z.max 0 (precision - leading + b2z override).

(** Round to nearest, ties to even, of [s / 2 ^ lost_bits]: whether one
    unit is added to the retained part [s / 2 ^ lost_bits]. *)
Definition rounds_up (s lost_bits : Z) : bool :=
  let unit := 2 ^ lost_bits in
  let discarded := s mod unit in
  (unit / 2 <? discarded) || ((discarded =? unit / 2) && Z.odd (s / unit)).

End Claims.

(** * Properties of the parser: what a text denotes *)

Module ParserSpec.

Import FromChars Claims.

(** The digit value of a byte, 0 where the table gives none. *)
Definition digit_or_zero (char_is_signed : bool) (b : Z) : Z :=
  match digit_of char_is_signed b with
  | Some d => d
  | None => 0
  end.

(** The number a string of digits denotes in [base], most significant
    digit first, starting from [r]. *)
Definition positional (base : Z) (digits : list Z) (r : Z) : Z :=
  fold_left (fun acc d => acc * base + d) digits r.
Definition number (char_is_signed : bool) (base : Z) (ds : list Z) : Z :=
  positional base (map (digit_or_zero char_is_signed) ds) 0.

(** The largest magnitude the type holds on the side of the sign. *)
Definition magnitude_limit (T : Integer) (is_negative : bool) : Z :=
  if is_signed T then
    if is_negative then 2 ^ (width T - 1) else 2 ^ (width T - 1) - 1
  else 2 ^ width T - 1.

(** One turn of the loop on a digit [d]: the state is
    [(result, overflowed)]. *)
Definition accumulate (T : Integer) (base ov md : Z) (st : Z * bool) (d : Z) : Z * bool :=
  let '(r, o) := st in
  if (r <? ov) || ((r =? ov) && (d <=? md))
  then (to_unsigned T (r * base + d), o)
  else (r, true).

(** What follows the digits: nothing, or a character that is not a digit;
    the loop reads that character too. *)
Definition stops (char_is_signed : bool) (base : Z) (tail : list Z) : Prop :=
  match tail with
  | [] => True
  | x :: _ => not_digit char_is_signed base x = true
  end.
Definition consumed (tail : list Z) : Z :=
  match tail with
  | [] => 0
  | _ :: _ => 1
  end.

(** The upper-case form of a byte. *)
Definition to_upper (b : Z) : Z :=
  if (ch "a" <=? b) && (b <=? ch "z") then b - 32 else b.

(** The text of an integer in [base]: a minus sign for a negative one,
    then the digits of the magnitude. *)
Definition text_of (base n : Z) : list Z :=
  if n <? 0 then ch "-" :: to_text base (- n) else to_text base n.

End ParserSpec.

(** * Properties of the renderers: what is stored where *)

Module RendererSpec.

Import ToChars.

(** The literal of a non-finite value. *)
Definition nonfinite_literal (classification : fp_class) (negative signaling : bool)
  : list Z :=
  match classification with
  | FP_INFINITE => if negative then chars "-inf" else chars "inf"
  | _ =>
      if signaling then (if negative then chars "-nan(snan)" else chars "nan(snan)")
      else if negative then chars "-nan(ind)" else chars "nan"
  end.

(** The addresses [a], [a + 1], ..., [a + n - 1]. *)
Definition addresses (a : Z) (n : nat) : list Z :=
  map (fun i => a + Z.of_nat i) (seq 0 n).

(** The stores of [m'] that [m] does not have yet are exactly those to
    the addresses [new], the last store first. *)
Definition stored (m m' : mem) (new : list Z) : Prop :=
  written m' = new ++ written m.

(** [s / 10 ^ k] rounded to the nearest integer, a half upwards. *)
Definition round_half_up (s k : Z) : Z := (s + 5 * 10 ^ (k - 1)) / 10 ^ k.

(** The character of the digit [i] in a digit table. *)
Definition hex_digit (table : list Z) (i : Z) : Z := nth (Z.to_nat i) table 0.

(** The first [count] hexadecimal digits of the fraction [a / 16 ^ n],
    where [a < 16 ^ n]; beyond the [n]-th digit they are zeros. *)
Definition fraction_text (table : list Z) (n a : Z) (count : nat) : list Z :=
  map (fun i =>
         if Z.of_nat i <? n
         then hex_digit table (a / 16 ^ (n - 1 - Z.of_nat i) mod 16)
         else ch "0")
      (seq 0 count).

(** The layout of the text: the sign of a negative value, the leading
    digit, the point and the digits behind it when a precision above zero
    asks for them, then [p] and the sign of the exponent [e]. *)
Definition hex_layout (negative : bool) (lead : Z) (precision : Z)
    (fraction : list Z) (e : Z) : list Z :=
  (if negative then [ch "-"] else [])
  ++ [lead]
  ++ (if precision >? 0 then ch "." :: fraction else [])
  ++ [ch "p"; if e <? 0 then ch "-" else ch "+"].

(** The text of the significand [r / 16 ^ n] with [precision] digits
    behind the point, up to the sign of the exponent [e]. *)
Definition hex_text (table : list Z) (n : Z) (negative : bool) (r precision e : Z)
  : list Z :=
  (if negative then [ch "-"] else [])
  ++ [hex_digit table (r / 16 ^ n)]
  ++ (if precision >? 0
      then ch "." :: fraction_text table n (r mod 16 ^ n) (Z.to_nat precision)
      else [])
  ++ [ch "p"; if e <? 0 then ch "-" else ch "+"].

(** A list without its leading, and without its trailing, elements equal
    to [c]. *)
Fixpoint drop_leading (c : Z) (l : list Z) : list Z :=
  match l with
  | [] => []
  | x :: l' => if x =? c then drop_leading c l' else l
  end.
Definition strip_trailing (c : Z) (l : list Z) : list Z :=
  rev (drop_leading c (rev l)).

End RendererSpec.

(** * The 80-bit extended format

    The [long double] of x87: bit 79 is the sign, bits 64 to 78 the
    exponent, bits 0 to 63 the significand with its integer bit explicit.
    The object is copied into a 128-bit integer whose upper bits are
    padding, here zero. *)

Module Extended.

Import ToChars IEEE Sample.

Record float80 : Type := { bits80 : Z }.

Definition sign80 (b : Z) : bool := Z.testbit b 79.
Definition exponent80 (b : Z) : Z := (b / 2 ^ 64) mod 2 ^ 15.
Definition significand80 (b : Z) : Z := b mod 2 ^ 64.

Definition decode80 (b : Z) : datum :=
  let e := exponent80 b in
  let f := significand80 b in
  let s := sign80 b in
  if e =? 32767 then (if f mod 2 ^ 63 =? 0 then Inf s else NaN)
  else Fin s (inject_Z f * pow2 (Z.max e 1 - 16383 - 63)).

Definition sign_bit80 (neg : bool) : Z := if neg then 2 ^ 79 else 0.
Definition infinity80 (neg : bool) : Z := sign_bit80 neg + 32767 * 2 ^ 64 + 2 ^ 63.
Definition quiet_nan80 : Z := 32767 * 2 ^ 64 + 2 ^ 63 + 2 ^ 62.

(** The bit pattern of the value nearest to [(-1)^neg * q], [0 <= q]. *)
Definition encode80 (neg : bool) (q : Q) : Z :=
  if Qnum q <=? 0 then sign_bit80 neg
  else
    let e := Z.max (binade q) (-16382) in
    let mant := round_half_even (q / pow2 (e - 63)) in
    let '(e, mant) := if mant =? 2 ^ 64 then (e + 1, 2 ^ 63) else (e, mant) in
    let biased := if mant <? 2 ^ 63 then 0 else e + 16383 in
    if biased >=? 32767 then infinity80 neg
    else sign_bit80 neg + biased * 2 ^ 64 + mant.

Definition lt_datum (a b : datum) : bool :=
  match a, b with
  | NaN, _ | _, NaN => false
  | Inf na, Inf nb => na && negb nb
  | Inf na, Fin _ _ => na
  | Fin _ _, Inf nb => negb nb
  | Fin na qa, Fin nb qb =>
      Qle_bool (signed na qa) (signed nb qb)
      && negb (Qeq_bool (signed na qa) (signed nb qb))
  end.

Definition eq_datum (a b : datum) : bool :=
  match a, b with
  | NaN, _ | _, NaN => false
  | Inf na, Inf nb => Bool.eqb na nb
  | Inf _, Fin _ _ | Fin _ _, Inf _ => false
  | Fin na qa, Fin nb qb => Qeq_bool (signed na qa) (signed nb qb)
  end.

Definition fmod80 (a b : Z) : Z :=
  match decode80 a, decode80 b with
  | NaN, _ | _, NaN | Inf _, _ => quiet_nan80
  | Fin _ _, Inf _ => a
  | Fin na qa, Fin _ qb =>
      if Qeq_bool qb 0 then quiet_nan80
      else encode80 na (qa - inject_Z (Qfloor (qa / qb)) * qb)
  end.

Definition div80 (a b : Z) : Z :=
  match decode80 a, decode80 b with
  | NaN, _ | _, NaN => quiet_nan80
  | Inf _, Inf _ => quiet_nan80
  | Inf na, Fin nb _ => infinity80 (xorb na nb)
  | Fin na _, Inf nb => sign_bit80 (xorb na nb)
  | Fin na qa, Fin nb qb =>
      if Qeq_bool qb 0 then
        (if Qeq_bool qa 0 then quiet_nan80 else infinity80 (xorb na nb))
      else encode80 (xorb na nb) (qa / qb)
  end.

Definition const80 (q : Q) : Z :=
  if Qle_bool 0 q then encode80 false q else encode80 true (Qopp q).

Definition classify80 (a : Z) : fp_class :=
  match decode80 a with
  | NaN => FP_NAN
  | Inf _ => FP_INFINITE
  | Fin _ _ =>
      if significand80 a =? 0 then FP_ZERO
      else if exponent80 a =? 0 then FP_SUBNORMAL
      else FP_NORMAL
  end.

Definition signaling80 (a : Z) : bool :=
  match decode80 a with
  | NaN => negb (Z.testbit a 62)
  | _ => false
  end.

Definition truncate80 (a : Z) : outcome Z :=
  match decode80 a with
  | Fin neg q =>
      let t := Qfloor q in
      if neg && (0 <? t) then Undefined
      else if t <? 2 ^ 64 then Done t else Undefined
  | _ => Undefined
  end.

Definition long_double_FloatingPoint : FloatingPoint float80 := {|
  real_type := long_double;
  significand_bits := 64;
  exponent_bias := -16383;
  object_bits := bits80;
  signbit := fun a => sign80 (bits80 a);
  fpclassify := fun a => classify80 (bits80 a);
  issignaling := fun a => signaling80 (bits80 a);
  Rabs := fun a => {| bits80 := bits80 a mod 2 ^ 79 |};
  Rfmod := fun a b => {| bits80 := fmod80 (bits80 a) (bits80 b) |};
  Rdiv := fun a b => {| bits80 := div80 (bits80 a) (bits80 b) |};
  Rlt := fun a b => lt_datum (decode80 (bits80 a)) (decode80 (bits80 b));
  Rge := fun a b =>
    lt_datum (decode80 (bits80 b)) (decode80 (bits80 a))
    || eq_datum (decode80 (bits80 a)) (decode80 (bits80 b));
  Req := fun a b => eq_datum (decode80 (bits80 a)) (decode80 (bits80 b));
  Rconst := fun q => {| bits80 := const80 q |};
  to_uint64 := fun a => truncate80 (bits80 a)
|}.

(** Zero is [0 * 10^0]; any other finite value is cut after its
    twenty-first decimal and loses its trailing zeros. *)
Definition decompose80 (v : float80) : decimal_fp :=
  match decode80 (bits80 v) with
  | Fin neg q =>
      let '(n, e) := strip_zeros 5000 (Qfloor (q * inject_Z (10 ^ 21))) (-21) in
      if n =? 0 then {| significand := 0; exponent := 0; is_negative := neg |}
      else {| significand := n; exponent := e; is_negative := neg |}
  | _ =>
      {| significand := 0; exponent := 0; is_negative := sign80 (bits80 v) |}
  end.

Definition long_double_Collaborators : Collaborators float80 := {|
  get_real_precision := fun precision => if precision =? -1 then 21 else precision;
  total_buffer_length := fun real_precision exp signed_value =>
    b2z signed_value + 1 + real_precision + 2 + count_digits (Z.abs exp);
  num_digits := count_digits;
  digit_table := chars "0123456789abcdefghijklmnopqrstuvwxyz";
  to_chars_integer_impl := print_integer;
  to_chars_int := print_integer;
  to_decimal := decompose80;
  dragonbox_to_chars := fun m _ _ last _ => no_digits m last;
  floff := fun m _ _ _ last _ _ => no_digits m last
|}.

End Extended.

(** * The integer parser *)

Module ParserFacts.

Import FromChars Claims.

(** ** The digit table *)

Lemma seq_Z_complete (n : nat) (v : Z) :
  0 <= v < Z.of_nat n -> In v (map Z.of_nat (seq 0 n)).
Proof.
  intros Hv. apply in_map_iff. exists (Z.to_nat v). split; [lia|].
  apply in_seq. lia.
Qed.

Lemma digit_from_char_in_range (c : Z) :
  0 <= c < 256 -> digit_from_char c = Some (digit_value c).
Proof.
  intros Hc.
  assert (Hall : forallb
            (fun c => match digit_from_char c with
                      | Some d => d =? digit_value c
                      | None => false
                      end) (map Z.of_nat (seq 0 256)) = true)
    by (vm_compute; reflexivity).
  rewrite forallb_forall in Hall.
  specialize (Hall c (seq_Z_complete 256 c Hc)).
  destruct (digit_from_char c); [|discriminate].
  apply Z.eqb_eq in Hall. now subst.
Qed.

Lemma digit_value_bound (c : Z) :
  0 <= digit_value c <= 35 \/ digit_value c = 255.
Proof.
  unfold digit_value.
  repeat match goal with
         | |- context [if ?b then _ else _] => destruct b eqn:?
         end;
  change (ch "0") with 48 in *; change (ch "9") with 57 in *;
  change (ch "A") with 65 in *; change (ch "Z") with 90 in *;
  change (ch "a") with 97 in *; change (ch "z") with 122 in *; lia.
Qed.

(** Where [char] is signed, a byte with the high bit set is a negative
    [char]; its conversion to [std::size_t] is at least [2^64 - 128]. *)
Lemma to_size_t_negative (b : Z) :
  128 <= b <= 255 -> to_size_t (char_of_byte true b) = 2 ^ 64 - 256 + b.
Proof.
  intros Hb. unfold char_of_byte, to_size_t, size_t_bits.
  replace (128 <=? b) with true by (symmetry; apply Z.leb_le; lia).
  cbn [andb].
  symmetry. apply Z.mod_unique_pos with (q := -1); lia.
Qed.

(** C5, where the code departs from it: on a platform whose [char] is
    signed, every byte with the high bit set indexes [uchar_values] far
    outside its 256 entries. *)
Theorem digit_from_char_high_bit_out_of_bounds (b : Z) :
  128 <= b <= 255 ->
  256 <= to_size_t (char_of_byte true b)
  /\ digit_from_char (char_of_byte true b) = None.
Proof.
  intros Hb. pose proof (to_size_t_negative b Hb) as Hi. split; [lia|].
  unfold digit_from_char, array_at. rewrite Hi.
  replace (2 ^ 64 - 256 + b <? Z.of_nat (List.length uchar_values)) with false.
  - now rewrite andb_false_r.
  - symmetry. apply Z.ltb_ge. change (Z.of_nat (List.length uchar_values)) with 256. lia.
Qed.

Lemma digit_from_char_high_bit_out_of_bounds_witness :
  256 <= to_size_t (char_of_byte true 128)
  /\ digit_from_char (char_of_byte true 128) = None.
Proof.
  apply (digit_from_char_high_bit_out_of_bounds 128). lia.
Defined.

(** The second half of C5 holds: the three spellings of ff parse to 255. *)
Lemma case_insensitive_ff (char_is_signed : bool) :
  parse char_is_signed int_t (chars "ff") 16
    = Done ({| ptr := 2; ec := errc_ok |}, Some 255)
  /\ parse char_is_signed int_t (chars "FF") 16
    = Done ({| ptr := 2; ec := errc_ok |}, Some 255)
  /\ parse char_is_signed int_t (chars "Ff") 16
    = Done ({| ptr := 2; ec := errc_ok |}, Some 255).
Proof. destruct char_is_signed; repeat split; vm_compute; reflexivity. Qed.

(** ** The loop *)

Section Loop.

Variable char_is_signed : bool.
Variable T : Integer.
Variable base : Z.
Lemma deref_middle (pre post : list Z) (c : Z) :
  deref char_is_signed (pre ++ c :: post) (Z.of_nat (List.length pre))
    = Done (char_of_byte char_is_signed c).
Proof.
  unfold deref, array_at.
  replace (0 <=? Z.of_nat (List.length pre)) with true
    by (symmetry; apply Z.leb_le; lia).
  replace (Z.of_nat (List.length pre) <? Z.of_nat (List.length (pre ++ c :: post)))
    with true
    by (symmetry; apply Z.ltb_lt; rewrite length_app; cbn [List.length]; lia).
  cbn [andb]. rewrite Nat2Z.id, nth_error_app2, Nat.sub_diag by lia.
  reflexivity.
Qed.

(** A character that is not a digit of the base ends the loop, after
    [next] has moved past it. *)
Lemma parse_loop_stop (ov md : Z) (pre post : list Z) (x : Z) (n : nat) (r : Z) (o : bool) :
  not_digit char_is_signed base x = true ->
  parse_loop char_is_signed (pre ++ x :: post) T base ov md (S n)
             (Z.of_nat (List.length pre)) r o
    = Done (Z.of_nat (List.length pre) + 1, r, o).
Proof.
  unfold not_digit, digit_of. intros Hx. cbn [parse_loop].
  rewrite deref_middle. cbn [bind].
  destruct (digit_from_char (char_of_byte char_is_signed x)) as [dx|]; [|discriminate].
  cbn [of_option bind].
  replace (dx >=? base) with true by (symmetry; apply Z.geb_le; apply Z.leb_le; exact Hx).
  reflexivity.
Qed.

(** A digit is accumulated or marks the overflow, and the loop goes on. *)
Lemma parse_loop_digit (ov md : Z) (pre post : list Z) (c dc : Z) (n : nat) (r : Z) (o : bool) :
  digit_of char_is_signed c = Some dc -> dc < base ->
  parse_loop char_is_signed (pre ++ c :: post) T base ov md (S n)
             (Z.of_nat (List.length pre)) r o
    = if (r <? ov) || ((r =? ov) && (dc <=? md))
      then parse_loop char_is_signed (pre ++ c :: post) T base ov md n
                      (Z.of_nat (List.length pre) + 1)
                      (to_unsigned T (r * base + dc)) o
      else parse_loop char_is_signed (pre ++ c :: post) T base ov md n
                      (Z.of_nat (List.length pre) + 1) r true.
Proof.
  unfold digit_of. intros Hc Hlt. cbn [parse_loop].
  rewrite deref_middle. cbn [bind]. rewrite Hc. cbn [of_option bind].
  replace (dc >=? base) with false; [reflexivity|].
  symmetry. rewrite Z.geb_leb. apply Z.leb_gt. exact Hlt.
Qed.

Lemma is_digit_inv (c : Z) :
  is_digit char_is_signed base c = true ->
  exists dc, digit_of char_is_signed c = Some dc /\ dc < base.
Proof.
  unfold is_digit. destruct (digit_of char_is_signed c) as [dc|]; [|discriminate].
  intros Hlt. exists dc. split; [reflexivity|]. now apply Z.ltb_lt.
Qed.

(** Digits followed by a character that is not one: the loop returns
    with [next] one past that character. *)
Lemma parse_loop_end (ov md : Z) (ds : list Z) (x : Z) (post : list Z) :
  Forall (fun c => is_digit char_is_signed base c = true) ds ->
  not_digit char_is_signed base x = true ->
  forall (pre : list Z) (n : nat) (r : Z) (o : bool),
    (List.length ds < n)%nat ->
    exists r' o',
      parse_loop char_is_signed (pre ++ ds ++ x :: post) T base ov md n
                 (Z.of_nat (List.length pre)) r o
        = Done (Z.of_nat (List.length pre) + Z.of_nat (List.length ds) + 1, r', o').
Proof.
  intros Hds Hx. induction Hds as [|c ds Hc Hds IH]; intros pre n r o Hn.
  - destruct n as [|n]; [cbn in Hn; lia|]. cbn [app List.length].
    rewrite parse_loop_stop by exact Hx. exists r, o. f_equal. f_equal. f_equal. lia.
  - destruct n as [|n]; [cbn in Hn; lia|].
    destruct (is_digit_inv c Hc) as (dc & Hdc & Hlt).
    cbn [app]. rewrite (parse_loop_digit ov md pre (ds ++ x :: post) c dc n r o Hdc Hlt).
    assert (Hpre : pre ++ c :: ds ++ x :: post = (pre ++ [c]) ++ ds ++ x :: post)
      by (rewrite <- app_assoc; reflexivity).
    assert (Hlen : Z.of_nat (List.length pre) + 1 = Z.of_nat (List.length (pre ++ [c])))
      by (rewrite length_app; cbn [List.length]; lia).
    rewrite Hpre, Hlen.
    cbn [List.length] in Hn.
    destruct ((r <? ov) || ((r =? ov) && (dc <=? md))).
    + destruct (IH (pre ++ [c]) n (to_unsigned T (r * base + dc)) o ltac:(lia))
        as (r' & o' & Heq).
      exists r', o'. rewrite Heq. f_equal. f_equal. f_equal.
      cbn [List.length]. lia.
    + destruct (IH (pre ++ [c]) n r true ltac:(lia)) as (r' & o' & Heq).
      exists r', o'. rewrite Heq. f_equal. f_equal. f_equal.
      cbn [List.length]. lia.
Qed.

(** Digits up to [last]: the loop returns with [next == last]. *)
Lemma parse_loop_all_digits (ov md : Z) (ds : list Z) :
  Forall (fun c => is_digit char_is_signed base c = true) ds ->
  forall (pre : list Z) (r : Z) (o : bool),
    exists r' o',
      parse_loop char_is_signed (pre ++ ds) T base ov md (List.length ds)
                 (Z.of_nat (List.length pre)) r o
        = Done (Z.of_nat (List.length (pre ++ ds)), r', o').
Proof.
  intros Hds. induction Hds as [|c ds Hc Hds IH]; intros pre r o.
  - cbn [List.length parse_loop]. rewrite app_nil_r. eauto.
  - destruct (is_digit_inv c Hc) as (dc & Hdc & Hlt).
    cbn [List.length].
    rewrite (parse_loop_digit ov md pre ds c dc (List.length ds) r o Hdc Hlt).
    assert (Hpre : pre ++ c :: ds = (pre ++ [c]) ++ ds)
      by (rewrite <- app_assoc; reflexivity).
    assert (Hlen : Z.of_nat (List.length pre) + 1 = Z.of_nat (List.length (pre ++ [c])))
      by (rewrite length_app; cbn [List.length]; lia).
    rewrite Hpre, Hlen.
    destruct ((r <? ov) || ((r =? ov) && (dc <=? md))); apply IH.
Qed.

(** The loop takes at most [n] turns: it never runs out of fuel. *)
Lemma parse_loop_total (text : list Z) (ov md : Z) (n : nat) :
  forall next r o,
    parse_loop char_is_signed text T base ov md n next r o <> OutOfFuel.
Proof.
  induction n as [|n IH]; intros next r o; cbn [parse_loop]; [discriminate|].
  destruct (deref char_is_signed text next) as [c| |] eqn:Hc; cbn [bind];
    try discriminate.
  - destruct (digit_from_char c) as [dc|]; cbn [of_option bind]; [|discriminate].
    destruct (dc >=? base); [discriminate|].
    destruct ((r <? ov) || ((r =? ov) && (dc <=? md))); apply IH.
  - unfold deref in Hc. destruct (array_at text next); discriminate.
Qed.

End Loop.

(** ** The whole parser *)

Section Parser.

Variable char_is_signed : bool.
Variable T : Integer.
Variable base : Z.
Hypothesis base_range : 2 <= base <= 36.

Lemma char_of_byte_ascii (b : Z) : b < 128 -> char_of_byte char_is_signed b = b.
Proof.
  intros Hb. unfold char_of_byte.
  replace (128 <=? b) with false by (symmetry; apply Z.leb_gt; lia).
  now rewrite andb_false_r.
Qed.

Lemma deref_head (c : Z) (tl : list Z) :
  deref char_is_signed (c :: tl) 0 = Done (char_of_byte char_is_signed c).
Proof. exact (deref_middle char_is_signed [] tl c). Qed.

Lemma strip_sign_unsigned (text : list Z) (last : Z) :
  is_signed T = false -> strip_sign char_is_signed text T 0 last = Done (false, 0).
Proof. intros Hu. unfold strip_sign. now rewrite Hu. Qed.

Lemma strip_sign_minus (tl : list Z) (last : Z) :
  is_signed T = true -> last <> 0 ->
  strip_sign char_is_signed (ch "-" :: tl) T 0 last = Done (true, 1).
Proof.
  intros Hs Hl. unfold strip_sign. rewrite Hs.
  replace (0 =? last) with false by (symmetry; apply Z.eqb_neq; lia).
  cbn [negb]. rewrite deref_head, char_of_byte_ascii by (cbv; reflexivity).
  reflexivity.
Qed.

Lemma strip_sign_plus (tl : list Z) (last : Z) :
  is_signed T = true -> last <> 0 ->
  strip_sign char_is_signed (ch "+" :: tl) T 0 last = Done (false, 1).
Proof.
  intros Hs Hl. unfold strip_sign. rewrite Hs.
  replace (0 =? last) with false by (symmetry; apply Z.eqb_neq; lia).
  cbn [negb]. rewrite deref_head, char_of_byte_ascii by (cbv; reflexivity).
  reflexivity.
Qed.

Lemma strip_sign_other (c : Z) (tl : list Z) (last : Z) :
  char_of_byte char_is_signed c <> ch "-" ->
  char_of_byte char_is_signed c <> ch "+" ->
  strip_sign char_is_signed (c :: tl) T 0 last = Done (false, 0).
Proof.
  intros Hm Hp. unfold strip_sign.
  destruct (is_signed T); [|reflexivity].
  destruct (negb (0 =? last)); [|reflexivity].
  rewrite deref_head. cbn [bind].
  apply Z.eqb_neq in Hm, Hp. now rewrite Hm, Hp.
Qed.

(** A character the table maps to a digit value is neither sign. *)
Lemma looked_up_not_sign (c dc : Z) :
  digit_of char_is_signed c = Some dc -> dc <> 255 ->
  char_of_byte char_is_signed c <> ch "-" /\ char_of_byte char_is_signed c <> ch "+".
Proof.
  unfold digit_of. intros Hc Hd.
  split; intros Heq; rewrite Heq in Hc; vm_compute in Hc; congruence.
Qed.

Lemma from_chars_impl_after_sign (text : list Z) (last : Z) (neg : bool) (next : Z) :
  0 <= last -> next <> last ->
  strip_sign char_is_signed text T 0 last = Done (neg, next) ->
  from_chars_impl char_is_signed text T base 0 last
    = ('(next, result, overflowed) <-
         parse_loop char_is_signed text T base (overflow_value T base neg)
                    (max_digit T base neg) (Z.to_nat (last - next)) next 0 false ;;
       finish T neg next result overflowed).
Proof.
  intros Hl Hn Hs. unfold from_chars_impl.
  replace (0 <=? last) with true by (symmetry; apply Z.leb_le; lia).
  cbn [negb]. rewrite Hs. cbn [bind].
  replace (next =? last) with false by (symmetry; apply Z.eqb_neq; lia).
  reflexivity.
Qed.

(** What [finish] returns: the position the loop ended at, unless the
    negation of the most negative value is undefined. *)
Lemma finish_ptr (neg : bool) (next r : Z) (o : bool) :
  match finish T neg next r o with
  | Done (res, _) => ptr res = next
  | Undefined => neg = true /\ is_signed T = true /\ int_bits <= width T
  | OutOfFuel => False
  end.
Proof.
  unfold finish. destruct o; [reflexivity|].
  destruct (is_signed T) eqn:Hs, neg; cbn [andb bind]; try reflexivity.
  unfold apply_sign, apply_sign_signed. rewrite Hs.
  destruct (width T <? int_bits) eqn:Hw; [reflexivity|].
  destruct (to_Integer T r =? numeric_min T); cbn [bind]; [|reflexivity].
  apply Z.ltb_ge in Hw. auto.
Qed.

(** Every call of the parser returns or is undefined, none runs on. *)
Lemma from_chars_impl_total (text : list Z) (first last : Z) :
  from_chars_impl char_is_signed text T base first last <> OutOfFuel.
Proof.
  unfold from_chars_impl. destruct (negb (first <=? last)); [discriminate|].
  destruct (strip_sign char_is_signed text T first last) as [[neg next]| |] eqn:Hs;
    cbn [bind]; try discriminate.
  - destruct (next =? last); [discriminate|].
    destruct (parse_loop char_is_signed text T base _ _ _ next 0 false)
      as [[[next' r] o]| |] eqn:Hloop; cbn [bind]; try discriminate.
    + pose proof (finish_ptr neg next' r o) as Hfin.
      destruct (finish T neg next' r o); [discriminate | discriminate | contradiction].
    + exfalso. exact (parse_loop_total char_is_signed T base text _ _ _ _ _ _ Hloop).
  - revert Hs. unfold strip_sign, deref.
    destruct (is_signed T); [|discriminate].
    destruct (negb (first =? last)); [|discriminate].
    destruct (array_at text first); cbn [of_option bind]; [|discriminate].
    repeat match goal with
           | |- context [if ?b then _ else _] => destruct b
           end; discriminate.
Qed.

(** The text [sg ++ ds ++ x :: post]: an optional sign, digits of the
    base, and a first character [x] that is not a digit.  The position of
    [x] is [length sg + length ds]. *)
Lemma strip_sign_prefix (sg ds : list Z) (x : Z) (post : list Z) :
  sign_prefix T sg ->
  Forall (fun c => is_digit char_is_signed base c = true) ds ->
  not_digit char_is_signed base x = true ->
  (sg = [] -> ds = [] -> is_signed T = true ->
   char_of_byte char_is_signed x <> ch "-" /\ char_of_byte char_is_signed x <> ch "+") ->
  exists neg,
    strip_sign char_is_signed (sg ++ ds ++ x :: post) T 0
               (Z.of_nat (List.length (sg ++ ds ++ x :: post)))
      = Done (neg, Z.of_nat (List.length sg))
    /\ (neg = true -> sg = [ch "-"]).
Proof.
  intros Hsg Hds Hx Hfirst.
  assert (Hlen : forall l : list Z,
             Z.of_nat (List.length (l ++ ds ++ x :: post)) <> 0)
    by (intros l; rewrite !length_app; cbn [List.length]; lia).
  destruct Hsg as [-> | (Hs & [-> | ->])].
  - exists false. split; [|discriminate]. cbn [app List.length Z.of_nat].
    destruct (is_signed T) eqn:Hs; [|now apply strip_sign_unsigned].
    destruct ds as [|c ds].
    + cbn [app]. destruct (Hfirst eq_refl eq_refl eq_refl) as [Hm Hp].
      now apply strip_sign_other.
    + cbn [app]. inversion Hds as [|c' ds' Hc Hds']; subst.
      unfold is_digit in Hc.
      destruct (digit_of char_is_signed c) as [dc|] eqn:Hdc; [|discriminate].
      apply Z.ltb_lt in Hc.
      destruct (looked_up_not_sign c dc Hdc ltac:(lia)). now apply strip_sign_other.
  - exists true. split; [|reflexivity]. cbn [app].
    apply strip_sign_minus; [exact Hs|]. exact (Hlen [ch "-"]).
  - exists false. split; [|discriminate]. cbn [app].
    apply strip_sign_plus; [exact Hs|]. exact (Hlen [ch "+"]).
Qed.

(** C2, where the code departs from it: [*next++] has already moved
    [next] when the loop breaks, so the end that is returned, on success
    and on overflow alike, is one past the first character that is not a
    digit, not the position of that character. *)
Theorem end_is_one_past_first_non_digit (sg ds : list Z) (x : Z) (post : list Z) :
  sign_prefix T sg ->
  Forall (fun c => is_digit char_is_signed base c = true) ds ->
  not_digit char_is_signed base x = true ->
  (sg = [] -> ds = [] -> is_signed T = true ->
   char_of_byte char_is_signed x <> ch "-" /\ char_of_byte char_is_signed x <> ch "+") ->
  match parse char_is_signed T (sg ++ ds ++ x :: post) base with
  | Done (res, _) => ptr res = Z.of_nat (List.length sg + List.length ds) + 1
  | Undefined => sg = [ch "-"] /\ int_bits <= width T
  | OutOfFuel => False
  end.
Proof.
  intros Hsg Hds Hx Hfirst.
  destruct (strip_sign_prefix sg ds x post Hsg Hds Hx Hfirst) as (neg & Hstrip & Hneg).
  unfold parse.
  rewrite (from_chars_impl_after_sign _ _ neg (Z.of_nat (List.length sg)));
    [| lia | rewrite !length_app; cbn [List.length]; lia | exact Hstrip].
  destruct (parse_loop_end char_is_signed T base (overflow_value T base neg)
              (max_digit T base neg) ds x post Hds Hx sg
              (Z.to_nat (Z.of_nat (List.length (sg ++ ds ++ x :: post))
                         - Z.of_nat (List.length sg))) 0 false)
    as (r' & o' & Hloop).
  { rewrite !length_app. cbn [List.length]. lia. }
  rewrite Hloop. cbn [bind].
  pose proof (finish_ptr neg
                (Z.of_nat (List.length sg) + Z.of_nat (List.length ds) + 1) r' o') as Hfin.
  destruct (finish T neg _ r' o') as [[res v]| |].
  - rewrite Hfin. lia.
  - destruct Hfin as (Hn & _ & Hw). auto.
  - exact Hfin.
Qed.

Lemma to_Integer_zero : 1 <= width T -> to_Integer T 0 = 0.
Proof.
  intros Hw. unfold to_Integer, to_signed, to_unsigned.
  destruct (is_signed T); [|apply Z.mod_0_l; apply Z.pow_nonzero; lia].
  assert (2 ^ width T = 2 * 2 ^ (width T - 1))
    by (rewrite <- Z.pow_succ_r by lia; f_equal; lia).
  assert (0 < 2 ^ (width T - 1)) by (apply Z.pow_pos_nonneg; lia).
  rewrite Z.mod_small; lia.
Qed.

Lemma finish_zero (neg : bool) (next : Z) :
  1 <= width T ->
  finish T neg next 0 false = Done ({| ptr := next; ec := errc_ok |}, Some 0).
Proof.
  intros Hw. unfold finish. rewrite to_Integer_zero by exact Hw.
  destruct (is_signed T) eqn:Hs, neg; cbn [andb bind]; try reflexivity.
  unfold apply_sign, apply_sign_signed, numeric_min. rewrite Hs.
  assert (0 < 2 ^ (width T - 1)) by (apply Z.pow_pos_nonneg; lia).
  destruct (width T <? int_bits).
  - cbn [bind]. change (- 0) with 0.
    pose proof (to_Integer_zero Hw) as Hz. unfold to_Integer in Hz.
    rewrite Hs in Hz. now rewrite Hz.
  - replace (0 =? - 2 ^ (width T - 1)) with false
      by (symmetry; apply Z.eqb_neq; lia).
    reflexivity.
Qed.

(** C3, where the code departs from it: a character that is not a digit
    right after the optional sign is read by the loop, which breaks at
    once, and nothing checks that a digit was seen; the parser returns
    [ok], the value 0 and the end one past that character, not
    [invalid-argument] with [end == first]. *)
Theorem no_digit_parses_as_zero (sg : list Z) (x : Z) (post : list Z) :
  1 <= width T ->
  sign_prefix T sg ->
  not_digit char_is_signed base x = true ->
  (sg = [] -> is_signed T = true ->
   char_of_byte char_is_signed x <> ch "-" /\ char_of_byte char_is_signed x <> ch "+") ->
  parse char_is_signed T (sg ++ x :: post) base
    = Done ({| ptr := Z.of_nat (List.length sg) + 1; ec := errc_ok |}, Some 0).
Proof.
  intros Hw Hsg Hx Hfirst.
  destruct (strip_sign_prefix sg [] x post Hsg (Forall_nil _) Hx
              (fun Hs _ => Hfirst Hs)) as (neg & Hstrip & _).
  cbn [app] in Hstrip. unfold parse.
  rewrite (from_chars_impl_after_sign _ _ neg (Z.of_nat (List.length sg)));
    [| lia | rewrite !length_app; cbn [List.length]; lia | exact Hstrip].
  replace (Z.to_nat (Z.of_nat (List.length (sg ++ x :: post)) - Z.of_nat (List.length sg)))
    with (S (List.length post))
    by (rewrite length_app; cbn [List.length]; lia).
  rewrite parse_loop_stop by exact Hx. cbn [bind].
  now apply finish_zero.
Qed.

(** The other two cases of C3 hold: an inverted range, and a range that is
    empty once the sign is gone, are [invalid-argument] at [first]. *)
Lemma inverted_range_is_invalid (text : list Z) (first last : Z) :
  last < first ->
  from_chars_impl char_is_signed text T base first last
    = Done ({| ptr := first; ec := EINVAL |}, None).
Proof.
  intros Hlt. unfold from_chars_impl.
  replace (first <=? last) with false by (symmetry; apply Z.leb_gt; lia).
  reflexivity.
Qed.

Lemma empty_range_is_invalid :
  parse char_is_signed T [] base = Done ({| ptr := 0; ec := EINVAL |}, None).
Proof.
  unfold parse, from_chars_impl, strip_sign. cbn [List.length Z.of_nat Z.leb Z.compare negb].
  destruct (is_signed T); reflexivity.
Qed.

Lemma sign_only_is_invalid_when_signed (sign : Z) :
  is_signed T = true -> sign = ch "-" \/ sign = ch "+" ->
  parse char_is_signed T [sign] base = Done ({| ptr := 0; ec := EINVAL |}, None).
Proof.
  intros Hs Hsign. unfold parse, from_chars_impl.
  cbn [List.length Z.of_nat Pos.of_succ_nat Z.leb Z.compare negb].
  destruct Hsign as [-> | ->].
  - rewrite strip_sign_minus by (exact Hs || lia). reflexivity.
  - rewrite strip_sign_plus by (exact Hs || lia). reflexivity.
Qed.

End Parser.

Lemma end_is_one_past_first_non_digit_witness :
  match parse true int_t ([] ++ chars "12" ++ ch "x" :: []) 10 with
  | Done (res, _) => ptr res = Z.of_nat (List.length (@nil Z) + List.length (chars "12")) + 1
  | Undefined => @nil Z = [ch "-"] /\ int_bits <= width int_t
  | OutOfFuel => False
  end.
Proof.
  apply (end_is_one_past_first_non_digit true int_t 10).
  - lia.
  - left. reflexivity.
  - repeat constructor.
  - reflexivity.
  - intros _ Hds. discriminate Hds.
Defined.

(** The same input evaluated: the end is 3, and [x] is at position 2. *)
Example twelve_x :
  parse true int_t (chars "12x") 10 = Done ({| ptr := 3; ec := errc_ok |}, Some 12).
Proof. vm_compute. reflexivity. Qed.

(** An overflowing number followed by [x]: [range-error], end again one
    past [x]. *)
Example overflow_x :
  parse true int_t (chars "99999999999x") 10 = Done ({| ptr := 12; ec := ERANGE |}, None).
Proof. vm_compute. reflexivity. Qed.

Lemma no_digit_parses_as_zero_witness :
  parse true int_t ([] ++ ch "x" :: []) 10
    = Done ({| ptr := Z.of_nat (List.length (@nil Z)) + 1; ec := errc_ok |}, Some 0).
Proof.
  apply (no_digit_parses_as_zero true int_t 10).
  - lia.
  - cbv. discriminate.
  - left. reflexivity.
  - reflexivity.
  - intros _ _. split; cbv; discriminate.
Defined.

(** For the unsigned types the sign characters themselves are such
    characters: a lone minus or plus parses as 0. *)
Example sign_only_unsigned :
  parse true unsigned_int_t (chars "-") 10 = Done ({| ptr := 1; ec := errc_ok |}, Some 0)
  /\ parse true unsigned_int_t (chars "+") 10 = Done ({| ptr := 1; ec := errc_ok |}, Some 0).
Proof. split; vm_compute; reflexivity. Qed.

(** ** The overflow boundary *)

(** The first two parts of C4 hold for every overload and every base: the
    text of [max(T)] parses to [max(T)], the text of [max(T) + 1] is a
    [range-error]. *)
Lemma overflow_boundary (char_is_signed : bool) (T : Integer) (b : Z) :
  In T integer_types -> In b bases ->
  let lo := to_text b (numeric_max T) in
  let hi := to_text b (numeric_max T + 1) in
  returns_value (parse char_is_signed T lo b) (Z.of_nat (List.length lo)) (numeric_max T) = true
  /\ returns_range_error (parse char_is_signed T hi b) (Z.of_nat (List.length hi)) = true.
Proof.
  intros HT Hb.
  assert (Hall : forallb (fun cs =>
            forallb (fun T =>
              forallb (fun b =>
                returns_value (parse cs T (to_text b (numeric_max T)) b)
                  (Z.of_nat (List.length (to_text b (numeric_max T)))) (numeric_max T)
                && returns_range_error (parse cs T (to_text b (numeric_max T + 1)) b)
                     (Z.of_nat (List.length (to_text b (numeric_max T + 1)))))
              bases) integer_types) [true; false] = true)
    by (vm_compute; reflexivity).
  rewrite forallb_forall in Hall.
  assert (Hcs : In char_is_signed [true; false])
    by (destruct char_is_signed; cbn; auto).
  specialize (Hall _ Hcs). rewrite forallb_forall in Hall.
  specialize (Hall _ HT). rewrite forallb_forall in Hall.
  specialize (Hall _ Hb). apply andb_prop in Hall. exact Hall.
Qed.

(** The most negative value of a signed type narrower than [int] parses
    to itself: the negation is done in [int]. *)
Lemma most_negative_narrow (char_is_signed : bool) :
  parse char_is_signed short_t (chars "-32768") 10
    = Done ({| ptr := 6; ec := errc_ok |}, Some (-32768))
  /\ parse char_is_signed (char_t true) (chars "-128") 10
    = Done ({| ptr := 4; ec := errc_ok |}, Some (-128)).
Proof. destruct char_is_signed; split; vm_compute; reflexivity. Qed.

(** C4, where the code departs from it: for [int], [long] and
    [long long] the decimal text of the most negative value is
    accumulated without overflow, converted to [min(T)], and then negated
    by [apply_sign] in the signed type itself: [-min(T)] overflows. *)
Theorem most_negative_value_negation_overflows (char_is_signed : bool) :
  parse char_is_signed int_t (chars "-2147483648") 10 = Undefined
  /\ parse char_is_signed long_t (chars "-9223372036854775808") 10 = Undefined
  /\ parse char_is_signed long_long_t (chars "-9223372036854775808") 10 = Undefined
  /\ apply_sign int_t (numeric_min int_t) = Undefined.
Proof. destruct char_is_signed; repeat split; vm_compute; reflexivity. Qed.

End ParserFacts.

(** * The renderers *)

Module RendererFacts.

Import ToChars.

(** ** Memory *)

Lemma written_store (m : mem) (a b : Z) : written (store m a b) = a :: written m.
Proof. reflexivity. Qed.

Lemma written_store_bytes (bs : list Z) :
  forall (m : mem) (dst : Z),
    written (store_bytes m dst bs)
      = rev (map (fun i => dst + Z.of_nat i) (seq 0 (List.length bs))) ++ written m.
Proof.
  induction bs as [|b bs IH]; intros m dst; [reflexivity|].
  cbn [store_bytes List.length]. rewrite IH, written_store.
  cbn [seq map rev]. rewrite <- seq_shift, map_map, <- app_assoc. cbn [app].
  f_equal.
  - f_equal. apply map_ext. intros i. lia.
  - f_equal. lia.
Qed.

(** ** to_chars_nonfinite *)

Section Nonfinite.

Context {Real : Type} {FP : FloatingPoint Real}.

(** C6, where the code departs from it: for a NaN with the sign bit set
    the minus sign is stored before the buffer size is looked at; when the
    buffer is too small the call returns [range-error] and the first byte
    of the buffer holds the sign. *)
Theorem nonfinite_sign_written_before_check (m : mem) (first last : Z) (value : Real) :
  signbit value = true ->
  last - first < 9 ->
  to_chars_nonfinite m first last value FP_NAN
    = Done (store m first (ch "-"), {| ptr := first + 1; ec := ERANGE |}).
Proof.
  intros Hs Hsize. unfold to_chars_nonfinite. rewrite Hs.
  replace (last - first >=? 9 + b2z true) with false
    by (symmetry; rewrite Z.geb_leb; apply Z.leb_gt; cbn [b2z]; lia).
  replace (last - first >=? 9) with false
    by (symmetry; rewrite Z.geb_leb; apply Z.leb_gt; lia).
  rewrite andb_false_r. reflexivity.
Qed.

(** On the other paths C6 holds: an infinity, or a NaN without the sign
    bit, that does not fit leaves the memory as it was. *)
Lemma nonfinite_no_write_on_failure (m m' : mem) (first last : Z) (value : Real)
    (classification : fp_class) (r : to_chars_result) :
  classification = FP_INFINITE \/ signbit value = false ->
  to_chars_nonfinite m first last value classification = Done (m', r) ->
  ec r = ERANGE -> m' = m.
Proof.
  intros Hc. unfold to_chars_nonfinite.
  destruct classification; try discriminate.
  - destruct Hc as [Hc | Hs]; [discriminate|]. rewrite Hs.
    repeat match goal with
           | |- context [if ?b then _ else _] => destruct b
           end; intros [= <- <-]; cbn [ec]; congruence.
  - repeat match goal with
           | |- context [if ?b then _ else _] => destruct b
           end; intros [= <- <-]; cbn [ec]; congruence.
Qed.

(** C7, where the code departs from it: for a signaling NaN with the sign
    bit set the ten characters of the literal are stored at
    [first .. first + 9], but [offset] counts the sign a second time and
    the end returned is [first + 11]. *)
Theorem negative_signaling_nan_end (m : mem) (first last : Z) (value : Real) :
  signbit value = true ->
  issignaling value = true ->
  10 <= last - first ->
  to_chars_nonfinite m first last value FP_NAN
    = Done (store_bytes m first (chars "-nan(snan)"),
            {| ptr := first + 11; ec := errc_ok |}).
Proof.
  intros Hs Hsig Hsize. unfold to_chars_nonfinite. rewrite Hs, Hsig.
  replace (last - first >=? 9 + b2z true) with true
    by (symmetry; rewrite Z.geb_leb; apply Z.leb_le; cbn [b2z]; lia).
  cbn [andb b2z]. f_equal. f_equal. f_equal. lia.
Qed.

(** The other literals of C7 are stored and measured as the claim says. *)
Lemma nonfinite_literals (m : mem) (first last : Z) (value : Real) :
  (signbit value = false -> 3 <= last - first ->
   to_chars_nonfinite m first last value FP_INFINITE
     = Done (store_bytes m first (chars "inf"), {| ptr := first + 3; ec := errc_ok |}))
  /\ (signbit value = true -> 4 <= last - first ->
      to_chars_nonfinite m first last value FP_INFINITE
        = Done (store_bytes m first (chars "-inf"), {| ptr := first + 4; ec := errc_ok |}))
  /\ (signbit value = false -> issignaling value = false -> 3 <= last - first ->
      to_chars_nonfinite m first last value FP_NAN
        = Done (store_bytes m first (chars "nan"), {| ptr := first + 3; ec := errc_ok |}))
  /\ (signbit value = true -> issignaling value = false -> 9 <= last - first ->
      to_chars_nonfinite m first last value FP_NAN
        = Done (store_bytes m first (chars "-nan(ind)"),
                {| ptr := first + 9; ec := errc_ok |}))
  /\ (signbit value = false -> issignaling value = true -> 9 <= last - first ->
      to_chars_nonfinite m first last value FP_NAN
        = Done (store_bytes m first (chars "nan(snan)"),
                {| ptr := first + 9; ec := errc_ok |})).
Proof.
  unfold to_chars_nonfinite.
  repeat split; intros;
    repeat match goal with
           | H : signbit value = _ |- _ => rewrite H; clear H
           | H : issignaling value = _ |- _ => rewrite H; clear H
           end;
    cbn [andb negb b2z];
    repeat match goal with
           | |- context [?a >=? ?b] =>
               replace (a >=? b) with true
                 by (symmetry; rewrite Z.geb_leb; apply Z.leb_le; lia)
           end;
    cbn [andb]; try reflexivity.
  f_equal. f_equal. f_equal. lia.
Qed.

(** A two-byte buffer is a [range-error] for every non-finite value. *)
Lemma nonfinite_two_bytes (m : mem) (first : Z) (value : Real) (classification : fp_class) :
  classification = FP_NAN \/ classification = FP_INFINITE ->
  exists m' p,
    to_chars_nonfinite m first (first + 2) value classification
      = Done (m', {| ptr := p; ec := ERANGE |}).
Proof.
  intros [-> | ->]; unfold to_chars_nonfinite;
    replace (first + 2 - first) with 2 by lia;
    destruct (signbit value), (issignaling value); cbn; eauto.
Qed.

End Nonfinite.

Import IEEE Sample.

(** The negative quiet NaN of [double] into a buffer of two bytes. *)
Lemma nonfinite_sign_written_before_check_witness :
  to_chars_nonfinite blank 0 2 {| bits64 := 0xFFF8000000000000 |} FP_NAN
    = Done (store blank 0 (ch "-"), {| ptr := 0 + 1; ec := ERANGE |}).
Proof.
  apply (nonfinite_sign_written_before_check blank 0 2 {| bits64 := 0xFFF8000000000000 |}).
  - vm_compute. reflexivity.
  - lia.
Defined.

(** A negative signaling NaN of [double] into a buffer of sixteen bytes. *)
Lemma negative_signaling_nan_end_witness :
  to_chars_nonfinite blank 0 16 {| bits64 := 0xFFF0000000000001 |} FP_NAN
    = Done (store_bytes blank 0 (chars "-nan(snan)"),
            {| ptr := 0 + 11; ec := errc_ok |}).
Proof.
  apply (negative_signaling_nan_end blank 0 16 {| bits64 := 0xFFF0000000000001 |}).
  - vm_compute. reflexivity.
  - vm_compute. reflexivity.
  - lia.
Defined.

(** ** to_chars_float_impl *)

Section Dispatcher.

Context {Real : Type} {FP : FloatingPoint Real} {CO : Collaborators Real}.

(** With [fmt == hex] the dispatcher goes to the classification whatever
    the precision. *)
Lemma hex_goes_to_classification (fuel : nat) (m : mem) (first last : Z) (value : Real)
    (precision : Z) :
  first < last ->
  to_chars_float_impl fuel m first last value hex precision
    = classify_and_hex fuel m first last value precision.
Proof.
  intros Hlt. unfold to_chars_float_impl.
  replace (first >=? last) with false
    by (symmetry; rewrite Z.geb_leb; apply Z.leb_gt; lia).
  cbn [chars_format_eqb orb negb]. destruct (precision =? -1); reflexivity.
Qed.

(** C1, where the code departs from it: for a zero in [hex] notation the
    sign and the four characters [0p+0] are stored with no look at [last];
    in a buffer of fewer than four bytes the last of them lands at or
    beyond [last], and the call returns success. *)
Theorem hex_zero_writes_past_last (fuel : nat) (m : mem) (first last : Z) (value : Real)
    (precision : Z) :
  fpclassify value = FP_ZERO ->
  first < last ->
  last - first < 4 ->
  let sign := b2z (signbit value) in
  let m' := store_bytes (if signbit value then store m first (ch "-") else m)
                        (first + sign) (chars "0p+0") in
  to_chars_float_impl fuel m first last value hex precision
    = Done (m', {| ptr := first + sign + 4; ec := errc_ok |})
  /\ hd 0 (written m') = first + sign + 3
  /\ last <= first + sign + 3.
Proof.
  intros Hz Hlt Hsize sign m'. split; [|split].
  - rewrite hex_goes_to_classification by exact Hlt.
    unfold classify_and_hex. rewrite Hz. subst m' sign.
    destruct (signbit value); cbn [b2z]; [reflexivity|].
    now rewrite Z.add_0_r.
  - subst m'. rewrite written_store_bytes. cbn. lia.
  - subst sign. destruct (signbit value); cbn [b2z]; lia.
Qed.

End Dispatcher.

(** Positive zero of [double], [hex], a buffer of one byte: the bytes at
    addresses 1, 2 and 3 are stored beyond [last = 1]. *)
Lemma hex_zero_writes_past_last_witness :
  let value := {| bits64 := 0 |} in
  let sign := b2z (signbit value) in
  let m' := store_bytes (if signbit value then store blank 0 (ch "-") else blank)
                        (0 + sign) (chars "0p+0") in
  to_chars_float_impl 0 blank 0 1 value hex (-1)
    = Done (m', {| ptr := 0 + sign + 4; ec := errc_ok |})
  /\ hd 0 (written m') = 0 + sign + 3
  /\ 1 <= 0 + sign + 3.
Proof.
  apply (hex_zero_writes_past_last 0 blank 0 1 {| bits64 := 0 |} (-1)).
  - vm_compute. reflexivity.
  - lia.
  - lia.
Defined.

Example hex_zero_one_byte :
  match to_chars_float_impl 0 blank 0 1 {| bits64 := 0 |} hex (-1) with
  | Done (m', r) => written m' = [3; 2; 1; 0] /\ ec r = errc_ok
  | _ => False
  end.
Proof. vm_compute. split; reflexivity. Qed.

Section Precision.

Context {Real : Type} {FP : FloatingPoint Real} {CO : Collaborators Real}.

Lemma int_in_range (x : Z) : INT_MIN <= x <= INT_MAX -> int_ x = Done x.
Proof.
  intros Hx. unfold int_.
  replace (INT_MIN <=? x) with true by (symmetry; apply Z.leb_le; lia).
  replace (x <=? INT_MAX) with true by (symmetry; apply Z.leb_le; lia).
  reflexivity.
Qed.

Lemma clamp_is_max (x : Z) : (if x <=? 0 then 0 else x) = Z.max 0 x.
Proof. destruct (x <=? 0) eqn:Hx; [apply Z.leb_le in Hx | apply Z.leb_gt in Hx]; lia. Qed.

(** What lines 640-661 compute. *)
Lemma floff_arguments_value (abs_value : Real) (fmt : chars_format) (precision : Z) :
  fmt <> hex ->
  INT_MIN < precision < INT_MAX ->
  let override :=
    chars_format_eqb fmt general && Rge abs_value min_fractional_value
    && Rlt abs_value max_fractional_value in
  floff_arguments abs_value fmt precision
    = Done (if override then fixed else fmt, override,
            Z.max 0 (precision - b2z (Rlt abs_value (Rconst 1)) + b2z override)).
Proof.
  intros Hfmt Hp override. unfold floff_arguments. fold override.
  assert (Hb : 0 <= b2z (Rlt abs_value (Rconst 1)) <= 1)
    by (destruct (Rlt abs_value (Rconst 1)); cbn; lia).
  destruct override.
  - cbn [chars_format_eqb orb bind b2z].
    rewrite int_in_range by lia. cbn [bind].
    rewrite int_in_range by lia. cbn [bind].
    now rewrite clamp_is_max.
  - destruct fmt; try congruence; cbn [chars_format_eqb orb bind b2z];
      repeat (rewrite int_in_range by lia; cbn [bind]);
      rewrite clamp_is_max, ?Z.add_0_r; reflexivity.
Qed.

(** C8 as the code has it: with a precision given (any [int] but the
    sentinel -1 and the two ends of the type, where the arithmetic
    overflows) and a notation other than [hex], [general] is turned into
    [fixed] exactly when
    [min_fractional_value <= |value| < max_fractional_value], and [floff]
    is called with the precision minus 1 when [|value| < 1] -- for
    [scientific], [general] and a requested [fixed] alike -- plus 1 when
    the notation was turned, and at least 0. *)
Theorem floff_precision_adjustment (fuel : nat) (m : mem) (first last : Z) (value : Real)
    (fmt : chars_format) (precision : Z) :
  first < last ->
  fmt <> hex ->
  precision <> -1 ->
  INT_MIN < precision < INT_MAX ->
  let abs_value := Rabs value in
  let override :=
    chars_format_eqb fmt general && Rge abs_value min_fractional_value
    && Rlt abs_value max_fractional_value in
  to_chars_float_impl fuel m first last value fmt precision
    = Done (floff m value
                  (Z.max 0 (precision - b2z (Rlt abs_value (Rconst 1)) + b2z override))
                  first last (if override then fixed else fmt) override).
Proof.
  intros Hlt Hfmt Hsentinel Hp abs_value override. unfold to_chars_float_impl.
  replace (first >=? last) with false
    by (symmetry; rewrite Z.geb_leb; apply Z.leb_gt; lia).
  replace (precision =? -1) with false by (symmetry; apply Z.eqb_neq; lia).
  replace (negb (chars_format_eqb fmt hex)) with true
    by (destruct fmt; try reflexivity; congruence).
  fold abs_value. rewrite floff_arguments_value by assumption.
  reflexivity.
Qed.

End Precision.

(** [double] 0.5 in [fixed] notation with precision 3. *)
Lemma floff_precision_adjustment_witness :
  let value : float64 := Rconst (1 # 2) in
  let abs_value := Rabs value in
  let override :=
    chars_format_eqb fixed general && Rge abs_value min_fractional_value
    && Rlt abs_value max_fractional_value in
  to_chars_float_impl 0 blank 0 32 value fixed 3
    = Done (floff blank value
                  (Z.max 0 (3 - b2z (Rlt abs_value (Rconst 1)) + b2z override))
                  0 32 (if override then fixed else fixed) override).
Proof.
  apply (floff_precision_adjustment 0 blank 0 32 (Rconst (1 # 2) : float64) fixed 3).
  - lia.
  - discriminate.
  - discriminate.
  - split; cbv; reflexivity.
Defined.

(** C8 as the specification words it fails: for the [double] 0.5 in a
    requested [fixed] notation with precision 3 the code computes the
    precision 2, and the specification says 3. *)
Lemma fixed_below_one_loses_a_digit :
  let value : float64 := Rconst (1 # 2) in
  floff_arguments (Rabs value) fixed 3 = Done (fixed, false, 2)
  /\ Claims.specified_floff_precision value fixed 3 = 3
  /\ ~ (exists fmt changed_fmt,
          floff_arguments (Rabs value) fixed 3
            = Done (fmt, changed_fmt, Claims.specified_floff_precision value fixed 3)).
Proof.
  cbv zeta. split; [vm_compute; reflexivity|]. split; [vm_compute; reflexivity|].
  intros (fmt & changed_fmt & Heq). vm_compute in Heq. discriminate Heq.
Qed.

(** ** to_chars_hex: the rounding *)

Section HexRounding.

Import Claims.

Lemma land_pow2 (x n : Z) :
  0 <= n -> Z.land x (2 ^ n) = if Z.testbit x n then 2 ^ n else 0.
Proof.
  intros Hn. apply Z.bits_inj'. intros k Hk.
  rewrite Z.land_spec, Z.pow2_bits_eqb by lia.
  destruct (Z.eqb_spec n k) as [->|Hne].
  - destruct (Z.testbit x k); [now rewrite Z.pow2_bits_true by lia|].
    now rewrite Z.bits_0.
  - rewrite andb_false_r.
    destruct (Z.testbit x n); [|now rewrite Z.bits_0].
    rewrite Z.pow2_bits_eqb by lia. symmetry. now apply Z.eqb_neq.
Qed.

Lemma testbit_odd_div (x n : Z) : 0 <= n -> Z.testbit x n = Z.odd (x / 2 ^ n).
Proof. intros Hn. now rewrite Z.testbit_odd, Z.shiftr_div_pow2. Qed.

Lemma odd_double_plus (q h : Z) : Z.odd (2 * q + h) = Z.odd h.
Proof. rewrite Z.add_comm. apply Z.odd_add_mul_2. Qed.

(** A significand split at the rounding position: [s = 2P * q + P * h + t]
    with [P] half a unit, [h] the highest discarded bit and [t] the bits
    below it. *)
Lemma split_at (s l : Z) :
  1 <= l ->
  exists q h t,
    s = 2 ^ l * q + 2 ^ (l - 1) * h + t
    /\ 0 <= h <= 1 /\ 0 <= t < 2 ^ (l - 1)
    /\ q = s / 2 ^ l /\ s mod 2 ^ l = 2 ^ (l - 1) * h + t.
Proof.
  intros Hl.
  assert (HP : 0 < 2 ^ (l - 1)) by (apply Z.pow_pos_nonneg; lia).
  assert (H2P : 2 ^ l = 2 * 2 ^ (l - 1))
    by (rewrite <- Z.pow_succ_r by lia; f_equal; lia).
  pose proof (Z.div_mod s (2 ^ l) ltac:(lia)) as Hs.
  pose proof (Z.mod_pos_bound s (2 ^ l) ltac:(lia)) as Hr.
  pose proof (Z.div_mod (s mod 2 ^ l) (2 ^ (l - 1)) ltac:(lia)) as Hr'.
  pose proof (Z.mod_pos_bound (s mod 2 ^ l) (2 ^ (l - 1)) ltac:(lia)) as Ht.
  exists (s / 2 ^ l), ((s mod 2 ^ l) / 2 ^ (l - 1)), ((s mod 2 ^ l) mod 2 ^ (l - 1)).
  assert (0 <= (s mod 2 ^ l) / 2 ^ (l - 1) <= 1).
  { split; [apply Z.div_pos; lia|].
    apply Z.lt_succ_r. apply Z.div_lt_upper_bound; lia. }
  repeat split; lia.
Qed.

(** The bit of [round_bit & (tail_bit | lsb_bit)] at the rounding
    position is the decision of round to nearest, ties to even. *)
Lemma round_bit_decision (s l : Z) :
  1 <= l ->
  Z.testbit (Z.land (2 * s) (Z.lor (2 * s - 1) s)) l = rounds_up s l.
Proof.
  intros Hl. unfold rounds_up.
  destruct (split_at s l Hl) as (q & h & t & Hs & Hh & Ht & Hq & Hmod).
  assert (HP : 0 < 2 ^ (l - 1)) by (apply Z.pow_pos_nonneg; lia).
  assert (H2P : 2 ^ l = 2 * 2 ^ (l - 1))
    by (rewrite <- Z.pow_succ_r by lia; f_equal; lia).
  rewrite Z.land_spec, Z.lor_spec, !testbit_odd_div by lia.
  rewrite Hmod, <- Hq.
  replace (2 ^ l / 2) with (2 ^ (l - 1))
    by (rewrite H2P, Z.mul_comm, Z.div_mul; lia).
  assert (Hround : 2 * s / 2 ^ l = 2 * q + h).
  { symmetry. apply Z.div_unique with (r := 2 * t); [lia|]. rewrite H2P in *. nia. }
  rewrite Hround, odd_double_plus.
  destruct (Z.eq_dec t 0) as [->|Hnz].
  - assert (Htail : (2 * s - 1) / 2 ^ l = 2 * q + (h - 1)).
    { symmetry. apply Z.div_unique with (r := 2 ^ l - 1); [lia|]. rewrite H2P in *. nia. }
    rewrite Htail, odd_double_plus.
    assert (h = 0 \/ h = 1) as [-> | ->] by lia.
    + cbn [Z.odd andb]. symmetry. apply orb_false_intro.
      * apply Z.ltb_ge. lia.
      * apply andb_false_intro1. apply Z.eqb_neq. lia.
    + change (Z.odd 1) with true. change (Z.odd (1 - 1)) with false.
      cbn [andb orb].
      replace (2 ^ (l - 1) <? 2 ^ (l - 1) * 1 + 0) with false
        by (symmetry; apply Z.ltb_ge; lia).
      replace (2 ^ (l - 1) * 1 + 0 =? 2 ^ (l - 1)) with true
        by (symmetry; apply Z.eqb_eq; lia).
      reflexivity.
  - assert (Htail : (2 * s - 1) / 2 ^ l = 2 * q + h).
    { symmetry. apply Z.div_unique with (r := 2 * t - 1); [lia|]. rewrite H2P in *. nia. }
    rewrite Htail, odd_double_plus.
    assert (h = 0 \/ h = 1) as [-> | ->] by lia.
    + cbn [Z.odd andb]. symmetry. apply orb_false_intro.
      * apply Z.ltb_ge. lia.
      * apply andb_false_intro1. apply Z.eqb_neq. lia.
    + change (Z.odd 1) with true. cbn [andb orb].
      replace (2 ^ (l - 1) <? 2 ^ (l - 1) * 1 + t) with true
        by (symmetry; apply Z.ltb_lt; lia).
      reflexivity.
Qed.

(** The rounding block on a [w]-bit integer that has two spare bits. *)
Lemma round_significand_value (w l s : Z) :
  1 <= l <= w - 2 ->
  0 <= s < 2 ^ (w - 2) ->
  round_significand w l s = Done (s + (if rounds_up s l then 2 ^ l else 0)).
Proof.
  intros Hl Hs.
  assert (Hw : 2 ^ w = 4 * 2 ^ (w - 2)).
  { change 4 with (2 ^ 2). rewrite <- Z.pow_add_r by lia. f_equal. lia. }
  assert (Hlw : 2 ^ l <= 2 ^ (w - 2)) by (apply Z.pow_le_mono_r; lia).
  assert (Hlpos : 0 < 2 ^ l) by (apply Z.pow_pos_nonneg; lia).
  unfold round_significand, shl, to_uint.
  replace ((0 <=? 1) && (1 <? w)) with true
    by (symmetry; apply andb_true_intro; split; [reflexivity | apply Z.ltb_lt; lia]).
  replace ((0 <=? l) && (l <? w)) with true
    by (symmetry; apply andb_true_intro; split; [apply Z.leb_le | apply Z.ltb_lt]; lia).
  cbn [bind].
  rewrite Z.shiftl_mul_pow2, Z.pow_1_r by lia.
  rewrite Z.shiftl_mul_pow2, Z.mul_1_l by lia.
  rewrite (Z.mod_small (s * 2)) by lia.
  rewrite (Z.mod_small (2 ^ l)) by lia.
  replace (s * 2) with (2 * s) by lia.
  destruct (Z.eq_dec s 0) as [->|Hnz].
  - cbn [Z.mul Z.land]. rewrite Z.mod_small by lia.
    unfold rounds_up. rewrite Z.mod_0_l, Z.div_0_l by lia.
    replace (2 ^ l / 2 <? 0) with false
      by (symmetry; apply Z.ltb_ge; apply Z.div_pos; lia).
    cbn [Z.odd andb orb]. rewrite andb_false_r. reflexivity.
  - rewrite (Z.mod_small (2 * s - 1)) by lia.
    rewrite land_pow2, round_bit_decision by lia.
    rewrite Z.mod_small; [reflexivity|].
    destruct (rounds_up s l); lia.
Qed.

(** Adding the unit or nothing is rounding to nearest, ties to even: the
    retained part moves by at most half a unit, and by exactly half only
    onto an even value. *)
Lemma rounds_up_nearest_even (s l : Z) :
  1 <= l ->
  let unit := 2 ^ l in
  let retained := (s + (if rounds_up s l then unit else 0)) / unit in
  retained = s / unit + b2z (rounds_up s l)
  /\ 2 * Z.abs (retained * unit - s) <= unit
  /\ (2 * Z.abs (retained * unit - s) = unit -> Z.even retained = true).
Proof.
  intros Hl unit retained.
  destruct (split_at s l Hl) as (q & h & t & Hs & Hh & Ht & Hq & Hmod).
  assert (HP : 0 < 2 ^ (l - 1)) by (apply Z.pow_pos_nonneg; lia).
  assert (H2P : unit = 2 * 2 ^ (l - 1))
    by (unfold unit; rewrite <- Z.pow_succ_r by lia; f_equal; lia).
  assert (Hhalf : unit / 2 = 2 ^ (l - 1))
    by (rewrite H2P, Z.mul_comm, Z.div_mul; lia).
  assert (Hret : retained = s / unit + b2z (rounds_up s l)).
  { unfold retained. destruct (rounds_up s l); cbn [b2z].
    - replace (s + unit) with (s + 1 * unit) by lia.
      rewrite Z.div_add by lia. reflexivity.
    - now rewrite !Z.add_0_r. }
  split; [exact Hret|].
  rewrite Hret. fold unit in Hq, Hmod, Hs. rewrite <- Hq.
  unfold rounds_up. fold unit. rewrite Hmod, Hhalf, <- Hq.
  destruct (2 ^ (l - 1) <? 2 ^ (l - 1) * h + t) eqn:Hgt;
    [apply Z.ltb_lt in Hgt | apply Z.ltb_ge in Hgt]; cbn [orb].
  - cbn [b2z]. split; [nia|]. intros Heq. exfalso. nia.
  - destruct (2 ^ (l - 1) * h + t =? 2 ^ (l - 1)) eqn:Heq;
      [apply Z.eqb_eq in Heq | apply Z.eqb_neq in Heq]; cbn [andb].
    + destruct (Z.odd q) eqn:Hodd; cbn [b2z].
      * split; [nia|]. intros _. rewrite Z.even_add, <- Z.negb_odd, Hodd. reflexivity.
      * split; [nia|]. intros _. rewrite Z.add_0_r, <- Z.negb_odd, Hodd. reflexivity.
    + cbn [b2z]. split; [nia|]. intros Habs. exfalso. nia.
Qed.

Lemma lor_below_pow2 (a b k : Z) :
  0 < k -> 0 <= a < 2 ^ k -> 0 <= b < 2 ^ k -> 0 <= Z.lor a b < 2 ^ k.
Proof.
  intros Hk Ha Hb.
  assert (Hnn : 0 <= Z.lor a b) by (apply Z.lor_nonneg; lia).
  split; [exact Hnn|].
  destruct (Z.eq_dec (Z.lor a b) 0) as [->|Hnz]; [apply Z.pow_pos_nonneg; lia|].
  apply Z.log2_lt_pow2; [lia|].
  rewrite Z.log2_lor by lia.
  apply Z.max_lub_lt.
  - destruct (Z.eq_dec a 0) as [->|]; [exact Hk | apply Z.log2_lt_pow2; lia].
  - destruct (Z.eq_dec b 0) as [->|]; [exact Hk | apply Z.log2_lt_pow2; lia].
Qed.

Context {Real : Type} {FP : FloatingPoint Real}.

(** The significand [to_chars_hex] aligns leaves the two top bits of
    [Unsigned_Integer] clear, when the significand field does. *)
Lemma align_significand_bound (value : Real) (significand aligned e : Z) :
  0 <= significand_bits <= Unsigned_Integer_bits real_type - 3 ->
  align_significand value = Done (significand, aligned, e) ->
  0 <= aligned < 2 ^ (Unsigned_Integer_bits real_type - 2).
Proof.
  intros Hsb. unfold align_significand.
  set (w := Unsigned_Integer_bits real_type) in *.
  assert (Hw : 32 <= w) by (unfold w; destruct real_type; cbn; lia).
  assert (Hhex : 0 < hex_bits real_type <= w - 3)
    by (unfold w; destruct real_type; cbn; lia).
  assert (Hpow : forall k, 0 <= k <= w - 3 ->
             0 < 2 ^ k /\ 2 * 2 ^ k <= 2 ^ (w - 2) /\ 2 ^ (w - 2) < 2 ^ w).
  { intros k Hk. split; [apply Z.pow_pos_nonneg; lia|]. split.
    - rewrite <- Z.pow_succ_r by lia. apply Z.pow_le_mono_r; lia.
    - apply Z.pow_lt_mono_r; lia. }
  assert (Hshl : forall x k, 0 <= k <= w - 3 -> 0 <= x < 2 ^ (w - 2 - k) ->
             shl w x k = Done (x * 2 ^ k) /\ 0 <= x * 2 ^ k < 2 ^ (w - 2)).
  { intros x k Hk Hx.
    assert (Hsplit : 2 ^ (w - 2) = 2 ^ (w - 2 - k) * 2 ^ k)
      by (rewrite <- Z.pow_add_r by lia; f_equal; lia).
    destruct (Hpow k Hk) as (Hkpos & _ & Hlt).
    assert (Hb : 0 <= x * 2 ^ k < 2 ^ (w - 2)) by nia.
    split; [|exact Hb]. unfold shl, to_uint.
    replace ((0 <=? k) && (k <? w)) with true
      by (symmetry; apply andb_true_intro; split; [apply Z.leb_le | apply Z.ltb_lt]; lia).
    rewrite Z.shiftl_mul_pow2, Z.mod_small by lia. reflexivity. }
  destruct (Hpow _ Hsb) as (Hsbpos & Hsb2 & Hww).
  destruct (Hshl 1 significand_bits Hsb) as [-> _].
  { split; [lia|]. apply Z.pow_gt_1; lia. }
  cbn [bind]. rewrite Z.mul_1_l.
  assert (Hmask : to_uint w (2 ^ significand_bits - 1) = Z.ones significand_bits)
    by (unfold to_uint; rewrite Z.mod_small, Z.ones_equiv; lia).
  rewrite Hmask, Z.land_ones by lia.
  set (sig := object_bits value mod 2 ^ significand_bits).
  assert (Hsig : 0 <= sig < 2 ^ significand_bits)
    by (apply Z.mod_pos_bound; lia).
  destruct (extract_exp real_type (object_bits value) significand_bits)
    as [exponent| |]; cbn [bind]; try discriminate.
  assert (Haligned : exists a,
             (if Real_type_eqb real_type float then shl w sig 1 else Done sig) = Done a
             /\ 0 <= a < 2 ^ (w - 2)).
  { destruct (Real_type_eqb real_type float).
    - destruct (Hshl sig 1 ltac:(lia)) as [Heq Hb].
      + split; [lia|]. apply Z.lt_le_trans with (1 := proj2 Hsig).
        apply Z.pow_le_mono_r; lia.
      + eauto.
    - exists sig. split; [reflexivity|]. lia. }
  destruct Haligned as (a & -> & Ha). cbn [bind].
  destruct ((_ =? 0) && negb (sig =? 0)).
  - intros [= _ <- _]. exact Ha.
  - assert (Hhex' : 0 <= hex_bits real_type <= w - 3) by lia.
    destruct (Hshl 1 _ Hhex') as [Heq Hone].
    { split; [lia|]. apply Z.pow_gt_1; lia. }
    rewrite Z.mul_1_l in Heq, Hone. rewrite Heq.
    cbn [bind]. intros [= _ <- _].
    apply lor_below_pow2; lia.
Qed.

(** The rounding block alone: when the precision asked for is below the
    intrinsic hexadecimal precision of the type, it adds one
    unit of the last retained hexadecimal digit exactly when the discarded
    bits exceed half a unit, or are half a unit and the lowest retained
    bit is odd; the retained digits are then the nearest value to the
    aligned significand, ties to even. *)
Theorem hex_rounding_is_nearest_even (value : Real) (precision significand aligned e : Z) :
  0 <= significand_bits <= Unsigned_Integer_bits real_type - 3 ->
  align_significand value = Done (significand, aligned, e) ->
  0 <= precision < hex_precision real_type ->
  let lost_bits := (hex_precision real_type - precision) * nibble_bits in
  let unit := 2 ^ lost_bits in
  let up := rounds_up aligned lost_bits in
  exists rounded,
    round_significand (Unsigned_Integer_bits real_type) lost_bits aligned = Done rounded
    /\ rounded = aligned + (if up then unit else 0)
    /\ rounded / unit = aligned / unit + b2z up
    /\ 2 * Z.abs (rounded / unit * unit - aligned) <= unit
    /\ (2 * Z.abs (rounded / unit * unit - aligned) = unit ->
        Z.even (rounded / unit) = true).
Proof.
  intros Hsb Halign Hp lost_bits unit up.
  pose proof (align_significand_bound value significand aligned e Hsb Halign) as Hb.
  assert (Hl : 1 <= lost_bits <= Unsigned_Integer_bits real_type - 2).
  { unfold lost_bits, nibble_bits. revert Hp.
    destruct real_type; cbn [hex_precision Unsigned_Integer_bits]; lia. }
  exists (aligned + (if up then unit else 0)).
  split; [apply round_significand_value; assumption|].
  split; [reflexivity|].
  exact (rounds_up_nearest_even aligned lost_bits (proj1 Hl)).
Qed.

End HexRounding.

(** The [double] -255/256 = -0x1.fep-1 with precision 1: the retained
    digits 1f are followed by the discarded e000..., more than half a
    unit, and become 20. *)
Lemma hex_rounding_is_nearest_even_witness :
  let lost_bits := (hex_precision double - 1) * nibble_bits in
  let unit := 2 ^ lost_bits in
  let up := Claims.rounds_up 8972014882652160 lost_bits in
  exists rounded,
    round_significand (Unsigned_Integer_bits double) lost_bits 8972014882652160
      = Done rounded
    /\ rounded = 8972014882652160 + (if up then unit else 0)
    /\ rounded / unit = 8972014882652160 / unit + b2z up
    /\ 2 * Z.abs (rounded / unit * unit - 8972014882652160) <= unit
    /\ (2 * Z.abs (rounded / unit * unit - 8972014882652160) = unit ->
        Z.even (rounded / unit) = true).
Proof.
  refine (hex_rounding_is_nearest_even (FP := double_FloatingPoint)
            (Rconst (-255 # 256)) 1 4468415255281664 8972014882652160 2047 _ _ _).
  - cbn. lia.
  - vm_compute. reflexivity.
  - cbn. lia.
Defined.

(** The renderer run on it, and on 1.5 with three digits. *)
Example hex_rounded_output :
  output (to_chars_float_impl 100 blank 0 40 (Rconst (-255 # 256) : float64) hex 1)
    = Done (chars "-2.0p-1", errc_ok)
  /\ output (to_chars_float_impl 100 blank 0 40 (Rconst (3 # 2) : float64) hex 3)
    = Done (chars "1.800p+0", errc_ok).
Proof. split; vm_compute; reflexivity. Qed.

Example hex_rounding_example :
  round_significand 64 48 0x1FE00000000000 = Done 0x20E00000000000.
Proof. vm_compute. reflexivity. Qed.

(** ** to_chars_fixed_impl *)

Section Fixed.

Context {Real : Type} {FP : FloatingPoint Real} {CO : Collaborators Real}.

(** Dropping digits of a zero significand leaves it zero. *)
Lemma drop_loop_zero (limit : Z) (fuel : nat) :
  forall e nd s' e' nd',
    while_loop fuel (drop_digit_step limit) (0, e, nd) = Done (s', e', nd') -> s' = 0.
Proof.
  induction fuel as [|fuel IH]; intros e nd s' e' nd'; [discriminate|].
  cbn [while_loop]. unfold drop_digit_step at 1.
  destruct (nd >? limit).
  - destruct (int_ (e + 1)) as [e1| |]; cbn [bind]; try discriminate.
    destruct (int_ (nd - 1)) as [nd1| |]; cbn [bind]; try discriminate.
    change (0 / 10) with 0. apply IH.
  - cbn [bind]. intros [= <- _ _]. reflexivity.
Qed.

(** The loop [while (value_struct.significand % 10 == 0)] started on a
    zero significand: 0 % 10 is 0 and 0 / 10 is 0, whatever the fuel. *)
Lemma strip_loop_zero (fuel : nat) :
  forall e nd r, while_loop fuel strip_zero_step (0, e, nd) <> Done r.
Proof.
  induction fuel as [|fuel IH]; intros e nd r; [discriminate|].
  cbn [while_loop]. unfold strip_zero_step at 1.
  change (0 mod 10 =? 0) with true. cbn match.
  destruct (int_ (e + 1)) as [e1| |]; cbn [bind]; try discriminate.
  destruct (int_ (nd - 1)) as [nd1| |]; cbn [bind]; try discriminate.
  change (0 / 10) with 0. apply IH.
Qed.

(** On any other significand the same loop ends: a positive multiple of
    ten shrinks when divided by ten. *)
Lemma strip_loop_nonzero (n : nat) :
  forall s e nd,
    0 < s <= Z.of_nat n ->
    while_loop (S n) strip_zero_step (s, e, nd) <> OutOfFuel.
Proof.
  induction n as [|n IH]; intros s e nd Hs; [lia|].
  cbn [while_loop]. unfold strip_zero_step at 1.
  destruct (s mod 10 =? 0) eqn:Hmod; [|cbn [bind]; discriminate].
  apply Z.eqb_eq in Hmod. unfold int_.
  destruct ((INT_MIN <=? e + 1) && (e + 1 <=? INT_MAX)); cbn [bind]; [|discriminate].
  destruct ((INT_MIN <=? nd - 1) && (nd - 1 <=? INT_MAX)); cbn [bind]; [|discriminate].
  apply IH.
  pose proof (Z.div_mod s 10 ltac:(lia)). lia.
Qed.

Lemma round_to_precision_zero (fuel : nat) (value_struct : decimal_fp) (precision : Z) :
  significand value_struct = 0 ->
  forall r, round_to_precision fuel value_struct general precision <> Done r.
Proof.
  intros Hz r. unfold round_to_precision. rewrite Hz.
  destruct (int_ (precision + 2)) as [limit| |]; cbn [bind]; try discriminate.
  destruct (while_loop fuel (drop_digit_step limit)
              (0, exponent value_struct, num_digits 0)) as [[[s e] nd]| |] eqn:Hdrop;
    cbn [bind]; try discriminate.
  apply drop_loop_zero in Hdrop. subst s.
  destruct (nd =? limit).
  - change (0 mod 10) with 0. change (0 / 10) with 0.
    destruct (int_ (e + 1)) as [e1| |]; cbn [bind]; try discriminate.
    destruct (int_ (nd - 1)) as [nd1| |]; cbn [bind]; try discriminate.
    cbn. apply strip_loop_zero.
  - cbn. apply strip_loop_zero.
Qed.

(** The loop that strips trailing zeros relies on a significand that is
    not zero: called with a precision and [general] notation on a
    decomposition whose significand is 0, and a buffer that passes the
    first size check, [to_chars_fixed_impl] enters that loop and never
    leaves it.  Whether [to_decimal] ever gives such a decomposition is
    not decided by this header, and [to_chars_float_impl] calls the
    function without a precision only. *)
Theorem fixed_general_zero_never_returns (fuel : nat) (m : mem) (first last : Z)
    (value : Real) (precision : Z) :
  significand (to_decimal value) = 0 ->
  0 <= precision ->
  first <= last ->
  get_real_precision precision <= last - first ->
  to_chars_fixed_impl fuel m first last value general precision = OutOfFuel
  \/ to_chars_fixed_impl fuel m first last value general precision = Undefined.
Proof.
  intros Hz Hp Hle Hsize.
  destruct (to_chars_fixed_impl fuel m first last value general precision)
    as [r| |] eqn:Hcall; [exfalso | now right | now left].
  revert Hcall. unfold to_chars_fixed_impl.
  replace (last - first <? get_real_precision precision) with false
    by (symmetry; apply Z.ltb_ge; lia).
  replace (first >? last) with false
    by (symmetry; rewrite Z.gtb_ltb; apply Z.ltb_ge; lia).
  cbn [orb].
  replace (precision =? -1) with false by (symmetry; apply Z.eqb_neq; lia).
  cbn [negb].
  destruct (is_negative (to_decimal value));
    destruct (round_to_precision fuel (to_decimal value) general precision)
      as [[[s e] nd]| |] eqn:Hround; cbn [bind]; try discriminate;
    exfalso; exact (round_to_precision_zero fuel _ precision Hz _ Hround).
Qed.

End Fixed.

(** The same function on values of magnitude at least 1 returns. *)
Example fixed_output :
  output (to_chars_float_impl 100 blank 0 40 (Rconst (5 # 2) : float64) fixed (-1))
    = Done (chars "2.5", errc_ok)
  /\ output (to_chars_float_impl 100 blank 0 40 (Rconst 1200 : float64) general (-1))
    = Done (chars "1200", errc_ok).
Proof. split; vm_compute; reflexivity. Qed.

End RendererFacts.

(** * More of the parser *)

Module ParserExtras.

Import FromChars Claims ParserSpec ParserFacts.

Section Accumulation.

Variable char_is_signed : bool.
Variable T : Integer.
Variable base : Z.
Hypothesis base_range : 2 <= base <= 36.
Hypothesis width_range : 8 <= width T.

Lemma pow_width : 2 ^ width T = 2 * 2 ^ (width T - 1) /\ 128 <= 2 ^ (width T - 1).
Proof.
  split.
  - rewrite <- Z.pow_succ_r by lia. f_equal. lia.
  - change 128 with (2 ^ 7). apply Z.pow_le_mono_r; lia.
Qed.

(** [overflow_value] and [max_digit] are the quotient and the remainder
    of the limit by the base. *)
Lemma thresholds (neg : bool) :
  let M := magnitude_limit T neg in
  overflow_value T base neg * base + max_digit T base neg = M
  /\ 0 <= max_digit T base neg < base
  /\ 0 <= overflow_value T base neg
  /\ 0 <= M < 2 ^ width T.
Proof.
  destruct pow_width as [Hw Hh].
  assert (Hbase : to_unsigned T base = base)
    by (unfold to_unsigned; apply Z.mod_small; lia).
  assert (Hmax1 : to_unsigned T (numeric_max T + 1) = numeric_max T + 1 \/ is_signed T = false).
  { unfold to_unsigned, numeric_max. destruct (is_signed T); [left|now right].
    apply Z.mod_small. lia. }
  unfold overflow_value, max_digit, magnitude_limit. rewrite Hbase.
  set (m := if is_signed T then
              if neg then to_unsigned T (numeric_max T + 1) else numeric_max T
            else numeric_max T).
  assert (Hm : m = (if is_signed T then
                      if neg then 2 ^ (width T - 1) else 2 ^ (width T - 1) - 1
                    else 2 ^ width T - 1)).
  { unfold m. destruct (is_signed T) eqn:Hs; [|unfold numeric_max; now rewrite Hs].
    destruct neg; [|unfold numeric_max; now rewrite Hs].
    destruct Hmax1 as [-> | ?]; [|congruence]. unfold numeric_max. rewrite Hs. lia. }
  assert (Hmr : 0 <= m < 2 ^ width T)
    by (rewrite Hm; destruct (is_signed T), neg; lia).
  cbv zeta. rewrite <- Hm.
  pose proof (Z.div_mod m base ltac:(lia)).
  pose proof (Z.mod_pos_bound m base ltac:(lia)).
  assert (0 <= m / base) by (apply Z.div_pos; lia).
  repeat split; lia.
Qed.

Lemma positional_ge (digits : list Z) :
  Forall (fun d => 0 <= d) digits ->
  forall r, 0 <= r -> r <= positional base digits r.
Proof.
  unfold positional. induction 1 as [|d digits Hd _ IH]; intros r Hr; cbn [fold_left]; [lia|].
  apply Z.le_trans with (r * base + d); [nia|]. apply IH. nia.
Qed.

(** The test of the loop is the comparison of the new value with the
    limit. *)
Lemma check_is_comparison (ov md r d : Z) :
  0 <= md < base -> 0 <= d < base ->
  (r <? ov) || ((r =? ov) && (d <=? md)) = (r * base + d <=? ov * base + md).
Proof.
  intros Hmd Hd.
  destruct (r <? ov) eqn:Hlt; [apply Z.ltb_lt in Hlt | apply Z.ltb_ge in Hlt]; cbn [orb].
  - symmetry. apply Z.leb_le. nia.
  - destruct (r =? ov) eqn:Heq; [apply Z.eqb_eq in Heq | apply Z.eqb_neq in Heq]; cbn [andb].
    + subst r. destruct (d <=? md) eqn:Hle;
        [apply Z.leb_le in Hle | apply Z.leb_gt in Hle]; symmetry;
        [apply Z.leb_le | apply Z.leb_gt]; lia.
    + symmetry. apply Z.leb_gt. nia.
Qed.

(** The loop on digits: the result is the number while it stays within
    the limit; the flag is raised when it does not, and stays raised. *)
Lemma accumulate_digits (neg : bool) (digits : list Z) :
  let M := magnitude_limit T neg in
  let ov := overflow_value T base neg in
  let md := max_digit T base neg in
  Forall (fun d => 0 <= d < base) digits ->
  forall r o,
    0 <= r <= M ->
    let st := fold_left (accumulate T base ov md) digits (r, o) in
    0 <= fst st <= M
    /\ (o = true -> snd st = true)
    /\ (o = false -> positional base digits r <= M ->
        st = (positional base digits r, false))
    /\ (o = false -> M < positional base digits r -> snd st = true).
Proof.
  intros M ov md Hds.
  destruct (thresholds neg) as (Hsplit & Hmd & Hov & HM). fold M ov md in Hsplit, Hmd, Hov, HM.
  induction Hds as [|d digits Hd Hds IH]; intros r o Hr; cbn [fold_left].
  - unfold positional. cbn [fst snd fold_left].
    repeat split; intros; subst; try lia; try reflexivity; try assumption.
  - assert (Hstep : accumulate T base ov md (r, o) d
                    = if r * base + d <=? M
                      then (to_unsigned T (r * base + d), o) else (r, true)).
    { unfold accumulate. rewrite check_is_comparison, Hsplit by assumption.
      reflexivity. }
    cbv zeta. rewrite Hstep.
    assert (Hmono : forall r', 0 <= r' -> r' <= positional base digits r').
    { apply positional_ge. eapply Forall_impl; [|exact Hds]. cbv beta. lia. }
    change (positional base (d :: digits) r) with (positional base digits (r * base + d)).
    destruct (r * base + d <=? M) eqn:Hle;
      [apply Z.leb_le in Hle | apply Z.leb_gt in Hle]; cbv iota.
    + assert (Hsmall : to_unsigned T (r * base + d) = r * base + d)
        by (unfold to_unsigned; apply Z.mod_small; nia).
      rewrite Hsmall. apply (IH (r * base + d) o). nia.
    + destruct (IH r true Hr) as (Hb & Hsticky & _ & _).
      split; [exact Hb|]. split; [auto|]. split; [|auto].
      intros _ Hv. specialize (Hmono (r * base + d) ltac:(nia)). lia.
Qed.

(** The loop over a run of digits is the fold of [accumulate]. *)
Lemma parse_loop_digits (ov md : Z) (ds rest : list Z) (k : nat) :
  Forall (fun c => is_digit char_is_signed base c = true) ds ->
  forall pre r o,
    parse_loop char_is_signed (pre ++ ds ++ rest) T base ov md (List.length ds + k)
               (Z.of_nat (List.length pre)) r o
      = parse_loop char_is_signed (pre ++ ds ++ rest) T base ov md k
                   (Z.of_nat (List.length (pre ++ ds)))
                   (fst (fold_left (accumulate T base ov md)
                                   (map (digit_or_zero char_is_signed) ds) (r, o)))
                   (snd (fold_left (accumulate T base ov md)
                                   (map (digit_or_zero char_is_signed) ds) (r, o))).
Proof.
  induction 1 as [|c ds Hc Hds IH]; intros pre r o.
  - cbn [List.length Nat.add map fold_left fst snd app]. now rewrite app_nil_r.
  - destruct (is_digit_inv char_is_signed base c Hc) as (dc & Hdc & Hlt).
    cbn [List.length Nat.add app map fold_left].
    rewrite (parse_loop_digit char_is_signed T base ov md pre (ds ++ rest) c dc
               (List.length ds + k) r o Hdc Hlt).
    assert (Hpre : pre ++ c :: ds ++ rest = (pre ++ [c]) ++ ds ++ rest)
      by (rewrite <- app_assoc; reflexivity).
    assert (Hlen : Z.of_nat (List.length pre) + 1 = Z.of_nat (List.length (pre ++ [c])))
      by (rewrite length_app; cbn [List.length]; lia).
    assert (Hend : pre ++ c :: ds = (pre ++ [c]) ++ ds)
      by (rewrite <- app_assoc; reflexivity).
    assert (Hd : digit_or_zero char_is_signed c = dc)
      by (unfold digit_or_zero; now rewrite Hdc).
    rewrite Hpre, Hlen, Hend, Hd. unfold accumulate at 2 4.
    destruct ((r <? ov) || ((r =? ov) && (dc <=? md))); apply IH.
Qed.

Lemma digits_in_range (ds : list Z) :
  Forall (fun c => is_digit char_is_signed base c = true) ds ->
  Forall (fun d => 0 <= d < base) (map (digit_or_zero char_is_signed) ds).
Proof.
  induction 1 as [|c ds Hc _ IH]; cbn [map]; constructor; [|exact IH].
  unfold digit_or_zero. unfold is_digit in Hc.
  destruct (digit_of char_is_signed c) as [dc|] eqn:Hdc; [|discriminate].
  apply Z.ltb_lt in Hc. split; [|exact Hc].
  unfold digit_of, digit_from_char, array_at in Hdc.
  destruct ((0 <=? _) && _) eqn:Hb; [|discriminate].
  apply nth_error_In in Hdc.
  assert (Hall : forallb (fun d => 0 <=? d) uchar_values = true) by (vm_compute; reflexivity).
  rewrite forallb_forall in Hall. apply Z.leb_le. now apply Hall.
Qed.

(** The sign block in front of a digit. *)
Lemma strip_sign_digit (sg : list Z) (c : Z) (rest : list Z) :
  sign_prefix T sg ->
  is_digit char_is_signed base c = true ->
  strip_sign char_is_signed (sg ++ c :: rest) T 0
             (Z.of_nat (List.length (sg ++ c :: rest)))
    = Done (match sg with [] => false | s :: _ => s =? ch "-" end,
            Z.of_nat (List.length sg)).
Proof.
  intros Hsg Hc.
  assert (Hlen : forall l : list Z, Z.of_nat (List.length (l ++ c :: rest)) <> 0)
    by (intros l; rewrite length_app; cbn [List.length]; lia).
  destruct Hsg as [-> | (Hs & [-> | ->])].
  - cbn [app List.length Z.of_nat].
    destruct (is_digit_inv char_is_signed base c Hc) as (dc & Hdc & Hlt).
    destruct (looked_up_not_sign char_is_signed c dc Hdc ltac:(lia)).
    now apply strip_sign_other.
  - cbn [app]. rewrite strip_sign_minus; [reflexivity | exact Hs | exact (Hlen [ch "-"])].
  - cbn [app]. rewrite strip_sign_plus; [reflexivity | exact Hs | exact (Hlen [ch "+"])].
Qed.

(** The parser on a sign, digits and what follows them, as the loop and
    [finish] on the fold of the digits. *)
Lemma parse_digits (sg ds tail : list Z) :
  sign_prefix T sg ->
  ds <> [] ->
  Forall (fun c => is_digit char_is_signed base c = true) ds ->
  stops char_is_signed base tail ->
  let neg := match sg with [] => false | s :: _ => s =? ch "-" end in
  let st := fold_left (accumulate T base (overflow_value T base neg) (max_digit T base neg))
                      (map (digit_or_zero char_is_signed) ds) (0, false) in
  parse char_is_signed T (sg ++ ds ++ tail) base
    = finish T neg (Z.of_nat (List.length sg + List.length ds) + consumed tail)
             (fst st) (snd st).
Proof.
  intros Hsg Hne Hds Htail neg st.
  destruct ds as [|c ds']; [congruence|]. clear Hne.
  assert (Hc : is_digit char_is_signed base c = true) by (inversion Hds; assumption).
  unfold parse.
  rewrite (from_chars_impl_after_sign char_is_signed T base _ _ neg
             (Z.of_nat (List.length sg)));
    [| lia | rewrite !length_app; cbn [List.length]; lia
     | exact (strip_sign_digit sg c (ds' ++ tail) Hsg Hc)].
  replace (Z.to_nat (Z.of_nat (List.length (sg ++ (c :: ds') ++ tail))
                     - Z.of_nat (List.length sg)))
    with (List.length (c :: ds') + List.length tail)%nat
    by (rewrite !length_app; lia).
  rewrite (parse_loop_digits _ _ (c :: ds') tail (List.length tail) Hds sg 0 false).
  fold st.
  destruct tail as [|x post].
  - cbn [List.length parse_loop bind consumed].
    f_equal. rewrite length_app. cbn [List.length]. lia.
  - cbn [stops] in Htail.
    replace (sg ++ (c :: ds') ++ x :: post) with ((sg ++ c :: ds') ++ x :: post)
      by (rewrite <- app_assoc; reflexivity).
    cbn [List.length]. rewrite parse_loop_stop by exact Htail.
    cbn [bind consumed]. f_equal. rewrite length_app. cbn [List.length]. lia.
Qed.

Lemma to_signed_small (x : Z) :
  - 2 ^ (width T - 1) <= x < 2 ^ (width T - 1) -> to_signed T x = x.
Proof.
  intros Hx. destruct pow_width as [Hw _]. unfold to_signed.
  rewrite Z.mod_small; lia.
Qed.

Lemma to_signed_half : to_signed T (2 ^ (width T - 1)) = - 2 ^ (width T - 1).
Proof.
  destruct pow_width as [Hw _]. unfold to_signed.
  replace (2 ^ (width T - 1) + 2 ^ (width T - 1)) with (2 ^ width T) by lia.
  rewrite Z.mod_same by lia. lia.
Qed.

Lemma number_nonneg (ds : list Z) :
  Forall (fun c => is_digit char_is_signed base c = true) ds ->
  0 <= number char_is_signed base ds.
Proof.
  intros Hds. unfold number. apply positional_ge; [|lia].
  eapply Forall_impl; [|exact (digits_in_range ds Hds)]. cbv beta. lia.
Qed.

Lemma parse_nonnegative (sg ds tail : list Z) :
  sg = [] \/ (is_signed T = true /\ sg = [ch "+"]) ->
  ds <> [] ->
  Forall (fun c => is_digit char_is_signed base c = true) ds ->
  stops char_is_signed base tail ->
  let n := number char_is_signed base ds in
  let e := Z.of_nat (List.length sg + List.length ds) + consumed tail in
  parse char_is_signed T (sg ++ ds ++ tail) base
    = if n <=? numeric_max T
      then Done ({| ptr := e; ec := errc_ok |}, Some n)
      else Done ({| ptr := e; ec := ERANGE |}, None).
Proof.
  intros Hsg Hne Hds Htail n e.
  assert (Hprefix : sign_prefix T sg)
    by (destruct Hsg as [-> | [Hs ->]]; [now left | right; auto]).
  rewrite (parse_digits sg ds tail Hprefix Hne Hds Htail).
  assert (Hneg : match sg with [] => false | s :: _ => s =? ch "-" end = false)
    by (destruct Hsg as [-> | [_ ->]]; reflexivity).
  rewrite Hneg. fold e.
  pose proof (accumulate_digits false _ (digits_in_range ds Hds) 0 false) as Hacc.
  destruct (thresholds false) as (_ & _ & _ & HM).
  assert (Hlimit : magnitude_limit T false = numeric_max T) by reflexivity.
  rewrite Hlimit in Hacc, HM. cbv zeta in Hacc. fold (number char_is_signed base ds) in Hacc.
  fold n in Hacc. specialize (Hacc ltac:(lia)).
  destruct Hacc as (_ & _ & Hin & Hout).
  pose proof (number_nonneg ds Hds) as Hn. fold n in Hn.
  destruct (n <=? numeric_max T) eqn:Hle;
    [apply Z.leb_le in Hle | apply Z.leb_gt in Hle].
  - rewrite (Hin eq_refl Hle). cbn [fst snd]. unfold finish.
    rewrite andb_false_r. cbn [bind]. do 3 f_equal.
    unfold to_Integer, to_unsigned. destruct pow_width as [Hw _].
    unfold numeric_max in Hle.
    destruct (is_signed T); [apply to_signed_small | apply Z.mod_small]; lia.
  - unfold finish. now rewrite (Hout eq_refl Hle).
Qed.

Lemma parse_negative (ds tail : list Z) :
  is_signed T = true ->
  ds <> [] ->
  Forall (fun c => is_digit char_is_signed base c = true) ds ->
  stops char_is_signed base tail ->
  let n := number char_is_signed base ds in
  let e := 1 + Z.of_nat (List.length ds) + consumed tail in
  parse char_is_signed T (ch "-" :: ds ++ tail) base
    = if n <=? - numeric_min T
      then if (n =? - numeric_min T) && (int_bits <=? width T)
           then Undefined
           else Done ({| ptr := e; ec := errc_ok |}, Some (- n))
      else Done ({| ptr := e; ec := ERANGE |}, None).
Proof.
  intros Hs Hne Hds Htail n e.
  assert (Hprefix : sign_prefix T [ch "-"]) by (right; auto).
  change (ch "-" :: ds ++ tail) with ([ch "-"] ++ ds ++ tail).
  rewrite (parse_digits [ch "-"] ds tail Hprefix Hne Hds Htail).
  change (ch "-" =? ch "-") with true.
  replace (Z.of_nat (List.length [ch "-"] + List.length ds) + consumed tail) with e
    by (unfold e; cbn [List.length]; lia).
  pose proof (accumulate_digits true _ (digits_in_range ds Hds) 0 false) as Hacc.
  destruct (thresholds true) as (_ & _ & _ & HM).
  destruct pow_width as [Hw Hh].
  assert (Hlimit : magnitude_limit T true = 2 ^ (width T - 1))
    by (unfold magnitude_limit; now rewrite Hs).
  assert (Hmin : numeric_min T = - 2 ^ (width T - 1))
    by (unfold numeric_min; now rewrite Hs).
  rewrite Hlimit in Hacc, HM. cbv zeta in Hacc. fold (number char_is_signed base ds) in Hacc.
  fold n in Hacc. specialize (Hacc ltac:(lia)).
  destruct Hacc as (_ & _ & Hin & Hout).
  pose proof (number_nonneg ds Hds) as Hn. fold n in Hn.
  rewrite Hmin, Z.opp_involutive.
  destruct (n <=? 2 ^ (width T - 1)) eqn:Hle;
    [apply Z.leb_le in Hle | apply Z.leb_gt in Hle].
  - rewrite (Hin eq_refl Hle). cbn [fst snd]. unfold finish.
    rewrite Hs. cbn [andb]. unfold to_Integer, apply_sign, apply_sign_signed.
    rewrite Hs, Hmin.
    destruct (n =? 2 ^ (width T - 1)) eqn:Heq;
      [apply Z.eqb_eq in Heq | apply Z.eqb_neq in Heq]; cbn [andb].
    + rewrite Heq, to_signed_half, Z.eqb_refl, Z.opp_involutive, to_signed_half.
      rewrite Z.leb_antisym. destruct (width T <? int_bits); reflexivity.
    + rewrite (to_signed_small n) by lia.
      replace (n =? - 2 ^ (width T - 1)) with false by (symmetry; apply Z.eqb_neq; lia).
      rewrite (to_signed_small (- n)) by lia.
      destruct (width T <? int_bits); reflexivity.
  - unfold finish. now rewrite (Hout eq_refl Hle).
Qed.

(** X1. Digits, after an optional plus sign of a signed type and up to
    the end of the range or a character that is not a digit, parse to the
    number they denote in the base when it is at most [max(T)], and to a
    range error when it is more; in both cases the end is past all the
    digits (and past the character that stopped the loop). *)
Theorem digits_parse_to_their_number (sg ds tail : list Z) :
  sg = [] \/ (is_signed T = true /\ sg = [ch "+"]) ->
  ds <> [] ->
  Forall (fun c => is_digit char_is_signed base c = true) ds ->
  stops char_is_signed base tail ->
  let n := number char_is_signed base ds in
  let e := Z.of_nat (List.length sg + List.length ds) + consumed tail in
  parse char_is_signed T (sg ++ ds ++ tail) base
    = if n <=? numeric_max T
      then Done ({| ptr := e; ec := errc_ok |}, Some n)
      else Done ({| ptr := e; ec := ERANGE |}, None).
Proof. exact (parse_nonnegative sg ds tail). Qed.

(** X2. Digits after a minus sign, for a signed type, parse to the
    negated number when it is at most [-min(T)], and to a range error when
    it is more; at exactly [-min(T)] the negation is done in [int] for the
    types narrower than [int] and gives [min(T)], and is undefined for the
    others. *)
Theorem negative_digits_parse_to_their_number (ds tail : list Z) :
  is_signed T = true ->
  ds <> [] ->
  Forall (fun c => is_digit char_is_signed base c = true) ds ->
  stops char_is_signed base tail ->
  let n := number char_is_signed base ds in
  let e := 1 + Z.of_nat (List.length ds) + consumed tail in
  parse char_is_signed T (ch "-" :: ds ++ tail) base
    = if n <=? - numeric_min T
      then if (n =? - numeric_min T) && (int_bits <=? width T)
           then Undefined
           else Done ({| ptr := e; ec := errc_ok |}, Some (- n))
      else Done ({| ptr := e; ec := ERANGE |}, None).
Proof. exact (parse_negative ds tail). Qed.

(** ** The text of a number *)

Lemma digit_char_value (d : Z) :
  0 <= d < 36 -> digit_of char_is_signed (digit_char d) = Some d.
Proof.
  intros Hd.
  assert (Hall : forallb (fun cs =>
            forallb (fun d => match digit_of cs (digit_char d) with
                              | Some d' => d' =? d
                              | None => false
                              end) (map Z.of_nat (seq 0 36))) [true; false] = true)
    by (vm_compute; reflexivity).
  rewrite forallb_forall in Hall.
  assert (Hcs : In char_is_signed [true; false])
    by (destruct char_is_signed; cbn; auto).
  specialize (Hall _ Hcs). rewrite forallb_forall in Hall.
  specialize (Hall d (seq_Z_complete 36 d Hd)).
  destruct (digit_of char_is_signed (digit_char d)); [|discriminate].
  apply Z.eqb_eq in Hall. now subst.
Qed.

Lemma positional_app (l1 l2 : list Z) (r : Z) :
  positional base (l1 ++ l2) r = positional base l2 (positional base l1 r).
Proof. unfold positional. apply fold_left_app. Qed.

(** [to_text_aux] puts the digits of [n] in front of [acc]. *)
Lemma to_text_aux_digits (fuel : nat) :
  forall n acc,
    (0 < fuel)%nat ->
    0 <= n < base ^ Z.of_nat fuel ->
    exists ds,
      to_text_aux fuel base n acc = ds ++ acc
      /\ ds <> []
      /\ Forall (fun c => is_digit char_is_signed base c = true) ds
      /\ number char_is_signed base ds = n.
Proof.
  induction fuel as [|fuel IH]; intros n acc Hfuel Hn; [lia|].
  - cbn [to_text_aux].
    pose proof (Z.div_mod n base ltac:(lia)) as Hdm.
    pose proof (Z.mod_pos_bound n base ltac:(lia)) as Hmod.
    assert (Hdigit : is_digit char_is_signed base (digit_char (n mod base)) = true
                     /\ digit_or_zero char_is_signed (digit_char (n mod base)) = n mod base).
    { unfold is_digit, digit_or_zero. rewrite digit_char_value by lia.
      split; [apply Z.ltb_lt; lia | reflexivity]. }
    destruct Hdigit as [Hisd Hval].
    destruct (n <? base) eqn:Hlt; [apply Z.ltb_lt in Hlt | apply Z.ltb_ge in Hlt].
    + exists [digit_char (n mod base)]. repeat split.
      * discriminate.
      * constructor; [exact Hisd | constructor].
      * unfold number, positional. cbn [map fold_left]. rewrite Hval.
        rewrite Z.mod_small; lia.
    + assert (Hq : 0 <= n / base < base ^ Z.of_nat fuel).
      { split; [apply Z.div_pos; lia|].
        apply Z.div_lt_upper_bound; [lia|].
        rewrite Nat2Z.inj_succ, Z.pow_succ_r in Hn by lia. lia. }
      assert (Hfuel' : (0 < fuel)%nat).
      { destruct fuel; [|lia]. exfalso. cbn in Hq.
        assert (1 <= n / base) by (apply Z.div_le_lower_bound; lia). lia. }
      destruct (IH (n / base) (digit_char (n mod base) :: acc) Hfuel' Hq)
        as (ds & Heq & Hne & Hds & Hnum).
      exists (ds ++ [digit_char (n mod base)]). repeat split.
      * rewrite Heq, <- app_assoc. reflexivity.
      * destruct ds; discriminate.
      * apply Forall_app. split; [exact Hds | constructor; [exact Hisd | constructor]].
      * unfold number in *. rewrite map_app, positional_app, Hnum.
        unfold positional. cbn [map fold_left]. rewrite Hval. lia.
Qed.

Lemma to_text_digits (n : Z) :
  0 <= n < 2 ^ 130 ->
  to_text base n <> []
  /\ Forall (fun c => is_digit char_is_signed base c = true) (to_text base n)
  /\ number char_is_signed base (to_text base n) = n.
Proof.
  intros Hn. unfold to_text.
  destruct (to_text_aux_digits 130 n []) as (ds & Heq & Hne & Hds & Hnum).
  { lia. }
  { split; [lia|]. apply Z.lt_le_trans with (2 ^ 130); [lia|].
    apply Z.pow_le_mono_l. lia. }
  rewrite Heq, app_nil_r. auto.
Qed.

(** X3. The text of every value of the type, in every base -- a minus
    sign for a negative value, then the digits of the magnitude, most
    significant first -- parses back to that value, with the end at the
    end of the text; the one exception is the most negative value of
    [int] and the wider types, whose negation is undefined. *)
Theorem text_round_trip (n : Z) :
  width T <= 128 ->
  numeric_min T <= n <= numeric_max T ->
  (n = numeric_min T -> is_signed T = true -> width T < int_bits) ->
  parse char_is_signed T (text_of base n) base
    = Done ({| ptr := Z.of_nat (List.length (text_of base n)); ec := errc_ok |}, Some n).
Proof.
  intros Hw Hn Hmin. destruct pow_width as [Hpw Hh].
  assert (Hbig : 2 ^ width T <= 2 ^ 128) by (apply Z.pow_le_mono_r; lia).
  assert (H130 : 2 ^ 128 < 2 ^ 130) by (apply Z.pow_lt_mono_r; lia).
  assert (Hrange : - 2 ^ (width T - 1) <= n < 2 ^ width T
                   /\ (n < 0 -> is_signed T = true)).
  { unfold numeric_min, numeric_max in Hn. destruct (is_signed T); split; try lia; auto. }
  unfold text_of.
  destruct (n <? 0) eqn:Hneg; [apply Z.ltb_lt in Hneg | apply Z.ltb_ge in Hneg].
  - assert (Hs : is_signed T = true) by (apply Hrange; exact Hneg).
    destruct (to_text_digits (- n) ltac:(lia)) as (Hne & Hds & Hnum).
    pose proof (parse_negative (to_text base (- n)) [] Hs Hne Hds I) as Hparse.
    rewrite app_nil_r in Hparse. rewrite Hparse. cbv zeta. rewrite Hnum.
    assert (Hm : numeric_min T = - 2 ^ (width T - 1))
      by (unfold numeric_min; now rewrite Hs).
    replace (- n <=? - numeric_min T) with true by (symmetry; apply Z.leb_le; lia).
    replace ((- n =? - numeric_min T) && (int_bits <=? width T)) with false.
    + cbn [consumed List.length]. do 3 f_equal; lia.
    + symmetry. apply andb_false_iff.
      destruct (Z.eq_dec n (numeric_min T)) as [Heq|Hneq].
      * right. apply Z.leb_gt. auto.
      * left. apply Z.eqb_neq. lia.
  - destruct (to_text_digits n ltac:(lia)) as (Hne & Hds & Hnum).
    pose proof (parse_nonnegative [] (to_text base n) [] (or_introl eq_refl) Hne Hds I)
      as Hparse.
    cbn [app] in Hparse. rewrite app_nil_r in Hparse. rewrite Hparse. cbv zeta.
    rewrite Hnum.
    replace (n <=? numeric_max T) with true by (symmetry; apply Z.leb_le; lia).
    cbn [consumed List.length]. do 3 f_equal. lia.
Qed.

End Accumulation.

(** The text 123x in base 10 as an [int]. *)
Lemma digits_parse_to_their_number_witness :
  parse true int_t ([] ++ chars "123" ++ [ch "x"]) 10
    = Done ({| ptr := 4; ec := errc_ok |}, Some 123).
Proof.
  refine (digits_parse_to_their_number true int_t 10 _ _ [] (chars "123") [ch "x"]
            _ _ _ _).
  - lia.
  - cbn. lia.
  - left. reflexivity.
  - discriminate.
  - repeat constructor.
  - reflexivity.
Defined.

(** The text -123 in base 10 as an [int]. *)
Lemma negative_digits_parse_to_their_number_witness :
  parse true int_t (ch "-" :: chars "123" ++ []) 10
    = Done ({| ptr := 4; ec := errc_ok |}, Some (-123)).
Proof.
  refine (negative_digits_parse_to_their_number true int_t 10 _ _ (chars "123") []
            _ _ _ _).
  - lia.
  - cbn. lia.
  - reflexivity.
  - discriminate.
  - repeat constructor.
  - exact I.
Defined.

(** -42 in base 16 as an [int]: the text is -2a. *)
Lemma text_round_trip_witness :
  parse true int_t (text_of 16 (-42)) 16
    = Done ({| ptr := Z.of_nat (List.length (text_of 16 (-42))); ec := errc_ok |},
            Some (-42)).
Proof.
  apply (text_round_trip true int_t 16).
  - lia.
  - cbn. lia.
  - cbn. lia.
  - vm_compute. split; discriminate.
  - intros Hmin. vm_compute in Hmin. discriminate.
Defined.

(** ** Letter case *)

Section Case.

Variable char_is_signed : bool.
Variable T : Integer.
Variable base : Z.

Lemma array_at_map (f : Z -> Z) (text : list Z) (p : Z) :
  array_at (map f text) p = option_map f (array_at text p).
Proof.
  unfold array_at. rewrite length_map.
  destruct ((0 <=? p) && (p <? Z.of_nat (List.length text))); [|reflexivity].
  apply nth_error_map.
Qed.

Lemma digit_value_upper (b : Z) : digit_value (to_upper b) = digit_value b.
Proof.
  unfold to_upper.
  destruct ((ch "a" <=? b) && (b <=? ch "z")) eqn:Hb; [|reflexivity].
  apply andb_prop in Hb. destruct Hb as [Hlo Hhi].
  apply Z.leb_le in Hlo, Hhi. unfold digit_value.
  change (ch "0") with 48 in *; change (ch "9") with 57 in *;
  change (ch "A") with 65 in *; change (ch "Z") with 90 in *;
  change (ch "a") with 97 in *; change (ch "z") with 122 in *.
  replace ((48 <=? b - 32) && (b - 32 <=? 57)) with false
    by (symmetry; apply andb_false_iff; right; apply Z.leb_gt; lia).
  replace ((65 <=? b - 32) && (b - 32 <=? 90)) with true
    by (symmetry; apply andb_true_intro; split; apply Z.leb_le; lia).
  replace ((48 <=? b) && (b <=? 57)) with false
    by (symmetry; apply andb_false_iff; right; apply Z.leb_gt; lia).
  replace ((65 <=? b) && (b <=? 90)) with false
    by (symmetry; apply andb_false_iff; right; apply Z.leb_gt; lia).
  replace ((97 <=? b) && (b <=? 122)) with true
    by (symmetry; apply andb_true_intro; split; apply Z.leb_le; lia).
  lia.
Qed.

Lemma char_of_byte_upper (b : Z) :
  char_of_byte char_is_signed (to_upper b) = char_of_byte char_is_signed b
  \/ (97 <= b <= 122
      /\ char_of_byte char_is_signed (to_upper b) = b - 32
      /\ char_of_byte char_is_signed b = b).
Proof.
  unfold to_upper.
  destruct ((ch "a" <=? b) && (b <=? ch "z")) eqn:Hb; [right | now left].
  apply andb_prop in Hb. destruct Hb as [Hlo Hhi].
  apply Z.leb_le in Hlo, Hhi.
  change (ch "a") with 97 in *; change (ch "z") with 122 in *.
  rewrite !(char_of_byte_ascii char_is_signed) by lia. auto.
Qed.

Lemma digit_from_char_upper (b : Z) :
  digit_from_char (char_of_byte char_is_signed (to_upper b))
    = digit_from_char (char_of_byte char_is_signed b).
Proof.
  destruct (char_of_byte_upper b) as [-> | (Hb & -> & ->)]; [reflexivity|].
  rewrite !digit_from_char_in_range by lia.
  f_equal. pose proof (digit_value_upper b) as Hu. unfold to_upper in Hu.
  change (ch "a") with 97 in Hu; change (ch "z") with 122 in Hu.
  replace ((97 <=? b) && (b <=? 122)) with true in Hu
    by (symmetry; apply andb_true_intro; split; apply Z.leb_le; lia).
  exact Hu.
Qed.

Lemma sign_test_upper (b sign : Z) :
  sign = ch "-" \/ sign = ch "+" ->
  (char_of_byte char_is_signed (to_upper b) =? sign)
    = (char_of_byte char_is_signed b =? sign).
Proof.
  intros Hsign.
  destruct (char_of_byte_upper b) as [-> | (Hb & -> & ->)]; [reflexivity|].
  assert (sign = 45 \/ sign = 43) as Hs by exact Hsign.
  transitivity false; [|symmetry]; apply Z.eqb_neq; lia.
Qed.

Lemma parse_loop_upper (text : list Z) (ov md : Z) (n : nat) :
  forall next r o,
    parse_loop char_is_signed (map to_upper text) T base ov md n next r o
      = parse_loop char_is_signed text T base ov md n next r o.
Proof.
  induction n as [|n IH]; intros next r o; [reflexivity|].
  cbn [parse_loop]. unfold deref. rewrite array_at_map.
  destruct (array_at text next) as [b|]; cbn [option_map of_option bind]; [|reflexivity].
  rewrite digit_from_char_upper.
  destruct (digit_from_char (char_of_byte char_is_signed b)) as [d|];
    cbn [of_option bind]; [|reflexivity].
  destruct (d >=? base); [reflexivity|].
  destruct ((r <? ov) || ((r =? ov) && (d <=? md))); apply IH.
Qed.

Lemma strip_sign_upper (text : list Z) (first last : Z) :
  strip_sign char_is_signed (map to_upper text) T first last
    = strip_sign char_is_signed text T first last.
Proof.
  unfold strip_sign, deref. rewrite array_at_map.
  destruct (is_signed T); [|reflexivity].
  destruct (negb (first =? last)); [|reflexivity].
  destruct (array_at text first) as [b|]; cbn [option_map of_option bind]; [|reflexivity].
  rewrite !sign_test_upper by auto. reflexivity.
Qed.

(** X4. Parsing does not see the case of letters: a range whose
    lower-case letters are replaced by the upper-case ones gives the same
    result, end and value, for every type and base. *)
Theorem parsing_ignores_letter_case (text : list Z) (first last : Z) :
  from_chars_impl char_is_signed (map to_upper text) T base first last
    = from_chars_impl char_is_signed text T base first last.
Proof.
  unfold from_chars_impl. rewrite strip_sign_upper.
  destruct (negb (first <=? last)); [reflexivity|].
  destruct (strip_sign char_is_signed text T first last) as [[neg next]| |];
    cbn [bind]; try reflexivity.
  destruct (next =? last); [reflexivity|].
  now rewrite parse_loop_upper.
Qed.

(** X5. For every character code from 0 to 255 the table lookup is
    defined: the decimal digits give 0 to 9, the letters of either case 10
    to 35, and every other code 255. *)
Theorem digit_table_values (c : Z) :
  0 <= c < 256 ->
  digit_from_char c = Some (digit_value c)
  /\ (0 <= digit_value c <= 35 \/ digit_value c = 255)
  /\ digit_value (to_upper c) = digit_value c.
Proof.
  intros Hc. split; [now apply digit_from_char_in_range|].
  split; [apply digit_value_bound | apply digit_value_upper].
Qed.

End Case.

(** The letter a. *)
Lemma digit_table_values_witness :
  digit_from_char 97 = Some (digit_value 97)
  /\ (0 <= digit_value 97 <= 35 \/ digit_value 97 = 255)
  /\ digit_value (to_upper 97) = digit_value 97.
Proof.
  apply (digit_table_values 97). lia.
Defined.

(** ** What every call returns *)

Section Results.

Variable char_is_signed : bool.
Variable T : Integer.
Variable base : Z.
Hypothesis width_positive : 1 <= width T.

Lemma parse_loop_ptr (text : list Z) (ov md : Z) (n : nat) :
  forall next r o next' r' o',
    parse_loop char_is_signed text T base ov md n next r o = Done (next', r', o') ->
    next <= next' <= next + Z.of_nat n /\ ((0 < n)%nat -> next < next').
Proof.
  induction n as [|n IH]; intros next r o next' r' o'; cbn [parse_loop].
  - intros [= <- _ _]. lia.
  - destruct (deref char_is_signed text next) as [c| |]; cbn [bind]; try discriminate.
    destruct (digit_from_char c) as [d|]; cbn [of_option bind]; [|discriminate].
    destruct (d >=? base); [intros [= <- _ _]; lia|].
    destruct ((r <? ov) || ((r =? ov) && (d <=? md))); intros Hloop;
      apply IH in Hloop; lia.
Qed.

Lemma strip_sign_ptr (text : list Z) (first last : Z) (neg : bool) (next : Z) :
  first <= last ->
  strip_sign char_is_signed text T first last = Done (neg, next) ->
  first <= next <= last.
Proof.
  intros Hle. unfold strip_sign.
  destruct (is_signed T); [|intros [= _ <-]; lia].
  destruct (negb (first =? last)) eqn:Hne; [|intros [= _ <-]; lia].
  apply negb_true_iff, Z.eqb_neq in Hne.
  destruct (deref char_is_signed text first) as [c| |]; cbn [bind]; try discriminate.
  destruct (c =? ch "-"); [intros [= _ <-]; lia|].
  destruct (c =? ch "+"); intros [= _ <-]; lia.
Qed.

Lemma to_Integer_range (x : Z) : numeric_min T <= to_Integer T x <= numeric_max T.
Proof.
  assert (Hw : 2 ^ width T = 2 * 2 ^ (width T - 1))
    by (rewrite <- Z.pow_succ_r by lia; f_equal; lia).
  assert (0 < 2 ^ (width T - 1)) by (apply Z.pow_pos_nonneg; lia).
  unfold to_Integer, to_signed, to_unsigned, numeric_min, numeric_max.
  destruct (is_signed T).
  - pose proof (Z.mod_pos_bound (x + 2 ^ (width T - 1)) (2 ^ width T) ltac:(lia)). lia.
  - pose proof (Z.mod_pos_bound x (2 ^ width T) ltac:(lia)). lia.
Qed.

Lemma apply_sign_range (val v : Z) :
  is_signed T = true ->
  numeric_min T <= val <= numeric_max T ->
  apply_sign T val = Done v ->
  numeric_min T <= v <= numeric_max T.
Proof.
  intros Hs Hval. unfold apply_sign, apply_sign_signed. rewrite Hs.
  destruct (width T <? int_bits).
  - intros [= <-]. pose proof (to_Integer_range (- val)) as Hr.
    unfold to_Integer in Hr. now rewrite Hs in Hr.
  - destruct (val =? numeric_min T) eqn:Heq; [discriminate|].
    apply Z.eqb_neq in Heq. intros [= <-].
    unfold numeric_min, numeric_max in *. rewrite Hs in *. lia.
Qed.

Lemma finish_result (neg : bool) (next r : Z) (o : bool) (res : from_chars_result)
    (v : option Z) :
  finish T neg next r o = Done (res, v) ->
  ptr res = next
  /\ match ec res with
     | errc_ok => exists x, v = Some x /\ numeric_min T <= x <= numeric_max T
     | EINVAL => False
     | ERANGE => v = None
     end.
Proof.
  unfold finish. destruct o; [intros [= <- <-]; cbn; auto|].
  destruct (is_signed T && neg) eqn:Hsn.
  - apply andb_prop in Hsn. destruct Hsn as [Hs _].
    destruct (apply_sign T (to_Integer T r)) as [x| |] eqn:Happly; cbn [bind];
      try discriminate.
    intros [= <- <-]. cbn. split; [reflexivity|]. exists x. split; [reflexivity|].
    exact (apply_sign_range _ _ Hs (to_Integer_range r) Happly).
  - cbn [bind]. intros [= <- <-]. cbn. split; [reflexivity|].
    exists (to_Integer T r). split; [reflexivity | apply to_Integer_range].
Qed.

(** X6. Whatever the range holds, a call that returns keeps to this: on
    [ok] the value is written, it is a value of the type, and the end is
    inside the range and past its first character; on a range error
    nothing is written and the end is likewise inside the range; on an
    invalid argument nothing is written and the end is [first]. *)
Theorem parser_result_invariants (text : list Z) (first last : Z)
    (res : from_chars_result) (v : option Z) :
  from_chars_impl char_is_signed text T base first last = Done (res, v) ->
  match ec res with
  | errc_ok =>
      (exists x, v = Some x /\ numeric_min T <= x <= numeric_max T)
      /\ first < ptr res <= last
  | EINVAL => v = None /\ ptr res = first
  | ERANGE => v = None /\ first < ptr res <= last
  end.
Proof.
  unfold from_chars_impl.
  destruct (negb (first <=? last)) eqn:Hle; [intros [= <- <-]; cbn; auto|].
  apply negb_false_iff, Z.leb_le in Hle.
  destruct (strip_sign char_is_signed text T first last) as [[neg next]| |] eqn:Hs;
    cbn [bind]; try discriminate.
  apply strip_sign_ptr in Hs; [|exact Hle].
  destruct (next =? last) eqn:Hnl; [intros [= <- <-]; cbn; auto|].
  apply Z.eqb_neq in Hnl.
  destruct (parse_loop char_is_signed text T base _ _ _ next 0 false)
    as [[[next' r] o]| |] eqn:Hloop; cbn [bind]; try discriminate.
  apply parse_loop_ptr in Hloop. intros Hfin. apply finish_result in Hfin.
  destruct Hfin as [Hp Hv]. destruct (ec res); rewrite ?Hp; try tauto.
  - split; [exact Hv | lia].
  - split; [exact Hv | lia].
Qed.

End Results.

(** The text 12x in base 10 as an [int]. *)
Lemma parser_result_invariants_witness :
  ((exists x, Some 12 = Some x /\ numeric_min int_t <= x <= numeric_max int_t)
   /\ 0 < 3 <= 3).
Proof.
  refine (parser_result_invariants true int_t 10 _ (chars "12x") 0 3
            {| ptr := 3; ec := errc_ok |} (Some 12) _).
  - cbn. lia.
  - vm_compute. reflexivity.
Defined.

End ParserExtras.

(** * More of the renderers *)

Module RendererExtras.

Import ToChars IEEE Sample Extended RendererSpec RendererFacts.

(** ** Stores *)

Lemma written_bytes (m : mem) (dst : Z) (bs : list Z) :
  written (store_bytes m dst bs) = rev (addresses dst (List.length bs)) ++ written m.
Proof. apply written_store_bytes. Qed.

Lemma addresses_inside (lo hi a : Z) (n : nat) :
  lo <= a -> a + Z.of_nat n <= hi ->
  Forall (fun x => lo <= x < hi) (rev (addresses a n)).
Proof.
  intros Hlo Hhi. apply Forall_rev. unfold addresses.
  apply Forall_forall. intros x Hx. apply in_map_iff in Hx.
  destruct Hx as (i & <- & Hi). apply in_seq in Hi. lia.
Qed.

Lemma while_loop_step {S : Type} (fuel : nat) (step : S -> outcome (S * bool)) (s : S) :
  while_loop (Datatypes.S fuel) step s
    = ('(s', again) <- step s ;;
       if again then while_loop fuel step s' else Done s').
Proof. reflexivity. Qed.

(** ** to_chars_nonfinite *)

Section Nonfinite.

Context {Real : Type} {FP : FloatingPoint Real}.

Lemma geb_true (a b : Z) : b <= a -> (a >=? b) = true.
Proof. intros H. rewrite Z.geb_leb. now apply Z.leb_le. Qed.

Lemma geb_false (a b : Z) : a < b -> (a >=? b) = false.
Proof. intros H. rewrite Z.geb_leb. now apply Z.leb_gt. Qed.

(** X7. For an infinity and for a NaN, other than a signaling NaN with
    the sign bit set, the call succeeds exactly when the buffer holds the
    whole literal; it then stores the literal at [first] and returns the
    address after it.  When the buffer is shorter the call is a range
    error, and the memory is left as it was unless the value is a NaN with
    the sign bit set, whose sign has been stored. *)
Theorem nonfinite_fits_or_fails (m : mem) (first last : Z) (value : Real)
    (classification : fp_class) :
  classification = FP_NAN \/ classification = FP_INFINITE ->
  (classification = FP_NAN -> signbit value = true -> issignaling value = false) ->
  let literal := nonfinite_literal classification (signbit value) (issignaling value) in
  let len := Z.of_nat (List.length literal) in
  let nan_sign :=
    match classification with FP_NAN => signbit value | _ => false end in
  to_chars_nonfinite m first last value classification
    = if len <=? last - first
      then Done (store_bytes m first literal, {| ptr := first + len; ec := errc_ok |})
      else Done (if nan_sign then store m first (ch "-") else m,
                 {| ptr := first + b2z nan_sign; ec := ERANGE |}).
Proof.
  intros Hc Hsnan. unfold to_chars_nonfinite.
  destruct Hc as [-> | ->].
  - destruct (signbit value) eqn:Hs, (issignaling value) eqn:Hsig;
      try (specialize (Hsnan eq_refl eq_refl); discriminate);
      cbn [nonfinite_literal andb negb b2z];
      match goal with
      | |- context [Z.of_nat (List.length ?l) <=? _] =>
          let n := eval vm_compute in (Z.of_nat (List.length l)) in
          change (Z.of_nat (List.length l)) with n
      end;
      match goal with
      | |- context [?k <=? last - first] =>
          destruct (k <=? last - first) eqn:Hk;
          [apply Z.leb_le in Hk | apply Z.leb_gt in Hk]
      end;
      rewrite ?geb_true, ?geb_false by lia; cbn [andb];
      rewrite ?geb_true, ?geb_false by lia; cbn [andb];
      rewrite ?Z.add_0_r; try reflexivity.
    f_equal. f_equal. f_equal. lia.
  - destruct (signbit value) eqn:Hs;
      cbn [nonfinite_literal andb negb b2z];
      match goal with
      | |- context [Z.of_nat (List.length ?l) <=? _] =>
          let n := eval vm_compute in (Z.of_nat (List.length l)) in
          change (Z.of_nat (List.length l)) with n
      end;
      match goal with
      | |- context [?k <=? last - first] =>
          destruct (k <=? last - first) eqn:Hk;
          [apply Z.leb_le in Hk | apply Z.leb_gt in Hk]
      end;
      rewrite ?geb_true, ?geb_false by lia; cbn [andb];
      rewrite ?Z.add_0_r; reflexivity.
Qed.

(** X8. A signaling NaN with the sign bit set, in a buffer of exactly
    nine bytes, does not fit as [-nan(snan)]; the call falls through to
    the next branch and renders it as the quiet literal [-nan(ind)],
    successfully. *)
Theorem negative_signaling_nan_in_nine_bytes (m : mem) (first last : Z) (value : Real) :
  signbit value = true ->
  issignaling value = true ->
  last - first = 9 ->
  to_chars_nonfinite m first last value FP_NAN
    = Done (store_bytes m first (chars "-nan(ind)"),
            {| ptr := first + 9; ec := errc_ok |}).
Proof.
  intros Hs Hsig Hsize. unfold to_chars_nonfinite. rewrite Hs, Hsig, Hsize.
  cbn [b2z andb]. change (9 >=? 9 + 1) with false. change (9 >=? 9) with true.
  cbv iota. f_equal. f_equal. f_equal. lia.
Qed.

(** The memory a call leaves: the one it found, that with the sign
    stored, or that with bytes stored from [first] on that fit. *)
Lemma nonfinite_memory (m m' : mem) (first last : Z) (value : Real)
    (classification : fp_class) (r : to_chars_result) :
  to_chars_nonfinite m first last value classification = Done (m', r) ->
  m' = m
  \/ m' = store m first (ch "-")
  \/ exists bs, m' = store_bytes m first bs /\ Z.of_nat (List.length bs) <= last - first.
Proof.
  unfold to_chars_nonfinite, memcpy.
  destruct classification; try discriminate;
    destruct (signbit value), (issignaling value); cbn [b2z andb negb];
    repeat match goal with
           | |- context [?a >=? ?b] =>
               destruct (a >=? b) eqn:?; cbn [andb]
           end;
    intros [= <- _];
    repeat match goal with
           | H : (_ >=? _) = true |- _ => rewrite Z.geb_leb in H; apply Z.leb_le in H
           | H : (_ >=? _) = false |- _ => clear H
           end;
    first [ left; reflexivity
          | right; left; reflexivity
          | right; right;
            first [ exists (chars "-nan(snan)"); split; [reflexivity | cbn; lia]
                  | exists (chars "nan(snan)"); split; [reflexivity | cbn; lia]
                  | exists (chars "-nan(ind)"); split; [reflexivity | cbn; lia]
                  | exists (chars "nan"); split; [reflexivity | cbn; lia]
                  | exists (chars "-inf"); split; [reflexivity | cbn; lia]
                  | exists (chars "inf"); split; [reflexivity | cbn; lia] ] ].
Qed.

(** X9. Into a buffer that is not empty the call never stores outside
    the buffer, whether it succeeds or fails. *)
Theorem nonfinite_stays_in_buffer (m m' : mem) (first last : Z) (value : Real)
    (classification : fp_class) (r : to_chars_result) :
  first < last ->
  to_chars_nonfinite m first last value classification = Done (m', r) ->
  exists new, stored m m' new /\ Forall (fun a => first <= a < last) new.
Proof.
  intros Hne Hcall. unfold stored.
  destruct (nonfinite_memory _ _ _ _ _ _ _ Hcall) as [-> | [-> | (bs & -> & Hlen)]].
  - exists []. split; [reflexivity | constructor].
  - exists [first]. split; [reflexivity | repeat constructor; lia].
  - exists (rev (addresses first (List.length bs))).
    split; [apply written_bytes | apply addresses_inside; lia].
Qed.

End Nonfinite.

(** The [double] positive infinity and ten bytes. *)
Lemma nonfinite_fits_or_fails_witness :
  to_chars_nonfinite blank 0 10 ({| bits64 := 0x7FF0000000000000 |} : float64) FP_INFINITE
    = Done (store_bytes blank 0 (chars "inf"), {| ptr := 3; ec := errc_ok |}).
Proof.
  refine (nonfinite_fits_or_fails (FP := double_FloatingPoint) blank 0 10
            {| bits64 := 0x7FF0000000000000 |} FP_INFINITE _ _).
  - right. reflexivity.
  - discriminate.
Defined.

(** A negative signaling NaN of [double] and nine bytes. *)
Lemma negative_signaling_nan_in_nine_bytes_witness :
  to_chars_nonfinite blank 0 9 ({| bits64 := 0xFFF0000000000001 |} : float64) FP_NAN
    = Done (store_bytes blank 0 (chars "-nan(ind)"), {| ptr := 0 + 9; ec := errc_ok |}).
Proof.
  apply (negative_signaling_nan_in_nine_bytes (FP := double_FloatingPoint) blank 0 9
           {| bits64 := 0xFFF0000000000001 |}).
  - vm_compute. reflexivity.
  - vm_compute. reflexivity.
  - reflexivity.
Defined.

(** The [double] negative infinity and ten bytes. *)
Lemma nonfinite_stays_in_buffer_witness :
  exists new,
    stored blank (store_bytes blank 0 (chars "-inf")) new
    /\ Forall (fun a => 0 <= a < 10) new.
Proof.
  refine (nonfinite_stays_in_buffer (FP := double_FloatingPoint) blank
            (store_bytes blank 0 (chars "-inf")) 0 10
            {| bits64 := 0xFFF0000000000000 |} FP_INFINITE
            {| ptr := 4; ec := errc_ok |} _ _).
  - lia.
  - vm_compute. reflexivity.
Defined.

(** ** to_chars_hex: the fields of a [double] *)

Section HexFieldsDouble.

Import IEEE.

Lemma double_fields (bits : Z) :
  0 <= bits < 2 ^ 64 ->
  exists sgn,
    (sgn = 0 \/ sgn = 1)
    /\ bits / 2 ^ 52 = 2048 * sgn + exponent_field 11 52 bits
    /\ sign_field 11 52 bits = (sgn =? 1)
    /\ 0 <= exponent_field 11 52 bits < 2048
    /\ 0 <= fraction_field 52 bits < 2 ^ 52.
Proof.
  intros Hb. unfold exponent_field, fraction_field, sign_field.
  change (2 ^ 11) with 2048. change (11 + 52) with 63.
  set (x := bits / 2 ^ 52).
  assert (Hx : 0 <= x < 4096).
  { unfold x. split; [apply Z.div_pos; lia|].
    apply Z.div_lt_upper_bound; [lia|]. change (2 ^ 52 * 4096) with (2 ^ 64). lia. }
  assert (Hs : bits / 2 ^ 63 = x / 2048).
  { unfold x. rewrite Z.div_div by lia. reflexivity. }
  exists (x / 2048).
  pose proof (Z.div_mod x 2048 ltac:(lia)).
  pose proof (Z.mod_pos_bound x 2048 ltac:(lia)).
  pose proof (Z.mod_pos_bound bits (2 ^ 52) ltac:(lia)).
  assert (0 <= x / 2048 < 2)
    by (split; [apply Z.div_pos; lia | apply Z.div_lt_upper_bound; lia]).
  repeat split; try lia.
  rewrite testbit_odd_div, Hs by lia.
  assert (x / 2048 = 0 \/ x / 2048 = 1) as [-> | ->] by lia; reflexivity.
Qed.

Lemma lor_implicit_bit (f k : Z) :
  0 <= k -> 0 <= f < 2 ^ k -> Z.lor f (2 ^ k) = 2 ^ k + f.
Proof.
  intros Hk Hf. pose proof (Z.add_lor_land f (2 ^ k)) as Hadd.
  rewrite land_pow2 in Hadd by lia.
  replace (Z.testbit f k) with false in Hadd; [lia|].
  symmetry. destruct (Z.eq_dec f 0) as [->|Hnz]; [apply Z.bits_0|].
  apply Z.bits_above_log2; [lia|]. apply Z.log2_lt_pow2; lia.
Qed.

(** What lines 282-346 compute for a [double]. *)
Lemma double_aligned (bits : Z) (fuel : nat) :
  0 <= bits < 2 ^ 64 ->
  let e := exponent_field 11 52 bits in
  let f := fraction_field 52 bits in
  let s := sign_field 11 52 bits in
  e <= 2046 ->
  exists raw,
    align_significand {| bits64 := bits |}
      = Done (f, if (e =? 0) && negb s && negb (f =? 0) then f else 2 ^ 52 + f, raw)
    /\ wrap_exponent (Real := float64) fuel raw
       = Done (if (e =? 0) && negb s && negb (f =? 0) then -1022 else e - 1023).
Proof.
  intros Hb e f s He.
  destruct (double_fields bits Hb) as (sgn & Hsgn & Hx & Hs & Hef & Hff).
  fold e in Hx, Hef. fold f in Hff. fold s in Hs.
  unfold align_significand.
  cbn [real_type significand_bits exponent_bias object_bits double_FloatingPoint
       bits64 Unsigned_Integer_bits Real_type_eqb extract_exp hex_bits hex_precision].
  change (shl 64 1 52) with (Done (2 ^ 52)). cbn [bind].
  change (to_uint 64 (2 ^ 52 - 1)) with (Z.ones 52).
  rewrite Z.land_ones by lia. fold (fraction_field 52 bits). fold f.
  unfold shr. change ((0 <=? 52) && (52 <? 64)) with true. cbv iota. cbn [bind].
  rewrite Z.shiftr_div_pow2, Hx by lia.
  assert (Hsmall : to_uint 64 (2048 * sgn + e) = 2048 * sgn + e)
    by (unfold to_uint; apply Z.mod_small; lia).
  rewrite Hsmall.
  change (hex_bits double) with 52. change (shl 64 1 52) with (Done (2 ^ 52)).
  cbn [bind]. rewrite lor_implicit_bit by lia.
  destruct (e =? 0) eqn:He0; [apply Z.eqb_eq in He0 | apply Z.eqb_neq in He0];
    destruct Hsgn as [-> | ->]; rewrite Hs; cbn [Z.eqb negb andb].
  - replace (2048 * 0 + e =? 0) with true by (symmetry; apply Z.eqb_eq; lia).
    cbn [andb]. destruct (f =? 0) eqn:Hf0; cbn [negb].
    + eexists. split; [reflexivity|].
      unfold wrap_exponent. cbn [real_type double_FloatingPoint].
      rewrite He0. reflexivity.
    + eexists. split; [reflexivity|].
      unfold wrap_exponent. cbn [real_type double_FloatingPoint]. reflexivity.
  - replace (2048 * 1 + e =? 0) with false by (symmetry; apply Z.eqb_neq; lia).
    cbn [andb]. eexists. split; [reflexivity|].
    unfold wrap_exponent. cbn [real_type double_FloatingPoint].
    rewrite He0. reflexivity.
  - replace (2048 * 0 + e =? 0) with false by (symmetry; apply Z.eqb_neq; lia).
    cbn [andb]. eexists. split; [reflexivity|].
    unfold wrap_exponent. cbn [real_type double_FloatingPoint].
    unfold to_sint. rewrite Z.mod_small by lia.
    replace (2048 * 0 + e + -1023 + 2 ^ (64 - 1) - 2 ^ (64 - 1) >? 1023) with false
      by (symmetry; rewrite Z.gtb_ltb; apply Z.ltb_ge; lia).
    f_equal. lia.
  - replace (2048 * 1 + e =? 0) with false by (symmetry; apply Z.eqb_neq; lia).
    cbn [andb]. eexists. split; [reflexivity|].
    unfold wrap_exponent. cbn [real_type double_FloatingPoint].
    unfold to_sint. rewrite Z.mod_small by lia.
    replace (2048 * 1 + e + -1023 + 2 ^ (64 - 1) - 2 ^ (64 - 1) >? 1023) with true
      by (symmetry; rewrite Z.gtb_ltb; apply Z.ltb_lt; lia).
    f_equal. lia.
Qed.

(** X10. For every finite [double] other than the zeros and the negative
    subnormal values, the significand [to_chars_hex] aligns and the
    exponent it ends with denote the magnitude of the value exactly:
    [|value| = aligned * 2 ^ (exponent - 52)], for either sign. *)
Theorem hex_fields_denote_the_double (bits : Z) (fuel : nat) :
  0 <= bits < 2 ^ 64 ->
  let e := exponent_field 11 52 bits in
  let f := fraction_field 52 bits in
  let s := sign_field 11 52 bits in
  1 <= e <= 2046 \/ (e = 0 /\ s = false /\ f <> 0) ->
  exists aligned raw exponent,
    align_significand {| bits64 := bits |} = Done (f, aligned, raw)
    /\ wrap_exponent (Real := float64) fuel raw = Done exponent
    /\ decode 11 52 bits = Fin s (inject_Z aligned * pow2 (exponent - 52)).
Proof.
  intros Hb e f s Hcase.
  assert (He : e <= 2046) by lia.
  destruct (double_aligned bits fuel Hb He) as (raw & Halign & Hwrap).
  fold e f s in Halign, Hwrap.
  do 3 eexists. split; [exact Halign|]. split; [exact Hwrap|].
  unfold decode. fold e f s. change (2 ^ 11 - 1) with 2047. change (bias 11) with 1023.
  replace (e =? 2047) with false by (symmetry; apply Z.eqb_neq; lia).
  destruct Hcase as [Hn | (He0 & Hs & Hf)].
  - replace (e =? 0) with false by (symmetry; apply Z.eqb_neq; lia).
    cbn [andb]. reflexivity.
  - rewrite He0, Hs. apply Z.eqb_neq in Hf. rewrite Hf. cbn [Z.eqb andb negb].
    reflexivity.
Qed.

(** X11. For a negative subnormal [double] the exponent field read with
    the sign bit above it is not zero, so the value is taken for a normal
    one: the implicit bit is set in the significand and the exponent is
    -1023, whereas the value is [-f * 2 ^ -1074]. *)
Theorem hex_fields_of_negative_subnormal_double (bits : Z) (fuel : nat) :
  0 <= bits < 2 ^ 64 ->
  let f := fraction_field 52 bits in
  exponent_field 11 52 bits = 0 ->
  sign_field 11 52 bits = true ->
  f <> 0 ->
  exists raw,
    align_significand {| bits64 := bits |} = Done (f, 2 ^ 52 + f, raw)
    /\ wrap_exponent (Real := float64) fuel raw = Done (-1023)
    /\ decode 11 52 bits = Fin true (inject_Z f * pow2 (-1074)).
Proof.
  intros Hb f He Hs Hf.
  destruct (double_aligned bits fuel Hb ltac:(lia)) as (raw & Halign & Hwrap).
  fold f in Halign, Hwrap. rewrite He, Hs in Halign, Hwrap.
  cbn [Z.eqb negb andb] in Halign, Hwrap.
  exists raw. split; [exact Halign|]. split; [exact Hwrap|].
  unfold decode. rewrite He, Hs. fold f. apply Z.eqb_neq in Hf.
  reflexivity.
Qed.

End HexFieldsDouble.

(** The [double] 1.5. *)
Lemma hex_fields_denote_the_double_witness :
  exists aligned raw exponent,
    align_significand ({| bits64 := 0x3FF8000000000000 |} : float64)
      = Done (fraction_field 52 0x3FF8000000000000, aligned, raw)
    /\ wrap_exponent (Real := float64) 1 raw = Done exponent
    /\ decode 11 52 0x3FF8000000000000
       = Fin (sign_field 11 52 0x3FF8000000000000)
             (inject_Z aligned * pow2 (exponent - 52)).
Proof.
  refine (hex_fields_denote_the_double 0x3FF8000000000000 1 _ _).
  - lia.
  - left. vm_compute. split; discriminate.
Defined.

(** The smallest negative subnormal [double]. *)
Lemma hex_fields_of_negative_subnormal_double_witness :
  exists raw,
    align_significand ({| bits64 := 0x8000000000000001 |} : float64)
      = Done (fraction_field 52 0x8000000000000001,
              2 ^ 52 + fraction_field 52 0x8000000000000001, raw)
    /\ wrap_exponent (Real := float64) 1 raw = Done (-1023)
    /\ decode 11 52 0x8000000000000001
       = Fin true (inject_Z (fraction_field 52 0x8000000000000001) * pow2 (-1074)).
Proof.
  refine (hex_fields_of_negative_subnormal_double 0x8000000000000001 1 _ _ _ _).
  - lia.
  - vm_compute. reflexivity.
  - vm_compute. reflexivity.
  - vm_compute. discriminate.
Defined.

(** ** to_chars_hex: the fields of a [float] *)

Section HexFieldsFloat.

Import IEEE.

Lemma pow2_succ (k : Z) : pow2 (k + 1) == 2 * pow2 k.
Proof.
  unfold pow2.
  destruct (0 <=? k) eqn:Hk; [apply Z.leb_le in Hk | apply Z.leb_gt in Hk].
  - replace (0 <=? k + 1) with true by (symmetry; apply Z.leb_le; lia).
    rewrite Z.pow_add_r, Z.pow_1_r by lia.
    unfold Qeq. cbn [Qnum Qden Qmult inject_Z]. lia.
  - destruct (Z.eq_dec k (-1)) as [->|Hne]; [reflexivity|].
    replace (0 <=? k + 1) with false by (symmetry; apply Z.leb_gt; lia).
    assert (Hp : 0 < 2 ^ (- (k + 1))) by (apply Z.pow_pos_nonneg; lia).
    assert (Hq : 2 ^ (- k) = 2 * 2 ^ (- (k + 1))).
    { rewrite <- Z.pow_succ_r by lia. f_equal. lia. }
    unfold Qeq. cbn [Qnum Qden Qmult]. rewrite !Z2Pos.id by lia. lia.
Qed.

Lemma float_fields (bits : Z) :
  0 <= bits < 2 ^ 32 ->
  exists sgn,
    (sgn = 0 \/ sgn = 1)
    /\ bits / 2 ^ 23 = 256 * sgn + exponent_field 8 23 bits
    /\ sign_field 8 23 bits = (sgn =? 1)
    /\ 0 <= exponent_field 8 23 bits < 256
    /\ 0 <= fraction_field 23 bits < 2 ^ 23.
Proof.
  intros Hb. unfold exponent_field, fraction_field, sign_field.
  change (2 ^ 8) with 256. change (8 + 23) with 31.
  set (x := bits / 2 ^ 23).
  assert (Hx : 0 <= x < 512).
  { unfold x. split; [apply Z.div_pos; lia|].
    apply Z.div_lt_upper_bound; [lia|]. change (2 ^ 23 * 512) with (2 ^ 32). lia. }
  assert (Hs : bits / 2 ^ 31 = x / 256).
  { unfold x. rewrite Z.div_div by lia. reflexivity. }
  exists (x / 256).
  pose proof (Z.div_mod x 256 ltac:(lia)).
  pose proof (Z.mod_pos_bound x 256 ltac:(lia)).
  pose proof (Z.mod_pos_bound bits (2 ^ 23) ltac:(lia)).
  assert (0 <= x / 256 < 2)
    by (split; [apply Z.div_pos; lia | apply Z.div_lt_upper_bound; lia]).
  repeat split; try lia.
  rewrite testbit_odd_div, Hs by lia.
  assert (x / 256 = 0 \/ x / 256 = 1) as [-> | ->] by lia; reflexivity.
Qed.

(** What lines 282-339 compute for a [float]: the fraction is shifted
    left by one bit to fill six hexadecimal digits. *)
Lemma float_aligned (bits : Z) (fuel : nat) :
  0 <= bits < 2 ^ 32 ->
  let e := exponent_field 8 23 bits in
  let f := fraction_field 23 bits in
  let s := sign_field 8 23 bits in
  e <= 254 ->
  exists raw,
    align_significand {| bits32 := bits |}
      = Done (f, if (e =? 0) && negb s && negb (f =? 0) then 2 * f else 2 ^ 24 + 2 * f,
              raw)
    /\ wrap_exponent (Real := float32) fuel raw
       = Done (if (e =? 0) && negb s && negb (f =? 0) then -126 else e - 127).
Proof.
  intros Hb e f s He.
  destruct (float_fields bits Hb) as (sgn & Hsgn & Hx & Hs & Hef & Hff).
  fold e in Hx, Hef. fold f in Hff. fold s in Hs.
  unfold align_significand.
  cbn [real_type significand_bits exponent_bias object_bits float_FloatingPoint
       bits32 Unsigned_Integer_bits Real_type_eqb extract_exp].
  change (shl 32 1 23) with (Done (2 ^ 23)). cbn [bind].
  change (to_uint 32 (2 ^ 23 - 1)) with (Z.ones 23).
  rewrite Z.land_ones by lia. fold (fraction_field 23 bits). fold f.
  unfold shr. change ((0 <=? 23) && (23 <? 32)) with true. cbv iota. cbn [bind].
  rewrite Z.shiftr_div_pow2, Hx by lia.
  assert (Hsmall : to_uint 64 (256 * sgn + e) = 256 * sgn + e)
    by (unfold to_uint; apply Z.mod_small; lia).
  rewrite Hsmall.
  assert (Hshift : shl 32 f 1 = Done (2 * f)).
  { unfold shl, to_uint. change ((0 <=? 1) && (1 <? 32)) with true. cbv iota.
    rewrite Z.shiftl_mul_pow2, Z.pow_1_r, Z.mod_small by lia. f_equal. lia. }
  rewrite Hshift. cbn [bind].
  change (hex_bits float) with 24. change (shl 32 1 24) with (Done (2 ^ 24)).
  cbn [bind]. rewrite lor_implicit_bit by lia.
  destruct (e =? 0) eqn:He0; [apply Z.eqb_eq in He0 | apply Z.eqb_neq in He0];
    destruct Hsgn as [-> | ->]; rewrite Hs; cbn [Z.eqb negb andb].
  - replace (256 * 0 + e =? 0) with true by (symmetry; apply Z.eqb_eq; lia).
    cbn [andb]. destruct (f =? 0) eqn:Hf0; cbn [negb].
    + eexists. split; [reflexivity|].
      unfold wrap_exponent. cbn [real_type float_FloatingPoint].
      rewrite He0. reflexivity.
    + eexists. split; [reflexivity|].
      unfold wrap_exponent. cbn [real_type float_FloatingPoint]. reflexivity.
  - replace (256 * 1 + e =? 0) with false by (symmetry; apply Z.eqb_neq; lia).
    cbn [andb]. eexists. split; [reflexivity|].
    unfold wrap_exponent. cbn [real_type float_FloatingPoint].
    rewrite He0. reflexivity.
  - replace (256 * 0 + e =? 0) with false by (symmetry; apply Z.eqb_neq; lia).
    cbn [andb]. eexists. split; [reflexivity|].
    unfold wrap_exponent. cbn [real_type float_FloatingPoint].
    unfold to_sint. rewrite Z.mod_small by lia.
    replace (256 * 0 + e + -127 + 2 ^ (64 - 1) - 2 ^ (64 - 1) >? 127) with false
      by (symmetry; rewrite Z.gtb_ltb; apply Z.ltb_ge; lia).
    f_equal. lia.
  - replace (256 * 1 + e =? 0) with false by (symmetry; apply Z.eqb_neq; lia).
    cbn [andb]. eexists. split; [reflexivity|].
    unfold wrap_exponent. cbn [real_type float_FloatingPoint].
    unfold to_sint. rewrite Z.mod_small by lia.
    replace (256 * 1 + e + -127 + 2 ^ (64 - 1) - 2 ^ (64 - 1) >? 127) with true
      by (symmetry; rewrite Z.gtb_ltb; apply Z.ltb_lt; lia).
    f_equal. lia.
Qed.

Lemma doubled (a k : Z) :
  inject_Z a * pow2 (k - 23) == inject_Z (2 * a) * pow2 (k - 24).
Proof.
  replace (k - 23) with (k - 24 + 1) by lia.
  rewrite pow2_succ, inject_Z_mult. change (inject_Z 2) with 2%Q. ring.
Qed.

(** X12. For every finite [float] other than the zeros and the negative
    subnormal values, the significand [to_chars_hex] aligns -- the
    fraction moved up by one bit -- and the exponent it ends with denote
    the magnitude of the value exactly:
    [|value| = aligned * 2 ^ (exponent - 24)], for either sign. *)
Theorem hex_fields_denote_the_float (bits : Z) (fuel : nat) :
  0 <= bits < 2 ^ 32 ->
  let e := exponent_field 8 23 bits in
  let f := fraction_field 23 bits in
  let s := sign_field 8 23 bits in
  1 <= e <= 254 \/ (e = 0 /\ s = false /\ f <> 0) ->
  exists aligned raw exponent magnitude,
    align_significand {| bits32 := bits |} = Done (f, aligned, raw)
    /\ wrap_exponent (Real := float32) fuel raw = Done exponent
    /\ decode 8 23 bits = Fin s magnitude
    /\ magnitude == inject_Z aligned * pow2 (exponent - 24).
Proof.
  intros Hb e f s Hcase.
  assert (He : e <= 254) by lia.
  destruct (float_aligned bits fuel Hb He) as (raw & Halign & Hwrap).
  fold e f s in Halign, Hwrap.
  assert (Hdecode : decode 8 23 bits
                    = if e =? 0 then Fin s (inject_Z f * pow2 (1 - 127 - 23))
                      else Fin s (inject_Z (2 ^ 23 + f) * pow2 (e - 127 - 23))).
  { unfold decode. fold e f s. change (2 ^ 8 - 1) with 255. change (bias 8) with 127.
    replace (e =? 255) with false by (symmetry; apply Z.eqb_neq; lia).
    reflexivity. }
  destruct Hcase as [Hn | (He0 & Hs & Hf)].
  - replace (e =? 0) with false in * by (symmetry; apply Z.eqb_neq; lia).
    cbn [andb] in Halign, Hwrap.
    do 4 eexists. split; [exact Halign|]. split; [exact Hwrap|].
    split; [exact Hdecode|].
    replace (2 ^ 24 + 2 * f) with (2 * (2 ^ 23 + f)) by lia.
    apply doubled.
  - rewrite He0, Hs in *. apply Z.eqb_neq in Hf. rewrite Hf in *.
    cbn [Z.eqb andb negb] in Halign, Hwrap, Hdecode.
    do 4 eexists. split; [exact Halign|]. split; [exact Hwrap|].
    split; [exact Hdecode|].
    exact (doubled f (-126)).
Qed.

End HexFieldsFloat.

(** The [float] 1.5. *)
Lemma hex_fields_denote_the_float_witness :
  exists aligned raw exponent magnitude,
    align_significand ({| bits32 := 0x3FC00000 |} : float32)
      = Done (fraction_field 23 0x3FC00000, aligned, raw)
    /\ wrap_exponent (Real := float32) 1 raw = Done exponent
    /\ decode 8 23 0x3FC00000 = Fin (sign_field 8 23 0x3FC00000) magnitude
    /\ magnitude == inject_Z aligned * pow2 (exponent - 24).
Proof.
  refine (hex_fields_denote_the_float 0x3FC00000 1 _ _).
  - lia.
  - left. vm_compute. split; discriminate.
Defined.

(** ** to_chars_fixed_impl: rounding to a precision *)

Section FixedRounding.

Context {Real : Type} {FP : FloatingPoint Real} {CO : Collaborators Real}.

(** The loop that drops digits runs [num_dig - limit] times. *)
Lemma drop_loop_value (limit : Z) (j : nat) :
  forall fuel s e nd,
    (j < fuel)%nat ->
    Z.of_nat j = Z.max 0 (nd - limit) ->
    INT_MIN <= e -> e + Z.of_nat j <= INT_MAX ->
    INT_MIN <= nd - Z.of_nat j -> nd <= INT_MAX ->
    while_loop fuel (drop_digit_step limit) (s, e, nd)
      = Done (s / 10 ^ Z.of_nat j, e + Z.of_nat j, nd - Z.of_nat j).
Proof.
  induction j as [|j IH]; intros fuel s e nd Hfuel Hj He1 He2 Hn1 Hn2;
    (destruct fuel as [|fuel]; [lia|]); cbn [while_loop]; unfold drop_digit_step at 1.
  - replace (nd >? limit) with false by (symmetry; rewrite Z.gtb_ltb; apply Z.ltb_ge; lia).
    cbn [bind]. change (Z.of_nat 0) with 0.
    rewrite Z.pow_0_r, Z.div_1_r, !Z.add_0_r, Z.sub_0_r. reflexivity.
  - replace (nd >? limit) with true by (symmetry; rewrite Z.gtb_ltb; apply Z.ltb_lt; lia).
    rewrite !int_in_range by lia. cbn [bind].
    rewrite (IH fuel (s / 10) (e + 1) (nd - 1)) by lia.
    rewrite Z.div_div, <- Z.pow_succ_r by lia.
    rewrite Nat2Z.inj_succ.
    replace (e + 1 + Z.of_nat j) with (e + Z.succ (Z.of_nat j)) by lia.
    replace (nd - 1 - Z.of_nat j) with (nd - Z.succ (Z.of_nat j)) by lia.
    reflexivity.
Qed.

(** Dropping [k - 1] digits and rounding on the next one is rounding
    [s / 10 ^ k] to the nearest integer, a half upwards. *)
Lemma round_on_next_digit (s k : Z) :
  1 <= k ->
  let t := s / 10 ^ (k - 1) in
  (if t mod 10 >=? 5 then t / 10 + 1 else t / 10) = round_half_up s k.
Proof.
  intros Hk t. unfold round_half_up.
  assert (HP : 0 < 10 ^ (k - 1)) by (apply Z.pow_pos_nonneg; lia).
  replace (10 ^ k) with (10 ^ (k - 1) * 10)
    by (rewrite Z.mul_comm, <- Z.pow_succ_r by lia; f_equal; lia).
  rewrite <- Z.div_div by lia.
  rewrite Z.div_add by lia. fold t.
  pose proof (Z.div_mod t 10 ltac:(lia)) as Ht.
  pose proof (Z.mod_pos_bound t 10 ltac:(lia)) as Hr.
  destruct (t mod 10 >=? 5) eqn:Hge; rewrite Z.geb_leb in Hge;
    [apply Z.leb_le in Hge | apply Z.leb_gt in Hge].
  - apply Z.div_unique with (r := t mod 10 - 5); lia.
  - apply Z.div_unique with (r := t mod 10 + 5); lia.
Qed.

(** The rounding block: the triple left by the two first steps, and for
    [general] the loop that strips zeros run on it. *)
Lemma rounded (fuel : nat) (value_struct : decimal_fp) (fmt : chars_format) (precision : Z) :
  let s := significand value_struct in
  let e := exponent value_struct in
  let nd := num_digits s in
  let k := nd - precision - 1 in
  0 <= precision <= INT_MAX - 2 ->
  INT_MIN + 1 < nd <= INT_MAX ->
  (Z.to_nat k <= fuel)%nat -> (0 < fuel)%nat ->
  INT_MIN <= e -> e + Z.max 0 k <= INT_MAX ->
  round_to_precision fuel value_struct fmt precision
    = let t := if nd <? precision + 2 then (s, e, nd)
               else (round_half_up s k, e + k, precision + 1) in
      if chars_format_eqb fmt general then while_loop fuel strip_zero_step t
      else Done t.
Proof.
  intros s e nd k Hp Hnd Hfuel Hfuel0 He1 He2. unfold round_to_precision.
  fold s e nd.
  assert (HI : INT_MIN < -1 /\ 2 < INT_MAX) by (cbv; split; reflexivity).
  rewrite int_in_range by lia. cbn [bind].
  rewrite (drop_loop_value (precision + 2) (Z.to_nat (nd - (precision + 2)))) by lia.
  cbn [bind].
  destruct (nd <? precision + 2) eqn:Hlt; [apply Z.ltb_lt in Hlt | apply Z.ltb_ge in Hlt].
  - replace (Z.of_nat (Z.to_nat (nd - (precision + 2)))) with 0 by lia.
    rewrite Z.pow_0_r, Z.div_1_r, Z.add_0_r, Z.sub_0_r.
    replace (nd =? precision + 2) with false by (symmetry; apply Z.eqb_neq; lia).
    reflexivity.
  - replace (Z.of_nat (Z.to_nat (nd - (precision + 2)))) with (k - 1) by lia.
    replace (nd - (k - 1) =? precision + 2) with true by (symmetry; apply Z.eqb_eq; lia).
    rewrite !int_in_range by lia. cbn [bind].
    rewrite (round_on_next_digit s k) by lia.
    replace (e + (k - 1) + 1) with (e + k) by lia.
    replace (nd - (k - 1) - 1) with (precision + 1) by lia.
    reflexivity.
Qed.

(** X13. With a precision [p] and a notation other than [general], a
    significand that [num_digits] counts [p + 2] digits or more for is cut
    to [p + 1] digits: it is divided by [10 ^ k], [k] the number of
    digits beyond [p + 1], and rounded to the nearest integer, a half
    upwards, and the exponent is raised by [k].  A significand with fewer
    digits is left as it is. *)
Theorem precision_rounds_half_up (fuel : nat) (value_struct : decimal_fp)
    (fmt : chars_format) (precision : Z) :
  fmt <> general ->
  let s := significand value_struct in
  let e := exponent value_struct in
  let nd := num_digits s in
  let k := nd - precision - 1 in
  0 <= precision <= INT_MAX - 2 ->
  INT_MIN + 1 < nd <= INT_MAX ->
  (Z.to_nat k <= fuel)%nat -> (0 < fuel)%nat ->
  INT_MIN <= e -> e + Z.max 0 k <= INT_MAX ->
  round_to_precision fuel value_struct fmt precision
    = Done (if nd <? precision + 2 then (s, e, nd)
            else (round_half_up s k, e + k, precision + 1)).
Proof.
  intros Hfmt s e nd k Hp Hnd Hfuel Hfuel0 He1 He2.
  rewrite (rounded fuel value_struct fmt precision) by assumption.
  destruct fmt; try congruence; reflexivity.
Qed.

(** The loop that strips trailing zeros, on a significand that is not
    zero: it divides by ten as long as the last digit is zero. *)
Lemma strip_loop_value (fuel : nat) :
  forall s e nd,
    0 < s < 10 ^ Z.of_nat fuel ->
    INT_MIN <= e -> e + Z.of_nat fuel <= INT_MAX ->
    INT_MIN <= nd - Z.of_nat fuel -> nd <= INT_MAX ->
    exists j,
      0 <= j <= Z.of_nat fuel
      /\ while_loop (S fuel) strip_zero_step (s, e, nd) = Done (s / 10 ^ j, e + j, nd - j)
      /\ s = s / 10 ^ j * 10 ^ j
      /\ (s / 10 ^ j) mod 10 <> 0.
Proof.
  induction fuel as [|fuel IH]; intros s e nd Hs He1 He2 Hn1 Hn2.
  - cbn in Hs. lia.
  - rewrite while_loop_step. unfold strip_zero_step at 1.
    destruct (s mod 10 =? 0) eqn:Hmod;
      [apply Z.eqb_eq in Hmod | apply Z.eqb_neq in Hmod].
    + rewrite !int_in_range by lia. cbn [bind].
      pose proof (Z.div_mod s 10 ltac:(lia)) as Hdm.
      assert (Hq : 0 < s / 10 < 10 ^ Z.of_nat fuel).
      { rewrite Nat2Z.inj_succ, Z.pow_succ_r in Hs by lia. lia. }
      destruct (IH (s / 10) (e + 1) (nd - 1) Hq) as (j & Hj & Hloop & Hval & Hlast);
        try lia.
      exists (j + 1). split; [lia|].
      assert (Hpow : 10 ^ (j + 1) = 10 * 10 ^ j)
        by (replace (j + 1) with (Z.succ j) by lia; rewrite Z.pow_succ_r by lia;
            reflexivity).
      assert (Hdiv : s / 10 ^ (j + 1) = s / 10 / 10 ^ j)
        by (rewrite Hpow, Z.div_div; [reflexivity | lia | apply Z.pow_pos_nonneg; lia]).
      rewrite Hdiv. split; [|split; [|exact Hlast]].
      * rewrite Hloop.
        replace (e + 1 + j) with (e + (j + 1)) by lia.
        replace (nd - 1 - j) with (nd - (j + 1)) by lia.
        reflexivity.
      * rewrite Hpow. lia.
    + cbn [bind]. exists 0. rewrite Z.pow_0_r, Z.div_1_r, !Z.add_0_r, Z.sub_0_r.
      repeat split; lia.
Qed.

(** X14. In [general] notation with a precision, the significand left by
    the rounding, when it is not zero, loses its trailing zeros and the
    exponent is raised by their number: the value denoted stays the same
    and the last digit of the result is not zero. *)
Theorem general_strips_trailing_zeros (fuel : nat) (value_struct : decimal_fp)
    (precision : Z) :
  let s := significand value_struct in
  let e := exponent value_struct in
  let nd := num_digits s in
  let k := nd - precision - 1 in
  let s' := if nd <? precision + 2 then s else round_half_up s k in
  let e' := if nd <? precision + 2 then e else e + k in
  let nd' := if nd <? precision + 2 then nd else precision + 1 in
  0 <= precision <= INT_MAX - 2 ->
  INT_MIN + 1 < nd <= INT_MAX ->
  (Z.to_nat k <= fuel)%nat ->
  0 < s' < 10 ^ Z.of_nat fuel ->
  INT_MIN <= e -> e + Z.max 0 k + Z.of_nat fuel <= INT_MAX ->
  INT_MIN <= nd' - Z.of_nat fuel ->
  exists j,
    0 <= j
    /\ round_to_precision (S fuel) value_struct general precision
       = Done (s' / 10 ^ j, e' + j, nd' - j)
    /\ s' = s' / 10 ^ j * 10 ^ j
    /\ (s' / 10 ^ j) mod 10 <> 0.
Proof.
  intros s e nd k s' e' nd' Hp Hnd Hfuel Hs He1 He2 Hn1.
  destruct (strip_loop_value fuel s' e' nd') as (j & Hj & Hloop & Hval & Hlast);
    try assumption;
    try (unfold e', nd'; destruct (nd <? precision + 2) eqn:Hlt;
         [apply Z.ltb_lt in Hlt | apply Z.ltb_ge in Hlt]; lia).
  exists j. split; [lia|]. split; [|split; assumption].
  rewrite (rounded (S fuel) value_struct general precision) by (fold s nd k; lia).
  fold s e nd k. cbn [chars_format_eqb]. cbv zeta.
  unfold s', e', nd' in Hloop. destruct (nd <? precision + 2); exact Hloop.
Qed.

End FixedRounding.

(** 123.45 with two digits in [fixed] notation: 12345 loses two digits
    and becomes 123. *)
Lemma precision_rounds_half_up_witness :
  round_to_precision 10
      {| significand := 12345; exponent := -2; is_negative := false |} fixed 2
    = Done (round_half_up 12345 2, -2 + 2, 2 + 1).
Proof.
  refine (precision_rounds_half_up (CO := double_Collaborators) 10
            {| significand := 12345; exponent := -2; is_negative := false |} fixed 2
            _ _ _ _ _ _ _).
  - discriminate.
  - vm_compute. split; discriminate.
  - vm_compute. split; [reflexivity | discriminate].
  - vm_compute. lia.
  - lia.
  - vm_compute. discriminate.
  - vm_compute. discriminate.
Defined.

(** 120.40 with two digits in [general] notation: 12040 becomes 120 and
    then 12. *)
Lemma general_strips_trailing_zeros_witness :
  exists j,
    0 <= j
    /\ round_to_precision 6
         {| significand := 12040; exponent := -2; is_negative := false |} general 2
       = Done (round_half_up 12040 2 / 10 ^ j, -2 + 2 + j, 2 + 1 - j)
    /\ round_half_up 12040 2 = round_half_up 12040 2 / 10 ^ j * 10 ^ j
    /\ (round_half_up 12040 2 / 10 ^ j) mod 10 <> 0.
Proof.
  refine (general_strips_trailing_zeros (CO := double_Collaborators) 5
            {| significand := 12040; exponent := -2; is_negative := false |} 2
            _ _ _ _ _ _ _).
  - vm_compute. split; discriminate.
  - vm_compute. split; [reflexivity | discriminate].
  - vm_compute. lia.
  - vm_compute. split; reflexivity.
  - vm_compute. discriminate.
  - vm_compute. discriminate.
  - vm_compute. discriminate.
Defined.

(** ** to_chars_hex: the text it stores *)

Lemma store_bytes_app (l1 l2 : list Z) :
  forall (m : mem) (dst : Z),
  store_bytes m dst (l1 ++ l2)
    = store_bytes (store_bytes m dst l1) (dst + Z.of_nat (List.length l1)) l2.
Proof.
  induction l1 as [|b l1 IH]; intros m dst.
  - cbn. now rewrite Z.add_0_r.
  - cbn [app store_bytes List.length]. rewrite IH. f_equal. lia.
Qed.

Lemma map_constant (f : nat -> Z) (c : Z) (k : nat) :
  (forall i, f i = c) -> forall s, map f (seq s k) = repeat c k.
Proof.
  intros Hf. induction k as [|k IH]; intros s; [reflexivity|].
  cbn [seq map repeat]. now rewrite Hf, IH.
Qed.

Lemma pow16 (n : Z) : 0 <= n -> 2 ^ (4 * n) = 16 ^ n.
Proof. intros Hn. rewrite Z.pow_mul_r by lia. reflexivity. Qed.

(** A digit of [a mod 16 ^ n] below the [n]-th is the digit of [a]. *)
Lemma digit_of_mod (a n j : Z) :
  0 <= j < n -> (a mod 16 ^ n) / 16 ^ j mod 16 = a / 16 ^ j mod 16.
Proof.
  intros Hj.
  assert (Hpj : 0 < 16 ^ j) by (apply Z.pow_pos_nonneg; lia).
  assert (Hpr : 0 < 16 ^ (n - j - 1)) by (apply Z.pow_pos_nonneg; lia).
  assert (Hsplit : 16 ^ n = 16 ^ j * (16 * 16 ^ (n - j - 1))).
  { rewrite <- Z.pow_succ_r, <- Z.pow_add_r by lia. f_equal. lia. }
  rewrite Hsplit, Z.rem_mul_r by lia.
  rewrite (Z.mul_comm (16 ^ j)), Z.div_add by lia.
  rewrite (Z.div_small (a mod 16 ^ j)) by (apply Z.mod_pos_bound; lia).
  rewrite Z.add_0_l, Z.rem_mul_r by lia.
  rewrite (Z.mul_comm 16), Z.mod_add by lia.
  apply Z.mod_mod. lia.
Qed.

Section HexText.

Context {Real : Type} {FP : FloatingPoint Real} {CO : Collaborators Real}.

Lemma shl_small (w x k : Z) :
  0 <= k < w -> 0 <= x -> x * 2 ^ k < 2 ^ w -> shl w x k = Done (x * 2 ^ k).
Proof.
  intros Hk Hx Hlt. unfold shl, to_uint.
  replace ((0 <=? k) && (k <? w)) with true
    by (symmetry; apply andb_true_intro; split; [apply Z.leb_le | apply Z.ltb_lt]; lia).
  assert (0 < 2 ^ k) by (apply Z.pow_pos_nonneg; lia).
  rewrite Z.shiftl_mul_pow2, Z.mod_small by nia. reflexivity.
Qed.

Lemma shr_defined (w x k : Z) : 0 <= k < w -> shr w x k = Done (Z.shiftr x k).
Proof.
  intros Hk. unfold shr.
  replace ((0 <=? k) && (k <? w)) with true
    by (symmetry; apply andb_true_intro; split; [apply Z.leb_le | apply Z.ltb_lt]; lia).
  reflexivity.
Qed.

(** The widths of [float] and [double]. *)
Lemma narrow_layout :
  real_type = float \/ real_type = double ->
  let w := Unsigned_Integer_bits real_type in
  let hb := hex_bits real_type in
  hb = 4 * Z.of_nat (Z.to_nat (hex_precision real_type))
  /\ 1 <= hex_precision real_type /\ 24 <= hb /\ hb + 4 < w /\ w <= 64
  /\ hb + b2z (Real_type_eqb real_type float) < w - 3.
Proof.
  intros [-> | ->]; vm_compute; repeat split; try reflexivity; intro; discriminate.
Qed.

Lemma align_significand_defined (value : Real) :
  real_type = float \/ real_type = double ->
  0 <= significand_bits ->
  significand_bits + b2z (Real_type_eqb real_type float) <= hex_bits real_type ->
  exists s a e,
    align_significand value = Done (s, a, e)
    /\ 0 <= a < 2 ^ (hex_bits real_type + 1).
Proof.
  intros HR Hsb Hfit.
  destruct (narrow_layout HR) as (_ & _ & Hhb & Hw & Hw64 & Hfl).
  unfold align_significand.
  set (w := Unsigned_Integer_bits real_type) in *.
  set (hb := hex_bits real_type) in *.
  assert (Hb2z : 0 <= b2z (Real_type_eqb real_type float) <= 1)
    by (destruct (Real_type_eqb real_type float); cbn; lia).
  assert (Hpow : forall j k, 0 <= j <= k -> 0 < 2 ^ j <= 2 ^ k).
  { intros j k Hjk. split; [apply Z.pow_pos_nonneg; lia | apply Z.pow_le_mono_r; lia]. }
  assert (Hhw : 2 ^ (hb + 1) < 2 ^ w) by (apply Z.pow_lt_mono_r; lia).
  assert (Hh1 : 2 ^ (hb + 1) = 2 * 2 ^ hb)
    by (rewrite <- Z.pow_succ_r by lia; reflexivity).
  assert (Hsb' : 0 <= significand_bits <= hb) by lia.
  pose proof (Hpow _ _ Hsb') as Hsbhb.
  rewrite (shl_small w 1 significand_bits) by lia.
  cbn [bind]. rewrite Z.mul_1_l.
  assert (Hmask : to_uint w (2 ^ significand_bits - 1) = Z.ones significand_bits)
    by (unfold to_uint; rewrite Z.mod_small, Z.ones_equiv; lia).
  rewrite Hmask, Z.land_ones by lia.
  set (sig := object_bits value mod 2 ^ significand_bits).
  assert (Hsig : 0 <= sig < 2 ^ significand_bits)
    by (apply Z.mod_pos_bound; lia).
  assert (Hexp : exists x, extract_exp real_type (object_bits value) significand_bits = Done x).
  { unfold extract_exp. fold w.
    destruct HR as [-> | ->]; rewrite shr_defined by lia; cbn [bind]; eauto. }
  destruct Hexp as (x & ->). cbn [bind].
  assert (Haligned : exists a,
             (if Real_type_eqb real_type float then shl w sig 1 else Done sig) = Done a
             /\ 0 <= a < 2 ^ hb).
  { destruct (Real_type_eqb real_type float); cbn [b2z] in *.
    - exists (sig * 2 ^ 1). split.
      + apply shl_small; [lia | lia |]. change (2 ^ 1) with 2.
        assert (Hsb1 : 0 <= significand_bits + 1 <= hb) by lia.
        pose proof (Hpow _ _ Hsb1) as Hs1.
        rewrite Z.pow_add_r in Hs1 by lia. change (2 ^ 1) with 2 in Hs1. lia.
      + change (2 ^ 1) with 2.
        assert (Hsb1 : 0 <= significand_bits + 1 <= hb) by lia.
        pose proof (Hpow _ _ Hsb1) as Hs1.
        rewrite Z.pow_add_r in Hs1 by lia. change (2 ^ 1) with 2 in Hs1. lia.
    - exists sig. split; [reflexivity | lia]. }
  destruct Haligned as (a & -> & Ha). cbn [bind].
  destruct ((_ =? 0) && negb (sig =? 0)).
  - do 3 eexists. split; [reflexivity | lia].
  - rewrite (shl_small w 1 hb) by lia. cbn [bind]. rewrite Z.mul_1_l.
    do 3 eexists. split; [reflexivity|].
    apply lor_below_pow2; lia.
Qed.

Lemma table_at_hex_digit (i : Z) :
  (16 <= List.length digit_table)%nat -> 0 <= i < 16 ->
  table_at digit_table i = Done (hex_digit digit_table i).
Proof.
  intros Hlen Hi. unfold table_at, hex_digit.
  replace ((0 <=? i) && (i <? Z.of_nat (List.length digit_table))) with true
    by (symmetry; apply andb_true_intro; split; [apply Z.leb_le | apply Z.ltb_lt]; lia).
  destruct (nth_error digit_table (Z.to_nat i)) as [d|] eqn:Hnth.
  - cbn. f_equal. symmetry. apply nth_error_nth with (1 := Hnth).
  - apply nth_error_None in Hnth. lia.
Qed.

Lemma fraction_text_succ (table : list Z) (n a : Z) (count : nat) :
  fraction_text table n a (S count)
    = (if 0 <? n then hex_digit table (a / 16 ^ (n - 1) mod 16) else ch "0")
      :: map (fun i =>
                if Z.of_nat (S i) <? n
                then hex_digit table (a / 16 ^ (n - 1 - Z.of_nat (S i)) mod 16)
                else ch "0")
             (seq 0 count).
Proof.
  unfold fraction_text. cbn [seq map]. f_equal.
  - change (Z.of_nat 0) with 0. now rewrite Z.sub_0_r.
  - rewrite <- seq_shift, map_map. reflexivity.
Qed.

(** The loop that prints the fraction stores the digits of the
    significand, and zeros behind the last of them. *)
Lemma hex_fraction_loop_text (precision : Z) (n : nat) :
  forall (fuel : nat) (m : mem) (first a rp : Z),
  (16 <= List.length digit_table)%nat ->
  precision <> -1 -> (1 <= n)%nat -> (n <= fuel)%nat ->
  4 * Z.of_nat n < Unsigned_Integer_bits real_type ->
  0 <= a < 16 ^ Z.of_nat n -> 1 <= rp ->
  exists a' rp' rb',
    while_loop fuel (hex_fraction_step precision) (m, first, a, rp, 4 * Z.of_nat n)
      = Done (store_bytes m first
                (fraction_text digit_table (Z.of_nat n) a (Z.to_nat rp)),
              first + rp, a', rp', rb').
Proof.
  induction n as [|n IH]; intros fuel m first a rp Hlen Hp Hn Hfuel Hw Ha Hrp; [lia|].
  destruct fuel as [|fuel]; [lia|].
  rewrite while_loop_step. unfold hex_fraction_step at 1.
  set (w := Unsigned_Integer_bits real_type) in *.
  replace (4 * Z.of_nat (S n) - nibble_bits) with (4 * Z.of_nat n)
    by (unfold nibble_bits; lia).
  rewrite shr_defined by lia. cbn [bind].
  assert (Hpn : 0 < 16 ^ Z.of_nat n) by (apply Z.pow_pos_nonneg; lia).
  assert (Hsucc : 16 ^ Z.of_nat (S n) = 16 * 16 ^ Z.of_nat n)
    by (rewrite Nat2Z.inj_succ, Z.pow_succ_r by lia; reflexivity).
  assert (Hshift : Z.shiftr a (4 * Z.of_nat n) = a / 16 ^ Z.of_nat n)
    by (rewrite Z.shiftr_div_pow2, pow16 by lia; reflexivity).
  assert (Hnib : 0 <= a / 16 ^ Z.of_nat n < 16).
  { split; [apply Z.div_pos; lia|]. apply Z.div_lt_upper_bound; lia. }
  rewrite Hshift.
  assert (Hu : to_uint 32 (a / 16 ^ Z.of_nat n) = a / 16 ^ Z.of_nat n).
  { unfold to_uint. apply Z.mod_small. change (2 ^ 32) with 4294967296. lia. }
  rewrite Hu, (table_at_hex_digit _ Hlen Hnib). cbn [bind].
  assert (Hrpn : Z.to_nat rp = S (Z.to_nat (rp - 1))) by lia.
  rewrite Hrpn, fraction_text_succ.
  replace (0 <? Z.of_nat (S n)) with true by (symmetry; apply Z.ltb_lt; lia).
  replace (Z.of_nat (S n) - 1) with (Z.of_nat n) by lia.
  rewrite (Z.mod_small (a / 16 ^ Z.of_nat n)) by lia.
  cbn [store_bytes].
  destruct (Z.eqb_spec (rp - 1) 0) as [Hz|Hnz].
  - cbn [bind]. do 3 eexists. rewrite Hz.
    replace (first + rp) with (first + 1) by lia. reflexivity.
  - destruct (Z.eqb_spec (4 * Z.of_nat n) 0) as [Hlast|Hmore].
    + replace (negb (precision =? -1)) with true
        by (symmetry; apply negb_true_iff, Z.eqb_neq; exact Hp).
      cbn [bind]. do 3 eexists.
      replace (first + rp) with (first + 1 + (rp - 1)) by lia.
      unfold memset. do 5 f_equal.
      generalize (Z.to_nat (rp - 1)). intros k.
      f_equal. symmetry. apply map_constant. intros i.
      replace (Z.of_nat (S i) <? Z.of_nat (S n)) with false
        by (symmetry; apply Z.ltb_ge; lia).
      reflexivity.
    + rewrite (shl_small w 1 (4 * Z.of_nat n)).
      2: lia. 2: lia.
      2: { rewrite Z.mul_1_l. apply Z.pow_lt_mono_r; lia. }
      cbn [bind]. rewrite Z.mul_1_l.
      assert (Hlt : 2 ^ (4 * Z.of_nat n) < 2 ^ w) by (apply Z.pow_lt_mono_r; lia).
      assert (Hmask : to_uint w (2 ^ (4 * Z.of_nat n) - 1) = Z.ones (4 * Z.of_nat n)).
      { unfold to_uint. rewrite pow16 in * by lia.
        rewrite Z.mod_small, Z.ones_equiv by lia. rewrite pow16 by lia. lia. }
      rewrite Hmask, Z.land_ones, pow16 by lia.
      destruct (IH fuel (store m first (hex_digit digit_table (a / 16 ^ Z.of_nat n)))
                  (first + 1) (a mod 16 ^ Z.of_nat n) (rp - 1))
        as (a' & rp' & rb' & Hrun); try assumption; try lia.
      { apply Z.mod_pos_bound. lia. }
      exists a', rp', rb'. rewrite Hrun.
      replace (first + 1 + (rp - 1)) with (first + rp) by lia.
      do 6 f_equal. unfold fraction_text. apply map_ext_in.
      intros i _.
      replace (Z.of_nat (S i) <? Z.of_nat (S n)) with (Z.of_nat i <? Z.of_nat n)
        by (apply eq_true_iff_eq; rewrite !Z.ltb_lt; lia).
      destruct (Z.ltb_spec (Z.of_nat i) (Z.of_nat n)) as [Hi|Hi]; [|reflexivity].
      replace (Z.of_nat n - Z.of_nat (S i)) with (Z.of_nat n - 1 - Z.of_nat i)
        by lia.
      rewrite digit_of_mod by lia. reflexivity.
Qed.

(** The widths of the four types. *)
Lemma hex_widths :
  let w := Unsigned_Integer_bits real_type in
  let hb := hex_bits real_type in
  hb = 4 * Z.of_nat (Z.to_nat (hex_precision real_type))
  /\ 1 <= hex_precision real_type /\ 24 <= hb /\ hb + 4 < w /\ w <= 128.
Proof.
  destruct real_type; vm_compute; repeat split; try reflexivity; intro; discriminate.
Qed.

(** [to_chars_hex] with a precision, on a value whose fields are
    extracted: the two length checks, then the text, stored byte after
    byte from [first]. *)
Lemma hex_text_written (fuel : nat) (m : mem) (first last : Z) (value : Real)
    (precision s a e0 e : Z) :
  (16 <= List.length digit_table)%nat ->
  (Z.to_nat (hex_precision real_type) <= fuel)%nat ->
  0 <= precision ->
  align_significand value = Done (s, a, e0) ->
  wrap_exponent fuel e0 = Done e ->
  0 <= a < 2 ^ (Unsigned_Integer_bits real_type - 2) ->
  let n := hex_precision real_type in
  let negative := Rlt value (Rconst 0) in
  let lost_bits := (n - precision) * nibble_bits in
  let r :=
    if precision <? n
    then a + (if Claims.rounds_up a lost_bits then 2 ^ lost_bits else 0)
    else a in
  let lead := match real_type with long_double => s | _ => r end in
  0 <= lead / 16 ^ n < 16 ->
  let abs_e := to_uint 32 (Z.abs e) in
  let text :=
    hex_layout negative (hex_digit digit_table (lead / 16 ^ n)) precision
      (fraction_text digit_table n (r mod 16 ^ n) (Z.to_nat precision)) e in
  to_chars_hex fuel m first last value precision
    = if (last - first <? precision) || (first >? last)
         || (total_buffer_length precision abs_e negative >? last - first)
      then Done (m, {| ptr := last; ec := ERANGE |})
      else Done (to_chars_int (store_bytes m first text)
                   (first + Z.of_nat (List.length text)) last abs_e).
Proof.
  intros Hlen Hfuel Hp Halign Hwrap Ha n negative lost_bits r lead Hnib abs_e text.
  destruct hex_widths as (Hhb4 & Hhp & Hhb & Hw & Hw128).
  unfold to_chars_hex.
  set (w := Unsigned_Integer_bits real_type) in *.
  set (hb := hex_bits real_type) in *.
  fold n in Hhb4, Hhp, Hfuel |- *.
  replace (negb (precision =? -1)) with true
    by (symmetry; apply negb_true_iff, Z.eqb_neq; lia).
  replace (precision =? -1) with false by (symmetry; apply Z.eqb_neq; lia).
  destruct ((last - first <? precision) || (first >? last)); [reflexivity|].
  cbn [orb].
  rewrite Halign. cbn [bind].
  assert (Hpow : forall j k, 0 <= j <= k -> 0 < 2 ^ j <= 2 ^ k).
  { intros j k Hjk. split; [apply Z.pow_pos_nonneg; lia | apply Z.pow_le_mono_r; lia]. }
  assert (Hhw : 2 ^ hb < 2 ^ w) by (apply Z.pow_lt_mono_r; lia).
  pose proof (Hpow 0 hb ltac:(lia)) as Hhbpos.
  rewrite (shl_small w 1 hb) by lia. cbn [bind]. rewrite Z.mul_1_l.
  rewrite Hwrap. cbn [bind].
  assert (Habs : (if e <? 0 then to_uint 32 (- e) else to_uint 32 e)
                 = to_uint 32 (Z.abs e)).
  { destruct (Z.ltb_spec e 0); f_equal; lia. }
  rewrite Habs. fold abs_e. fold negative.
  destruct (total_buffer_length precision abs_e negative >? last - first);
    [reflexivity|].
  assert (Hhbhp : hb = n * 4) by reflexivity.
  assert (H16 : 2 ^ hb = 16 ^ n)
    by (rewrite Hhbhp, Z.mul_comm; apply pow16; lia).
  assert (Hround : (if precision <? n
                    then lost <- int_ ((n - precision) * nibble_bits) ;;
                         round_significand w lost a
                    else Done a) = Done r).
  { unfold r, lost_bits. destruct (Z.ltb_spec precision n) as [Hlt|Hge];
      [|reflexivity].
    assert (Hl : 1 <= (n - precision) * nibble_bits <= hb)
      by (unfold nibble_bits; lia).
    rewrite int_in_range by (unfold INT_MIN, INT_MAX, int_bits; cbn; lia).
    cbn [bind]. apply round_significand_value; lia. }
  rewrite Hround. cbn [bind].
  assert (Hlead : match real_type with
                  | long_double => shr w s hb
                  | _ => shr w r hb
                  end = Done (lead / 16 ^ n)).
  { unfold lead. rewrite <- H16, <- Z.shiftr_div_pow2 by lia.
    destruct real_type; apply shr_defined; lia. }
  assert (Hu : to_uint 32 (lead / 16 ^ n) = lead / 16 ^ n).
  { unfold to_uint. apply Z.mod_small. change (2 ^ 32) with 4294967296. lia. }
  assert (Hmask : Z.land r (to_uint w (2 ^ hb - 1)) = r mod 16 ^ n).
  { unfold to_uint. rewrite Z.mod_small by lia.
    replace (2 ^ hb - 1) with (Z.ones hb) by (rewrite Z.ones_equiv; lia).
    rewrite Z.land_ones, H16 by lia. reflexivity. }
  set (sign := if negative then [ch "-"] else []).
  set (first0 := first + Z.of_nat (List.length sign)).
  assert (Hsign : (if negative then (store m first (ch "-"), first + 1) else (m, first))
                  = (store_bytes m first sign, first0)).
  { unfold sign, first0. destruct negative; cbn; f_equal. lia. }
  rewrite Hsign, Hlead. cbn [bind].
  rewrite Hu, (table_at_hex_digit _ Hlen Hnib). cbn [bind]. rewrite Hmask.
  set (digit := hex_digit digit_table (lead / 16 ^ n)).
  set (fraction := if precision >? 0
                   then ch "." :: fraction_text digit_table n (r mod 16 ^ n)
                                    (Z.to_nat precision)
                   else []).
  set (m0 := store_bytes m first sign).
  assert (Hfrac :
             (if precision >? 0
              then '(m1, first1, _, _, _) <-
                     while_loop fuel (hex_fraction_step precision)
                       (store (store m0 first0 digit) (first0 + 1) (ch "."),
                        first0 + 1 + 1, r mod 16 ^ n, precision, hb) ;;
                   Done (m1, first1)
              else Done (store m0 first0 digit, first0 + 1))
             = Done (store_bytes (store m0 first0 digit) (first0 + 1) fraction,
                     first0 + 1 + Z.of_nat (List.length fraction))).
  { unfold fraction. destruct (Z.gtb_spec precision 0) as [Hpos|Hzero].
    - destruct (hex_fraction_loop_text precision (Z.to_nat n) fuel
                  (store (store m0 first0 digit) (first0 + 1) (ch "."))
                  (first0 + 1 + 1) (r mod 16 ^ n) precision)
        as (a1 & rp1 & rb1 & Hrun); try assumption; try lia.
      { replace (Z.of_nat (Z.to_nat n)) with n by lia.
        apply Z.mod_pos_bound. apply Z.pow_pos_nonneg; lia. }
      rewrite <- Hhb4 in Hrun. rewrite Hrun. cbn [bind].
      replace (Z.of_nat (Z.to_nat n)) with n by lia.
      cbn [store_bytes List.length]. unfold fraction_text.
      rewrite length_map, length_seq. do 2 f_equal. lia.
    - cbn [store_bytes List.length]. do 2 f_equal. lia. }
  rewrite Hfrac. cbn [bind].
  unfold text, hex_layout. fold sign digit fraction.
  rewrite !store_bytes_app, !length_app. fold m0 first0.
  cbn [store_bytes List.length].
  replace (first0 + Z.of_nat 1) with (first0 + 1) by lia.
  replace (first + Z.of_nat (List.length sign + (1 + (List.length fraction + 2))))
    with (first0 + 1 + Z.of_nat (List.length fraction) + 1 + 1)
    by (unfold first0; lia).
  destruct (e <? 0); reflexivity.
Qed.

(** X15. For [float] and [double] and a precision [p >= 0],
    [to_chars_hex] returns a range error at [last], with the memory as it
    found it, exactly when the buffer is shorter than [p] or than the
    length computed for the text, or [first > last]; otherwise it stores,
    from [first] on and one byte after the other: the sign of a negative
    value, the leading digit of the rounded significand, the point and
    the first [p] hexadecimal digits of its fraction when [p > 0] (zeros
    beyond the digits the type has), then [p] and the sign of the
    exponent, and returns what [to_chars_int] returns, called behind this
    text with the magnitude of the exponent. *)
Theorem hex_writes_the_digits (fuel : nat) (m : mem) (first last : Z)
    (value : Real) (precision : Z) :
  real_type = float \/ real_type = double ->
  0 <= significand_bits ->
  significand_bits + b2z (Real_type_eqb real_type float) <= hex_bits real_type ->
  (16 <= List.length digit_table)%nat ->
  (Z.to_nat (hex_precision real_type) <= fuel)%nat ->
  0 <= precision ->
  exists s a e0 e,
    align_significand value = Done (s, a, e0)
    /\ wrap_exponent fuel e0 = Done e
    /\ let negative := Rlt value (Rconst 0) in
       let lost_bits := (hex_precision real_type - precision) * nibble_bits in
       let r :=
         if precision <? hex_precision real_type
         then a + (if Claims.rounds_up a lost_bits then 2 ^ lost_bits else 0)
         else a in
       let abs_e := to_uint 32 (Z.abs e) in
       let text :=
         hex_text digit_table (hex_precision real_type) negative r precision e in
       to_chars_hex fuel m first last value precision
         = if (last - first <? precision) || (first >? last)
              || (total_buffer_length precision abs_e negative >? last - first)
           then Done (m, {| ptr := last; ec := ERANGE |})
           else Done (to_chars_int (store_bytes m first text)
                        (first + Z.of_nat (List.length text)) last abs_e).
Proof.
  intros HR Hsb Hfit Hlen Hfuel Hp.
  destruct (narrow_layout HR) as (Hhb4 & Hhp & Hhb & Hw & Hw64 & Hfl).
  destruct (align_significand_defined value HR Hsb Hfit) as (s & a & e0 & Halign & Ha).
  assert (Hwrap : exists e, wrap_exponent fuel e0 = Done e).
  { unfold wrap_exponent. destruct HR as [-> | ->]; eauto. }
  destruct Hwrap as (e & Hwrap).
  exists s, a, e0, e. split; [exact Halign|]. split; [exact Hwrap|].
  set (w := Unsigned_Integer_bits real_type) in *.
  set (hb := hex_bits real_type) in *.
  set (n := hex_precision real_type) in *.
  assert (Hpow : forall j k, 0 <= j <= k -> 0 < 2 ^ j <= 2 ^ k).
  { intros j k Hjk. split; [apply Z.pow_pos_nonneg; lia | apply Z.pow_le_mono_r; lia]. }
  assert (Hh1 : 2 ^ (hb + 1) = 2 * 2 ^ hb)
    by (rewrite <- Z.pow_succ_r by lia; reflexivity).
  pose proof (Hpow 0 hb ltac:(lia)) as Hhbpos.
  assert (Hw2 : 0 <= hb + 1 <= w - 2) by lia.
  pose proof (Hpow _ _ Hw2) as Hpw2.
  assert (H16 : 2 ^ hb = 16 ^ n).
  { replace hb with (4 * n) by (unfold hb, n, hex_bits, nibble_bits; lia).
    apply pow16. lia. }
  intros negative lost_bits r abs_e text.
  assert (Hr : 0 <= r < 4 * 2 ^ hb).
  { unfold r. destruct (Z.ltb_spec precision n) as [Hlt|Hge]; [|lia].
    assert (Hl' : 0 <= lost_bits <= hb)
      by (unfold lost_bits, nibble_bits, hb, n, hex_bits, nibble_bits in *; lia).
    pose proof (Hpow _ _ Hl') as Hpl.
    destruct (Claims.rounds_up _ _); lia. }
  assert (Hsame : forall x, match real_type with long_double => s | _ => x end = x)
    by (intros x; destruct HR as [HR | HR]; rewrite HR; reflexivity).
  assert (Habound : 0 <= a < 2 ^ (w - 2)) by lia.
  pose proof (hex_text_written fuel m first last value precision s a e0 e
                Hlen Hfuel Hp Halign Hwrap Habound) as Hmain.
  cbv zeta in Hmain. rewrite !Hsame in Hmain. apply Hmain.
  fold n lost_bits r. fold r. rewrite <- H16.
  split; [apply Z.div_pos; lia|]. apply Z.div_lt_upper_bound; lia.
Qed.

(** ** to_chars_hex on the 80-bit [long double] *)

Lemma exponent_mask (bits : Z) :
  Z.shiftr (Z.land bits (32767 * 2 ^ 64)) 64 = (bits / 2 ^ 64) mod 2 ^ 15.
Proof.
  rewrite Z.shiftr_land.
  change (Z.shiftr (32767 * 2 ^ 64) 64) with (Z.ones 15).
  rewrite Z.land_ones, Z.shiftr_div_pow2 by lia. reflexivity.
Qed.

Lemma lor_bit_60 (s : Z) :
  0 <= s < 2 ^ 64 -> s <= Z.lor s (2 ^ 60) < 2 ^ 64.
Proof.
  intros Hs. split.
  - pose proof (Z.add_lor_land s (2 ^ 60)) as Hadd.
    rewrite land_pow2 in Hadd by lia.
    destruct (Z.testbit s 60); lia.
  - apply lor_below_pow2; lia.
Qed.

(** What lines 282-346 compute for the 80-bit type: the exponent is read
    under a mask, and the significand has its integer bit already. *)
Lemma long_double_fields (value : Real) :
  real_type = long_double -> significand_bits = 64 -> exponent_bias = -16383 ->
  exists a e0,
    align_significand value = Done (object_bits value mod 2 ^ 64, a, e0)
    /\ object_bits value mod 2 ^ 64 <= a < 2 ^ 64
    /\ -16383 <= e0 <= 16384.
Proof.
  intros HR Hsb Hbias. unfold align_significand, extract_exp.
  rewrite HR, Hsb, Hbias. cbn [Unsigned_Integer_bits Real_type_eqb].
  change (hex_bits long_double) with 60.
  rewrite (shl_small 128 1 64) by (cbn; lia). cbn [bind]. rewrite Z.mul_1_l.
  assert (Hmask : to_uint 128 (2 ^ 64 - 1) = Z.ones 64) by reflexivity.
  rewrite Hmask, Z.land_ones by lia.
  set (s := object_bits value mod 2 ^ 64).
  assert (Hs : 0 <= s < 2 ^ 64) by (apply Z.mod_pos_bound; lia).
  rewrite exponent_mask.
  set (x := (object_bits value / 2 ^ 64) mod 2 ^ 15).
  assert (Hx : 0 <= x < 2 ^ 15) by (apply Z.mod_pos_bound; lia).
  change (2 ^ 15) with 32768 in Hx.
  destruct ((x =? 0) && negb (s =? 0)).
  - do 2 eexists. split; [reflexivity|]. lia.
  - rewrite (shl_small 128 1 60) by (cbn; lia).
    cbn [bind]. rewrite Z.mul_1_l. do 2 eexists. split; [reflexivity|].
    split; [apply lor_bit_60; exact Hs|].
    unfold to_sint. change (2 ^ (64 - 1)) with 9223372036854775808.
    change (2 ^ 64) with 18446744073709551616.
    rewrite Z.mod_small by lia. lia.
Qed.

Lemma long_double_wrap (fuel : nat) (e0 : Z) :
  real_type = long_double -> (2 <= fuel)%nat -> -16383 <= e0 <= 16384 ->
  exists e, wrap_exponent fuel e0 = Done e.
Proof.
  intros HR Hfuel He0. unfold wrap_exponent. rewrite HR.
  destruct fuel as [|[|fuel]]; [lia | lia |].
  rewrite while_loop_step.
  destruct (Z.gtb_spec e0 16383) as [Hbig|Hsmall]; cbn [bind].
  - rewrite while_loop_step.
    replace (e0 - 32768 >? 16383) with false
      by (symmetry; rewrite Z.gtb_ltb; apply Z.ltb_ge; lia).
    cbn [bind]. eauto.
  - eauto.
Qed.

Lemma map_constant_in (f : nat -> Z) (c : Z) (k : nat) :
  (forall i, (i < k)%nat -> f i = c) -> map f (seq 0 k) = repeat c k.
Proof.
  intros Hf. rewrite <- (map_constant (fun _ => c) c k (fun _ => eq_refl) 0%nat).
  apply map_ext_in. intros i Hi. apply in_seq in Hi. apply Hf. lia.
Qed.

(** A fraction below one unit of the last digit asked for prints as
    zeros. *)
Lemma fraction_text_zeros (table : list Z) (n x : Z) (count : nat) :
  Z.of_nat count <= n -> 0 <= x < 16 ^ (n - Z.of_nat count) ->
  fraction_text table n x count = repeat (hex_digit table 0) count.
Proof.
  intros Hcount Hx. unfold fraction_text. apply map_constant_in.
  intros i Hi.
  replace (Z.of_nat i <? n) with true by (symmetry; apply Z.ltb_lt; lia).
  rewrite Z.div_small; [reflexivity|].
  split; [lia|]. apply Z.lt_le_trans with (1 := proj2 Hx).
  apply Z.pow_le_mono_r; lia.
Qed.

(** C9, where the code departs from it: for the 80-bit [long double] the
    rounding block rounds the aligned significand to nearest, ties to
    even, as it does for the other types, but the leading digit is then
    taken from the significand as it was before the rounding.  Whenever
    the rounding carries into the leading digit, the digits stored are
    the leading digit of the unrounded significand followed by zeros: the
    carry is lost, and the retained digits are not those of the rounded
    significand, whose leading digit is larger. *)
Theorem long_double_rounding_carry_is_lost (fuel : nat) (m : mem) (first last : Z)
    (value : Real) (precision s a e0 : Z) :
  real_type = long_double -> significand_bits = 64 -> exponent_bias = -16383 ->
  (16 <= List.length digit_table)%nat ->
  (15 <= fuel)%nat ->
  0 <= precision < hex_precision long_double ->
  align_significand value = Done (s, a, e0) ->
  let n := hex_precision long_double in
  let lost_bits := (n - precision) * nibble_bits in
  let rounded := a + (if Claims.rounds_up a lost_bits then 2 ^ lost_bits else 0) in
  a / 16 ^ n < rounded / 16 ^ n ->
  exists e,
    wrap_exponent fuel e0 = Done e
    /\ round_significand (Unsigned_Integer_bits long_double) lost_bits a = Done rounded
    /\ s / 16 ^ n < rounded / 16 ^ n
    /\ let negative := Rlt value (Rconst 0) in
       let abs_e := to_uint 32 (Z.abs e) in
       let text :=
         hex_layout negative (hex_digit digit_table (s / 16 ^ n)) precision
           (repeat (hex_digit digit_table 0) (Z.to_nat precision)) e in
       to_chars_hex fuel m first last value precision
         = if (last - first <? precision) || (first >? last)
              || (total_buffer_length precision abs_e negative >? last - first)
           then Done (m, {| ptr := last; ec := ERANGE |})
           else Done (to_chars_int (store_bytes m first text)
                        (first + Z.of_nat (List.length text)) last abs_e).
Proof.
  intros HR Hsb Hbias Hlen Hfuel Hp Halign n lost_bits rounded Hcarry.
  destruct (long_double_fields value HR Hsb Hbias) as (a' & e0' & Hfields & Ha & He0).
  rewrite Halign in Hfields.
  assert (Hs : s = object_bits value mod 2 ^ 64) by congruence.
  assert (Ha' : a = a') by congruence.
  assert (He0' : e0 = e0') by congruence.
  subst a' e0'. rewrite <- Hs in Ha. clear Hfields.
  assert (Hs' : 0 <= s < 2 ^ 64) by (rewrite Hs; apply Z.mod_pos_bound; lia).
  assert (Hfuel2 : (2 <= fuel)%nat) by (clear - Hfuel; lia).
  destruct (long_double_wrap fuel e0 HR Hfuel2 He0) as (e & Hwrap).
  exists e. split; [exact Hwrap|].
  assert (Hp' : 0 <= precision < 15) by exact Hp.
  assert (Hlost : lost_bits = (15 - precision) * 4) by reflexivity.
  change n with 15 in *.
  assert (Hl : 4 <= lost_bits <= 60) by lia.
  assert (H16 : (16 ^ 15 = 2 ^ 60) /\ 2 ^ 64 = 16 * 2 ^ 60 /\ 0 < 2 ^ 60)
    by (repeat split; reflexivity).
  destruct H16 as (H16 & H64 & H60). rewrite H16 in *.
  assert (Hlpow : 0 < 2 ^ lost_bits <= 2 ^ 60)
    by (split; [apply Z.pow_pos_nonneg; lia | apply Z.pow_le_mono_r; lia]).
  assert (Hup : rounded = a + 2 ^ lost_bits).
  { unfold rounded in *. destruct (Claims.rounds_up a lost_bits); [reflexivity|].
    rewrite Z.add_0_r in Hcarry. lia. }
  split.
  { unfold rounded. cbn [Unsigned_Integer_bits].
    apply round_significand_value; [lia|].
    split; [lia|]. apply Z.lt_le_trans with (2 ^ 64); [lia|].
    apply Z.pow_le_mono_r; lia. }
  split.
  { apply Z.le_lt_trans with (a / 2 ^ 60); [|exact Hcarry].
    apply Z.div_le_mono; lia. }
  intros negative abs_e text.
  assert (Hfrac : 0 <= rounded mod 2 ^ 60 < 2 ^ lost_bits).
  { split; [apply Z.mod_pos_bound; lia|].
    pose proof (Z.div_mod a (2 ^ 60) ltac:(lia)) as Hdiv.
    pose proof (Z.mod_pos_bound a (2 ^ 60) ltac:(lia)) as Hmod.
    assert (Hq : rounded / 2 ^ 60 = a / 2 ^ 60 + 1).
    { assert (rounded / 2 ^ 60 <= a / 2 ^ 60 + 1); [|lia].
      apply Z.lt_succ_r. apply Z.div_lt_upper_bound; [lia|]. nia. }
    pose proof (Z.div_mod rounded (2 ^ 60) ltac:(lia)) as Hdiv'.
    rewrite Hq in Hdiv'. nia. }
  assert (Hfuel' : (Z.to_nat (hex_precision real_type) <= fuel)%nat)
    by (rewrite HR; cbn; clear - Hfuel; lia).
  assert (Hp0 : 0 <= precision) by lia.
  assert (Habound : 0 <= a < 2 ^ (Unsigned_Integer_bits real_type - 2)).
  { rewrite HR. cbn [Unsigned_Integer_bits]. split; [lia|].
    apply Z.lt_le_trans with (2 ^ 64); [lia|]. apply Z.pow_le_mono_r; lia. }
  pose proof (hex_text_written fuel m first last value precision s a e0 e
                Hlen Hfuel' Hp0 Halign Hwrap Habound) as Hmain.
  cbv zeta in Hmain. rewrite HR in Hmain. cbn [hex_precision] in Hmain.
  rewrite Hmain.
  - fold negative abs_e.
    replace (precision <? 15) with true by (symmetry; apply Z.ltb_lt; lia).
    cbv iota.
    change (a + (if Claims.rounds_up a ((15 - precision) * nibble_bits)
                 then 2 ^ ((15 - precision) * nibble_bits) else 0)) with rounded.
    rewrite fraction_text_zeros; [reflexivity | lia |].
    replace (15 - Z.of_nat (Z.to_nat precision)) with (15 - precision) by lia.
    replace (16 ^ (15 - precision)) with (2 ^ lost_bits)
      by (rewrite Hlost, Z.mul_comm; apply pow16; lia).
    change (16 ^ 15) with (2 ^ 60). exact Hfrac.
  - change (16 ^ 15) with (2 ^ 60).
    split; [apply Z.div_pos; lia|]. apply Z.div_lt_upper_bound; lia.
Qed.

End HexText.

(** The [double] 1.5 with three digits and forty bytes: both checks pass
    and the text is 1.800p+. *)
Lemma hex_writes_the_digits_witness :
  let value : float64 := Rconst (3 # 2) in
  exists s a e0 e,
    align_significand value = Done (s, a, e0)
    /\ wrap_exponent (Real := float64) 100 e0 = Done e
    /\ let negative := Rlt value (Rconst 0) in
       let lost_bits := (hex_precision double - 3) * nibble_bits in
       let r :=
         if 3 <? hex_precision double
         then a + (if Claims.rounds_up a lost_bits then 2 ^ lost_bits else 0)
         else a in
       let abs_e := to_uint 32 (Z.abs e) in
       let text := hex_text digit_table (hex_precision double) negative r 3 e in
       to_chars_hex 100 blank 0 40 value 3
         = if (40 - 0 <? 3) || (0 >? 40)
              || (total_buffer_length 3 abs_e negative >? 40 - 0)
           then Done (blank, {| ptr := 40; ec := ERANGE |})
           else Done (to_chars_int (store_bytes blank 0 text)
                        (0 + Z.of_nat (List.length text)) 40 abs_e).
Proof.
  refine (hex_writes_the_digits (FP := double_FloatingPoint) (CO := double_Collaborators)
            100 blank 0 40 (Rconst (3 # 2)) 3 _ _ _ _ _ _).
  - right. reflexivity.
  - cbn. lia.
  - cbn. lia.
  - cbn. lia.
  - cbn. lia.
  - lia.
Defined.

(** The same call, and one into a buffer of five bytes, where the second
    check fails. *)
Example hex_with_precision_output :
  output (to_chars_hex 100 blank 0 40 (Rconst (3 # 2) : float64) 3)
    = Done (chars "1.800p+0", errc_ok)
  /\ to_chars_hex 100 blank 0 5 (Rconst (3 # 2) : float64) 3
    = Done (blank, {| ptr := 5; ec := ERANGE |}).
Proof. split; vm_compute; reflexivity. Qed.

(** The 80-bit value 8.fffffffffffffff * 2^-3 with one digit: the
    significand 8fffffffffffffff is aligned to 9fffffffffffffff and
    rounded to a0ffffffffffffff. *)
Lemma long_double_rounding_carry_is_lost_witness :
  let value : float80 := {| bits80 := 16383 * 2 ^ 64 + 0x8FFFFFFFFFFFFFFF |} in
  let s := 0x8FFFFFFFFFFFFFFF in
  let a := 0x9FFFFFFFFFFFFFFF in
  let n := hex_precision long_double in
  let lost_bits := (n - 1) * nibble_bits in
  let rounded := a + (if Claims.rounds_up a lost_bits then 2 ^ lost_bits else 0) in
  exists e,
    @wrap_exponent _ long_double_FloatingPoint 100 0 = Done e
    /\ round_significand (Unsigned_Integer_bits long_double) lost_bits a = Done rounded
    /\ s / 16 ^ n < rounded / 16 ^ n
    /\ let negative := @Rlt _ long_double_FloatingPoint value (@Rconst _ long_double_FloatingPoint 0) in
       let abs_e := to_uint 32 (Z.abs e) in
       let table := @digit_table _ long_double_Collaborators in
       let text :=
         hex_layout negative (hex_digit table (s / 16 ^ n)) 1
           (repeat (hex_digit table 0) (Z.to_nat 1)) e in
       @to_chars_hex _ long_double_FloatingPoint long_double_Collaborators
           100 blank 0 40 value 1
         = if (40 - 0 <? 1) || (0 >? 40)
              || (@total_buffer_length _ long_double_Collaborators 1 abs_e negative
                  >? 40 - 0)
           then Done (blank, {| ptr := 40; ec := ERANGE |})
           else Done (@to_chars_int _ long_double_Collaborators
                        (store_bytes blank 0 text)
                        (0 + Z.of_nat (List.length text)) 40 abs_e).
Proof.
  refine (long_double_rounding_carry_is_lost (FP := long_double_FloatingPoint)
            (CO := long_double_Collaborators) 100 blank 0 40
            {| bits80 := 16383 * 2 ^ 64 + 0x8FFFFFFFFFFFFFFF |} 1
            0x8FFFFFFFFFFFFFFF 0x9FFFFFFFFFFFFFFF 0 _ _ _ _ _ _ _ _).
  - reflexivity.
  - reflexivity.
  - reflexivity.
  - cbn. lia.
  - lia.
  - cbn. lia.
  - vm_compute. reflexivity.
  - vm_compute. reflexivity.
Defined.

(** Through [to_chars_float_impl] that value prints as 8.0p-3, where the
    nearest value with one digit is 9.0p-3, and with no digit as 8p-3.
    For the [double] 1.fffffffffffff the same calls round into the leading
    digit. *)
Example long_double_hex_output :
  output (@to_chars_float_impl _ long_double_FloatingPoint long_double_Collaborators
            100 blank 0 40 {| bits80 := 16383 * 2 ^ 64 + 0x8FFFFFFFFFFFFFFF |} hex 1)
    = Done (chars "8.0p-3", errc_ok)
  /\ output (@to_chars_float_impl _ long_double_FloatingPoint long_double_Collaborators
               100 blank 0 40 {| bits80 := 16383 * 2 ^ 64 + 0x8FFFFFFFFFFFFFFF |} hex 0)
    = Done (chars "8p-3", errc_ok).
Proof. split; vm_compute; reflexivity. Qed.

Example double_hex_carry_output :
  output (to_chars_float_impl 100 blank 0 40
            ({| bits64 := 0x3FFFFFFFFFFFFFFF |} : float64) hex 1)
    = Done (chars "2.0p+0", errc_ok)
  /\ output (to_chars_float_impl 100 blank 0 40
               ({| bits64 := 0x3FFFFFFFFFFFFFFF |} : float64) hex 0)
    = Done (chars "2p+0", errc_ok).
Proof. split; vm_compute; reflexivity. Qed.

(** ** to_chars_fixed_impl: the decimal point *)

Lemma load_store_same (m : mem) (a b : Z) : load (store m a b) a = b.
Proof. unfold load, store. cbn. now rewrite Z.eqb_refl. Qed.

Lemma load_store_other (m : mem) (a b x : Z) :
  x <> a -> load (store m a b) x = load m x.
Proof.
  intros Hne. unfold load, store. cbn.
  destruct (Z.eqb_spec a x); [congruence | reflexivity].
Qed.

Lemma load_store_bytes_outside (bs : list Z) :
  forall (m : mem) (dst x : Z),
  x < dst \/ dst + Z.of_nat (List.length bs) <= x ->
  load (store_bytes m dst bs) x = load m x.
Proof.
  induction bs as [|b bs IH]; intros m dst x Hx; [reflexivity|].
  cbn [store_bytes]. cbn [List.length] in Hx.
  rewrite IH by lia. apply load_store_other. lia.
Qed.

Lemma load_store_bytes_inside (bs : list Z) :
  forall (m : mem) (dst : Z) (i : nat),
  (i < List.length bs)%nat ->
  load (store_bytes m dst bs) (dst + Z.of_nat i) = nth i bs 0.
Proof.
  induction bs as [|b bs IH]; intros m dst i Hi; cbn [List.length] in Hi; [lia|].
  cbn [store_bytes]. destruct i as [|i].
  - rewrite load_store_bytes_outside by lia.
    rewrite Z.add_0_r. apply load_store_same.
  - replace (dst + Z.of_nat (S i)) with (dst + 1 + Z.of_nat i) by lia.
    rewrite IH by lia. reflexivity.
Qed.

Lemma nth_map_seq (f : nat -> Z) (n i : nat) :
  (i < n)%nat -> nth i (map f (seq 0 n)) 0 = f i.
Proof.
  intros Hi. rewrite nth_indep with (d' := f 0%nat)
    by (rewrite length_map, length_seq; exact Hi).
  rewrite (map_nth f), seq_nth by exact Hi. reflexivity.
Qed.

Section FixedPoint.

Context {Real : Type} {FP : FloatingPoint Real} {CO : Collaborators Real}.

(** X16. Without a precision, in [general] or [fixed] notation, a value
    of magnitude in [1, max_fractional_value) that is no multiple of ten
    and whose decomposition has a negative exponent [e] is printed by
    [to_chars_integer_impl] as the digits of its significand, ending at
    [r]; the last [-e] of these bytes are then moved one byte up and the
    point is stored in the gap, the bytes before it stay as they are, and
    the result is [r + 1]. *)
Theorem fixed_inserts_the_point (fuel : nat) (m : mem) (first last : Z)
    (value : Real) (fmt : chars_format) :
  let vs := to_decimal value in
  let e := exponent vs in
  let sign := if is_negative vs then (store m first (ch "-"), first + 1) else (m, first) in
  let printed := to_chars_integer_impl (fst sign) (snd sign) last (significand vs) in
  let m1 := fst printed in
  let r := ptr (snd printed) in
  (1 <= fuel)%nat ->
  first < last ->
  fmt = general \/ fmt = fixed ->
  Rge (Rabs value) (Rconst 1) && Rlt (Rabs value) max_fractional_value = true ->
  Req (Rfmod (Rabs value) (Rconst 10)) (Rconst 0) = false ->
  get_real_precision (-1) <= last - first ->
  total_buffer_length 0 e (Rlt value (Rconst 0)) <= last - first ->
  ec (snd printed) = errc_ok ->
  INT_MIN <= e < 0 -> - e < last - first ->
  exists m2,
    to_chars_float_impl fuel m first last value fmt (-1)
      = Done (m2, {| ptr := r + 1; ec := errc_ok |})
    /\ load m2 (r + e) = ch "."
    /\ (forall i, 0 <= i < - e -> load m2 (r + e + 1 + i) = load m1 (r + e + i))
    /\ (forall a, a < r + e -> load m2 a = load m1 a).
Proof.
  intros vs e sign printed m1 r Hfuel Hne Hfmt Hmag Hten Hprec Hlen Hok He Hfit.
  destruct fuel as [|fuel]; [lia|].
  unfold to_chars_float_impl.
  replace (first >=? last) with false
    by (symmetry; rewrite Z.geb_leb; apply Z.leb_gt; lia).
  change (-1 =? -1) with true. cbv iota.
  replace (chars_format_eqb fmt general || chars_format_eqb fmt fixed) with true
    by (destruct Hfmt as [-> | ->]; reflexivity).
  rewrite Hmag. unfold to_chars_fixed_impl.
  replace (last - first <? get_real_precision (-1)) with false
    by (symmetry; apply Z.ltb_ge; lia).
  replace (first >? last) with false
    by (symmetry; rewrite Z.gtb_ltb; apply Z.ltb_ge; lia).
  cbn [orb]. change (-1 =? -1) with true. cbn [negb].
  fold vs. fold sign. 
  destruct sign as [m0 first0] eqn:Hsign. cbn [bind]. fold e.
  replace (total_buffer_length 0 e (Rlt value (Rconst 0)) >? last - first) with false
    by (symmetry; rewrite Z.gtb_ltb; apply Z.ltb_ge; lia).
  cbn [fst snd] in printed. fold printed.
  assert (Hprinted : printed = (m1, snd printed))
    by (unfold m1; destruct printed; reflexivity).
  rewrite Hprinted, Hok.
  apply andb_true_iff in Hmag. destruct Hmag as [Hge _]. rewrite Hge.
  replace ((e <? 0) && (- e <? last - first)) with true
    by (symmetry; apply andb_true_intro; split; apply Z.ltb_lt; lia).
  assert (Hsize : size_ (- e) = Done (- e)).
  { unfold size_, to_uint, size_t_bits. unfold INT_MIN, int_bits in He.
    change (2 ^ (32 - 1)) with 2147483648 in He.
    change (2 ^ 64) with 18446744073709551616.
    change (2 ^ (64 - 1)) with 9223372036854775808.
    rewrite Z.mod_small by lia.
    replace (- e <? 9223372036854775808) with true by (symmetry; apply Z.ltb_lt; lia).
    reflexivity. }
  rewrite Hsize. cbn [bind]. fold r.
  rewrite while_loop_step. unfold append_zero_step at 1. rewrite Hten. cbn [bind].
  eexists. split; [reflexivity|].
  unfold memset, memmove. change (repeat (ch ".") (Z.to_nat 1)) with [ch "."].
  split; [|split].
  - match goal with
    | |- load (store_bytes ?M _ _) _ = _ =>
        pose proof (load_store_bytes_inside [ch "."] M (r + e) 0 ltac:(cbn; lia)) as Hpoint
    end.
    cbn [Z.of_nat nth] in Hpoint. rewrite Z.add_0_r in Hpoint. exact Hpoint.
  - intros i Hi.
    rewrite load_store_bytes_outside by (cbn [List.length]; lia).
    replace (r + e + 1 + i) with (r + e + 1 + Z.of_nat (Z.to_nat i)) by lia.
    rewrite load_store_bytes_inside by (rewrite length_map, length_seq; lia).
    rewrite nth_map_seq by lia. f_equal. lia.
  - intros a Ha.
    rewrite !load_store_bytes_outside by (cbn [List.length]; lia). reflexivity.
Qed.

End FixedPoint.

(** The [double] 2.5 in [fixed] notation and forty bytes. *)
Lemma fixed_inserts_the_point_witness :
  let value : float64 := Rconst (5 # 2) in
  let vs := to_decimal value in
  let e := exponent vs in
  let sign := if is_negative vs then (store blank 0 (ch "-"), 0 + 1) else (blank, 0) in
  let printed := to_chars_integer_impl (fst sign) (snd sign) 40 (significand vs) in
  let m1 := fst printed in
  let r := ptr (snd printed) in
  exists m2,
    to_chars_float_impl 100 blank 0 40 value fixed (-1)
      = Done (m2, {| ptr := r + 1; ec := errc_ok |})
    /\ load m2 (r + e) = ch "."
    /\ (forall i, 0 <= i < - e -> load m2 (r + e + 1 + i) = load m1 (r + e + i))
    /\ (forall a, a < r + e -> load m2 a = load m1 a).
Proof.
  refine (fixed_inserts_the_point (FP := double_FloatingPoint) (CO := double_Collaborators)
            100 blank 0 40 (Rconst (5 # 2)) fixed _ _ _ _ _ _ _ _ _ _).
  - lia.
  - lia.
  - right. reflexivity.
  - vm_compute. reflexivity.
  - vm_compute. reflexivity.
  - vm_compute. discriminate.
  - vm_compute. discriminate.
  - vm_compute. reflexivity.
  - vm_compute. split; [discriminate | reflexivity].
  - vm_compute. reflexivity.
Defined.

(** ** to_chars_hex without a precision *)

Lemma drop_leading_split (c : Z) (l : list Z) :
  exists z, l = repeat c z ++ drop_leading c l
            /\ (forall x l', drop_leading c l = x :: l' -> x <> c).
Proof.
  induction l as [|x l (z & Hl & Hhead)].
  - exists 0%nat. split; [reflexivity | discriminate].
  - cbn [drop_leading]. destruct (Z.eqb_spec x c) as [-> | Hne].
    + exists (S z). split; [cbn [repeat app]; now rewrite <- Hl | exact Hhead].
    + exists 0%nat. split; [reflexivity|]. now intros y l' [= <- _].
Qed.

(** The stripped list is the list without a run of [c] at its end, and
    does not end with [c]. *)
Lemma strip_trailing_split (c : Z) (l : list Z) :
  exists z, l = strip_trailing c l ++ repeat c z
            /\ (forall l' x, strip_trailing c l = l' ++ [x] -> x <> c).
Proof.
  unfold strip_trailing.
  destruct (drop_leading_split c (rev l)) as (z & Hl & Hhead).
  exists z. split.
  - rewrite <- (rev_involutive l), Hl at 1.
    rewrite rev_app_distr, rev_repeat. reflexivity.
  - intros l' x Hx. apply (Hhead x (rev l')).
    rewrite <- (rev_involutive (drop_leading c (rev l))), Hx, rev_app_distr.
    reflexivity.
Qed.

Lemma map_seq_from {A : Type} (f : nat -> A) (n k : nat) :
  map f (seq n k) = map (fun i => f (n + i)%nat) (seq 0 k).
Proof.
  revert f. induction n as [|n IH]; intros f; [reflexivity|].
  rewrite <- seq_shift, map_map, IH. reflexivity.
Qed.

Lemma bytes_app (m : mem) (a : Z) (n k : nat) :
  bytes m a (n + k) = bytes m a n ++ bytes m (a + Z.of_nat n) k.
Proof.
  unfold bytes. rewrite seq_app, map_app. f_equal.
  cbn [Nat.add]. rewrite map_seq_from. apply map_ext. intros i. f_equal. lia.
Qed.

Lemma bytes_store_other (m : mem) (a x b : Z) (n : nat) :
  x < a \/ a + Z.of_nat n <= x -> bytes (store m x b) a n = bytes m a n.
Proof.
  intros Hx. unfold bytes. apply map_ext_in. intros i Hi.
  apply in_seq in Hi. apply load_store_other. lia.
Qed.

Lemma nth_prefix (l l' : list Z) :
  map (fun i => nth i (l ++ l') 0) (seq 0 (List.length l)) = l.
Proof.
  induction l as [|x l IH]; [reflexivity|].
  cbn [List.length seq map app nth]. f_equal.
  rewrite <- seq_shift, map_map. exact IH.
Qed.

(** Reading back the first of the bytes just stored. *)
Lemma bytes_store_bytes_prefix (m : mem) (a : Z) (l l' : list Z) :
  bytes (store_bytes m a (l ++ l')) a (List.length l) = l.
Proof.
  unfold bytes.
  transitivity (map (fun i => nth i (l ++ l') 0) (seq 0 (List.length l)));
    [|apply nth_prefix].
  apply map_ext_in. intros i Hi. apply in_seq in Hi.
  apply load_store_bytes_inside. rewrite length_app. lia.
Qed.

(** The loop that steps back over the zeros. *)
Lemma strip_back (m : mem) (z : nat) :
  forall (fuel : nat) (p : Z),
  (z < fuel)%nat ->
  (forall i, 0 <= i < Z.of_nat z -> load m (p - i) = ch "0") ->
  load m (p - Z.of_nat z) <> ch "0" ->
  while_loop fuel
    (fun first => if load m first =? ch "0" then Done (first - 1, true)
                  else Done (first, false)) p
    = Done (p - Z.of_nat z).
Proof.
  induction z as [|z IH]; intros fuel p Hfuel Hzeros Hstop;
    (destruct fuel as [|fuel]; [lia|]); rewrite while_loop_step.
  - change (Z.of_nat 0) with 0 in *. rewrite Z.sub_0_r in *.
    destruct (Z.eqb_spec (load m p) (ch "0")); [contradiction|].
    cbn [bind]. reflexivity.
  - rewrite <- (Z.sub_0_r p) at 1. rewrite Hzeros by lia.
    rewrite Z.eqb_refl. cbn [bind]. rewrite IH.
    + f_equal. lia.
    + lia.
    + intros i Hi. replace (p - 1 - i) with (p - (i + 1)) by lia.
      apply Hzeros. lia.
    + replace (p - 1 - Z.of_nat z) with (p - Z.of_nat (S z)) by lia. exact Hstop.
Qed.

Section HexShortest.

Context {Real : Type} {FP : FloatingPoint Real} {CO : Collaborators Real}.

(** The loop that prints the fraction, with no precision given and at
    least as many digits asked for as the type has: it stores the digits
    of the type and no zero behind them. *)
Lemma hex_fraction_loop_all (n : nat) :
  forall (fuel : nat) (m : mem) (first a rp : Z),
  (16 <= List.length digit_table)%nat ->
  (1 <= n)%nat -> (n <= fuel)%nat ->
  4 * Z.of_nat n < Unsigned_Integer_bits real_type ->
  0 <= a < 16 ^ Z.of_nat n -> Z.of_nat n <= rp ->
  exists a' rp' rb',
    while_loop fuel (hex_fraction_step (-1)) (m, first, a, rp, 4 * Z.of_nat n)
      = Done (store_bytes m first (fraction_text digit_table (Z.of_nat n) a n),
              first + Z.of_nat n, a', rp', rb').
Proof.
  induction n as [|n IH]; intros fuel m first a rp Hlen Hn Hfuel Hw Ha Hrp; [lia|].
  destruct fuel as [|fuel]; [lia|].
  rewrite while_loop_step. unfold hex_fraction_step at 1.
  set (w := Unsigned_Integer_bits real_type) in *.
  replace (4 * Z.of_nat (S n) - nibble_bits) with (4 * Z.of_nat n)
    by (unfold nibble_bits; lia).
  rewrite shr_defined by lia. cbn [bind].
  assert (Hpn : 0 < 16 ^ Z.of_nat n) by (apply Z.pow_pos_nonneg; lia).
  assert (Hsucc : 16 ^ Z.of_nat (S n) = 16 * 16 ^ Z.of_nat n)
    by (rewrite Nat2Z.inj_succ, Z.pow_succ_r by lia; reflexivity).
  assert (Hshift : Z.shiftr a (4 * Z.of_nat n) = a / 16 ^ Z.of_nat n)
    by (rewrite Z.shiftr_div_pow2, pow16 by lia; reflexivity).
  assert (Hnib : 0 <= a / 16 ^ Z.of_nat n < 16).
  { split; [apply Z.div_pos; lia|]. apply Z.div_lt_upper_bound; lia. }
  rewrite Hshift.
  assert (Hu : to_uint 32 (a / 16 ^ Z.of_nat n) = a / 16 ^ Z.of_nat n).
  { unfold to_uint. apply Z.mod_small. change (2 ^ 32) with 4294967296. lia. }
  rewrite Hu, (table_at_hex_digit _ Hlen Hnib). cbn [bind].
  rewrite fraction_text_succ.
  replace (0 <? Z.of_nat (S n)) with true by (symmetry; apply Z.ltb_lt; lia).
  replace (Z.of_nat (S n) - 1) with (Z.of_nat n) by lia.
  rewrite (Z.mod_small (a / 16 ^ Z.of_nat n)) by lia.
  cbn [store_bytes].
  change (negb (-1 =? -1)) with false. cbv iota.
  destruct n as [|n'].
  - (* the last digit of the type *)
    change (4 * Z.of_nat 0 =? 0) with true. cbv iota.
    destruct (rp - 1 =? 0); cbn [bind seq map store_bytes]; do 3 eexists;
      change (Z.of_nat 1) with 1; reflexivity.
  - set (n := S n') in *.
    replace (rp - 1 =? 0) with false by (symmetry; apply Z.eqb_neq; lia).
    replace (4 * Z.of_nat n =? 0) with false by (symmetry; apply Z.eqb_neq; lia).
    rewrite (shl_small w 1 (4 * Z.of_nat n)).
    2: lia. 2: lia.
    2: { rewrite Z.mul_1_l. apply Z.pow_lt_mono_r; lia. }
    cbn [bind]. rewrite Z.mul_1_l.
    assert (Hlt : 2 ^ (4 * Z.of_nat n) < 2 ^ w) by (apply Z.pow_lt_mono_r; lia).
    assert (Hmask : to_uint w (2 ^ (4 * Z.of_nat n) - 1) = Z.ones (4 * Z.of_nat n)).
    { unfold to_uint. rewrite pow16 in * by lia.
      rewrite Z.mod_small, Z.ones_equiv by lia. rewrite pow16 by lia. lia. }
    rewrite Hmask, Z.land_ones, pow16 by lia.
    destruct (IH fuel (store m first (hex_digit digit_table (a / 16 ^ Z.of_nat n)))
                (first + 1) (a mod 16 ^ Z.of_nat n) (rp - 1))
      as (a' & rp' & rb' & Hrun); try assumption; try lia.
    { apply Z.mod_pos_bound. lia. }
    exists a', rp', rb'. rewrite Hrun.
    replace (first + 1 + Z.of_nat n) with (first + Z.of_nat (S n)) by lia.
    do 6 f_equal. unfold fraction_text. apply map_ext_in.
    intros i _.
    replace (Z.of_nat (S i) <? Z.of_nat (S n)) with (Z.of_nat i <? Z.of_nat n)
      by (apply eq_true_iff_eq; rewrite !Z.ltb_lt; lia).
    destruct (Z.ltb_spec (Z.of_nat i) (Z.of_nat n)) as [Hi|Hi]; [|reflexivity].
    replace (Z.of_nat n - Z.of_nat (S i)) with (Z.of_nat n - 1 - Z.of_nat i)
      by lia.
    rewrite digit_of_mod by lia. reflexivity.
Qed.

Lemma nth_repeat_lt (c d : Z) (z j : nat) : (j < z)%nat -> nth j (repeat c z) d = c.
Proof.
  revert j. induction z as [|z IH]; intros j Hj; [lia|].
  destruct j as [|j]; [reflexivity|]. cbn [repeat nth]. apply IH. lia.
Qed.

(** X17. For [float] and [double] and no precision, when
    [get_real_precision] asks for at least the digits the type has,
    [to_chars_hex] returns a range error at [last], with the memory as it
    found it, exactly when the buffer is shorter than the precision
    [get_real_precision] gives or than the length computed for the text,
    or [first > last]; otherwise it leaves at [first] the sign of a
    negative value, the leading digit, the point -- always -- and the
    hexadecimal digits of the fraction without their trailing zeros, then
    [p] and the sign of the exponent; a fraction of zero leaves the point
    with no digit behind it.  It returns what [to_chars_int] returns,
    called behind this text with the magnitude of the exponent. *)
Theorem hex_without_precision_strips_zeros (fuel : nat) (m : mem) (first last : Z)
    (value : Real) :
  real_type = float \/ real_type = double ->
  0 <= significand_bits ->
  significand_bits + b2z (Real_type_eqb real_type float) <= hex_bits real_type ->
  (16 <= List.length digit_table)%nat ->
  hex_precision real_type <= get_real_precision (-1) ->
  (Z.to_nat (hex_precision real_type) < fuel)%nat ->
  exists s a e0 e m',
    align_significand value = Done (s, a, e0)
    /\ wrap_exponent fuel e0 = Done e
    /\ let negative := Rlt value (Rconst 0) in
       let n := hex_precision real_type in
       let abs_e := to_uint 32 (Z.abs e) in
       let digits :=
         strip_trailing (ch "0")
           (fraction_text digit_table n (a mod 16 ^ n) (Z.to_nat n)) in
       let text :=
         (if negative then [ch "-"] else [])
         ++ [hex_digit digit_table (a / 16 ^ n); ch "."]
         ++ digits
         ++ [ch "p"; if e <? 0 then ch "-" else ch "+"] in
       to_chars_hex fuel m first last value (-1)
         = (if (last - first <? get_real_precision (-1)) || (first >? last)
               || (total_buffer_length (get_real_precision (-1)) abs_e negative
                   >? last - first)
            then Done (m, {| ptr := last; ec := ERANGE |})
            else Done (to_chars_int m' (first + Z.of_nat (List.length text)) last
                         abs_e))
       /\ bytes m' first (List.length text) = text.
Proof.
  intros HR Hsb Hfit Hlen Hrp Hfuel.
  destruct (narrow_layout HR) as (Hhb4 & Hhp & Hhb & Hw & Hw64 & Hfl).
  destruct (align_significand_defined value HR Hsb Hfit) as (s & a & e0 & Halign & Ha).
  assert (Hwrap : exists e, wrap_exponent fuel e0 = Done e).
  { unfold wrap_exponent. destruct HR as [-> | ->]; eauto. }
  destruct Hwrap as (e & Hwrap).
  set (w := Unsigned_Integer_bits real_type) in *.
  set (hb := hex_bits real_type) in *.
  set (hp := hex_precision real_type) in *.
  set (rp := get_real_precision (-1)) in *.
  set (abs_e := to_uint 32 (Z.abs e)).
  set (negative := Rlt value (Rconst 0)).
  set (sign := if negative then [ch "-"] else []).
  set (first0 := first + Z.of_nat (List.length sign)).
  set (lead := hex_digit digit_table (a / 16 ^ hp)).
  set (full := fraction_text digit_table hp (a mod 16 ^ hp) (Z.to_nat hp)).
  destruct (strip_trailing_split (ch "0") full) as (z & Hfull & Hend).
  set (digits := strip_trailing (ch "0") full) in *.
  set (pre := sign ++ [lead; ch "."] ++ digits).
  set (m2 := store_bytes m first (pre ++ repeat (ch "0") z)).
  set (P := first + Z.of_nat (List.length pre)).
  set (esign := if e <? 0 then ch "-" else ch "+").
  exists s, a, e0, e, (store (store m2 P (ch "p")) (P + 1) esign).
  split; [exact Halign|]. split; [exact Hwrap|]. cbv zeta.
  fold hp negative abs_e rp. fold full. fold digits. fold lead.
  fold sign esign.
  assert (Htext : sign ++ [lead; ch "."] ++ digits ++ [ch "p"; esign]
                  = pre ++ [ch "p"; esign])
    by (unfold pre; rewrite <- !app_assoc; reflexivity).
  rewrite Htext, length_app. cbn [List.length].
  assert (Hpre_len : Z.of_nat (List.length pre)
                     = Z.of_nat (List.length sign) + 2 + Z.of_nat (List.length digits)).
  { unfold pre. rewrite !length_app. cbn [List.length]. lia. }
  split.
  - (* the call *)
    unfold to_chars_hex. fold w hb hp rp.
    change (-1 =? -1) with true. cbn [negb]. cbv iota.
    destruct ((last - first <? rp) || (first >? last)); [reflexivity|].
    cbn [orb]. rewrite Halign. cbn [bind].
    assert (Hpow : forall j k, 0 <= j <= k -> 0 < 2 ^ j <= 2 ^ k).
    { intros j k Hjk. split; [apply Z.pow_pos_nonneg; lia | apply Z.pow_le_mono_r; lia]. }
    assert (Hhw : 2 ^ (hb + 2) < 2 ^ w) by (apply Z.pow_lt_mono_r; lia).
    assert (Hh1 : 2 ^ (hb + 1) = 2 * 2 ^ hb)
      by (rewrite <- Z.pow_succ_r by lia; reflexivity).
    assert (Hh2 : 2 ^ (hb + 2) = 4 * 2 ^ hb)
      by (rewrite Z.pow_add_r by lia; change (2 ^ 2) with 4; lia).
    pose proof (Hpow 0 hb ltac:(lia)) as Hhbpos.
    rewrite (shl_small w 1 hb) by lia. cbn [bind]. rewrite Z.mul_1_l.
    rewrite Hwrap. cbn [bind].
    assert (Habs : (if e <? 0 then to_uint 32 (- e) else to_uint 32 e)
                   = to_uint 32 (Z.abs e)).
    { destruct (Z.ltb_spec e 0); f_equal; lia. }
    rewrite Habs. fold abs_e. fold negative.
    destruct (total_buffer_length rp abs_e negative >? last - first);
      [reflexivity|].
    assert (Hhbhp : hb = hp * 4) by reflexivity.
    assert (H16 : 2 ^ hb = 16 ^ hp)
      by (rewrite Hhbhp, Z.mul_comm; apply pow16; lia).
    replace (rp <? hp) with false by (symmetry; apply Z.ltb_ge; lia).
    cbn [bind].
    assert (Hlead : match real_type with
                    | long_double => shr w s hb
                    | _ => shr w a hb
                    end = Done (a / 16 ^ hp)).
    { rewrite <- H16, <- Z.shiftr_div_pow2 by lia.
      destruct HR as [HR | HR]; rewrite HR; apply shr_defined; lia. }
    assert (Hnib : 0 <= a / 16 ^ hp < 16).
    { rewrite <- H16. split; [apply Z.div_pos; lia|].
      apply Z.div_lt_upper_bound; lia. }
    assert (Hu : to_uint 32 (a / 16 ^ hp) = a / 16 ^ hp).
    { unfold to_uint. apply Z.mod_small. change (2 ^ 32) with 4294967296. lia. }
    assert (Hmask : Z.land a (to_uint w (2 ^ hb - 1)) = a mod 16 ^ hp).
    { unfold to_uint. rewrite Z.mod_small by lia.
      replace (2 ^ hb - 1) with (Z.ones hb) by (rewrite Z.ones_equiv; lia).
      rewrite Z.land_ones, H16 by lia. reflexivity. }
    assert (Hsign : (if negative then (store m first (ch "-"), first + 1)
                     else (m, first))
                    = (store_bytes m first sign, first0)).
    { unfold sign, first0. destruct negative; cbn; f_equal. lia. }
    rewrite Hsign, Hlead. cbn [bind].
    rewrite Hu, (table_at_hex_digit _ Hlen Hnib). cbn [bind]. rewrite Hmask.
    fold lead.
    replace (rp >? 0) with true
      by (symmetry; rewrite Z.gtb_ltb; apply Z.ltb_lt; lia).
    destruct (hex_fraction_loop_all (Z.to_nat hp) fuel
                (store (store (store_bytes m first sign) first0 lead)
                   (first0 + 1) (ch "."))
                (first0 + 1 + 1) (a mod 16 ^ hp) rp)
      as (a1 & rp1 & rb1 & Hrun); try assumption; try lia.
    { replace (Z.of_nat (Z.to_nat hp)) with hp by lia.
      apply Z.mod_pos_bound. apply Z.pow_pos_nonneg; lia. }
    rewrite <- Hhb4 in Hrun. rewrite Hrun. cbn [bind].
    replace (Z.of_nat (Z.to_nat hp)) with hp by lia. fold full.
    assert (Hfull_len : List.length full = Z.to_nat hp)
      by (unfold full, fraction_text; rewrite length_map, length_seq; reflexivity).
    assert (Hz : (List.length digits + z = Z.to_nat hp)%nat)
      by (rewrite <- Hfull_len, Hfull at 1; rewrite length_app, repeat_length;
          reflexivity).
    assert (Hmem : store_bytes
                     (store (store (store_bytes m first sign) first0 lead)
                        (first0 + 1) (ch ".")) (first0 + 1 + 1) full
                   = m2).
    { unfold m2, pre. rewrite Hfull at 1. rewrite <- !app_assoc.
      rewrite (store_bytes_app sign). fold first0. reflexivity. }
    rewrite Hmem.
    assert (Hlast : exists pre' x, pre = pre' ++ [x] /\ x <> ch "0").
    { destruct (rev digits) as [|x rd] eqn:Hrev.
      - exists (sign ++ [lead]), (ch "."). split; [|discriminate].
        unfold pre. apply (f_equal (@rev Z)) in Hrev. rewrite rev_involutive in Hrev.
        rewrite Hrev. cbn [rev app]. rewrite <- app_assoc. reflexivity.
      - apply (f_equal (@rev Z)) in Hrev. rewrite rev_involutive in Hrev.
        cbn [rev] in Hrev.
        exists (sign ++ [lead; ch "."] ++ rev rd), x. split.
        + unfold pre. rewrite Hrev, <- !app_assoc. reflexivity.
        + apply (Hend (rev rd)). exact Hrev. }
    destruct Hlast as (pre' & x & Hpre & Hx).
    assert (Hstrip :
              while_loop fuel
                (fun first1 => if load m2 first1 =? ch "0" then Done (first1 - 1, true)
                               else Done (first1, false))
                (first0 + 1 + 1 + hp - 1)
              = Done (first0 + 1 + 1 + hp - 1 - Z.of_nat z)).
    { apply strip_back.
      - lia.
      - intros i Hi.
        replace (first0 + 1 + 1 + hp - 1 - i)
          with (first + Z.of_nat (List.length pre + (z - 1 - Z.to_nat i)))
          by (unfold first0; lia).
        unfold m2. rewrite load_store_bytes_inside
          by (rewrite length_app, repeat_length; lia).
        rewrite app_nth2_plus. apply nth_repeat_lt. lia.
      - replace (first0 + 1 + 1 + hp - 1 - Z.of_nat z)
          with (first + Z.of_nat (List.length pre')).
        2: { rewrite Hpre, length_app in Hpre_len. cbn [List.length] in Hpre_len.
             unfold first0. lia. }
        unfold m2. rewrite load_store_bytes_inside.
        2: { rewrite Hpre, !length_app. cbn [List.length]. lia. }
        rewrite Hpre, <- app_assoc. cbn [app]. rewrite nth_middle. exact Hx. }
    rewrite Hstrip. cbn [bind].
    replace (first0 + 1 + 1 + hp - 1 - Z.of_nat z + 1) with P
      by (unfold P, first0; lia).
    replace (first + Z.of_nat (List.length pre + 2)) with (P + 1 + 1)
      by (unfold P; lia).
    unfold esign. destruct (e <? 0); reflexivity.
  - (* the bytes left *)
    rewrite bytes_app. f_equal.
    + rewrite !bytes_store_other by (unfold P; lia).
      apply bytes_store_bytes_prefix.
    + fold P. unfold bytes. cbn [seq map Z.of_nat]. rewrite Z.add_0_r.
      rewrite load_store_other by lia.
      rewrite !load_store_same. reflexivity.
Qed.

End HexShortest.

(** The [double] 1.5 with no precision and forty bytes: the text is
    1.8p+. *)
Lemma hex_without_precision_strips_zeros_witness :
  let value : float64 := Rconst (3 # 2) in
  exists s a e0 e m',
    align_significand value = Done (s, a, e0)
    /\ wrap_exponent (Real := float64) 100 e0 = Done e
    /\ let negative := Rlt value (Rconst 0) in
       let n := hex_precision double in
       let abs_e := to_uint 32 (Z.abs e) in
       let digits :=
         strip_trailing (ch "0")
           (fraction_text digit_table n (a mod 16 ^ n) (Z.to_nat n)) in
       let text :=
         (if negative then [ch "-"] else [])
         ++ [hex_digit digit_table (a / 16 ^ n); ch "."]
         ++ digits
         ++ [ch "p"; if e <? 0 then ch "-" else ch "+"] in
       to_chars_hex 100 blank 0 40 value (-1)
         = (if (40 - 0 <? get_real_precision (-1)) || (0 >? 40)
               || (total_buffer_length (get_real_precision (-1)) abs_e negative
                   >? 40 - 0)
            then Done (blank, {| ptr := 40; ec := ERANGE |})
            else Done (to_chars_int m' (0 + Z.of_nat (List.length text)) 40 abs_e))
       /\ bytes m' 0 (List.length text) = text.
Proof.
  refine (hex_without_precision_strips_zeros (FP := double_FloatingPoint)
            (CO := double_Collaborators) 100 blank 0 40 (Rconst (3 # 2)) _ _ _ _ _ _).
  - right. reflexivity.
  - cbn. lia.
  - cbn. lia.
  - cbn. lia.
  - cbn. lia.
  - cbn. lia.
Defined.

(** The same call, the call on 1.0, whose fraction is zero, and one into
    a buffer of ten bytes, below the precision [get_real_precision]
    gives. *)
Example hex_without_precision_output :
  output (to_chars_hex 100 blank 0 40 (Rconst (3 # 2) : float64) (-1))
    = Done (chars "1.8p+0", errc_ok)
  /\ output (to_chars_hex 100 blank 0 40 (Rconst 1 : float64) (-1))
    = Done (chars "1.p+0", errc_ok)
  /\ to_chars_hex 100 blank 0 10 (Rconst (3 # 2) : float64) (-1)
    = Done (blank, {| ptr := 10; ec := ERANGE |}).
Proof. repeat split; vm_compute; reflexivity. Qed.

End RendererExtras.
